(** * Constraint-based type checking: the type matcher, the constraint
      simplifier and the solution ranker of lib/Sema/TypeCheckConstraints.cpp

    A shallow embedding of the solver core.  Types are kept in canonical
    (desugared) form, so [getDesugaredType] is the identity and pointer
    equality of uniqued types is structural equality.  The constraint system
    is an explicit state threaded through a small state monad; assertion
    failures and [llvm_unreachable] abort the computation, and the recursion
    between the matcher and [addConstraint] is bounded by a fuel counter. *)

From Stdlib Require Import ZArith Lia Bool.
From stdpp Require Import base option list strings.

Open Scope Z_scope.
Open Scope nat_scope.

Set Warnings "-register-all".

(* ===================================================================== *)
(** ** Types *)
(* ===================================================================== *)

Definition Identifier := string.

(** Identity of a declaration (a nominal type, a protocol, a value). *)
Definition DeclId := nat.

Inductive NominalKind := Enum | Struct | Class.

(** [LValueType::Qual]: the qualifier bits of a mutable-reference type. *)
Record Qual := mkQual { isImplicit : bool; isNonSettable : bool }.

Inductive DefaultArgumentKind := DAK_None | DAK_Normal.

Inductive Ty :=
| TBuiltin (builtinKind : nat) (id : nat)
| TModule (id : nat)
| TError
| TGenericTypeParam (depth index : nat)
| TDependentMember (base : Ty) (assoc : DeclId)
| TTypeVariable (id : nat)
| TArchetype (id : nat)
| TTuple (fields : list TupleTypeElt)
| TNominal (k : NominalKind) (decl : DeclId) (parent : option Ty)
| TProtocol (decl : DeclId)
| TMetaType (instance : Ty)
| TFunction (input result : Ty) (autoClosure noReturn : bool)
| TPolymorphicFunction (input result : Ty)
| TGenericFunction (input result : Ty)
| TArray (base : Ty) (size : nat)
| TProtocolComposition (protocols : list Ty)
| TLValue (object : Ty) (quals : Qual)
| TUnboundGeneric (decl : DeclId) (parent : option Ty)
| TBoundGeneric (k : NominalKind) (decl : DeclId) (parent : option Ty)
    (args : list Ty)
with TupleTypeElt :=
| mkElt (name : Identifier) (ty : Ty) (vararg : bool) (init : DefaultArgumentKind).

Definition getName (e : TupleTypeElt) : Identifier := let 'mkElt n _ _ _ := e in n.
Definition getType (e : TupleTypeElt) : Ty := let 'mkElt _ t _ _ := e in t.
Definition isVararg (e : TupleTypeElt) : bool := let 'mkElt _ _ v _ := e in v.
Definition hasInit (e : TupleTypeElt) : bool :=
  let 'mkElt _ _ _ i := e in match i with DAK_None => false | DAK_Normal => true end.
Definition hasName (e : TupleTypeElt) : bool :=
  negb (String.eqb (getName e) EmptyString).

(* ===================================================================== *)
(** ** Tuple shuffles *)
(* ===================================================================== *)

Module TupleShuffleExpr.
(** The two marker values of an element mapping. *)
Definition DefaultInitialize : Z := (-1)%Z.
Definition FirstVariadic : Z := (-2)%Z.
End TupleShuffleExpr.

Definition unassigned : Z := (-3)%Z.

(** The output parameters [sources] and [variadicArgs] together with the
    local [consumed] bit vector and the cursor [fromNext]. *)
Record ShuffleState := mkShuffle {
  sources : list Z;
  variadicArgs : list nat;
  consumed : list bool;
  fromNext : nat
}.

(** The inner search of the first loop: the first source field carrying the
    name that is not consumed yet. *)
Fixpoint findNamed (name : Identifier) (fields : list TupleTypeElt)
    (consumed : list bool) (index : nat) : option nat :=
  match fields with
  | [] => None
  | field :: rest =>
      if String.eqb (getName field) name && negb (default false (consumed !! index))
      then Some index
      else findNamed name rest consumed (S index)
  end.

(** First loop: match up any named elements. *)
Fixpoint matchNamed (fromFields : list TupleTypeElt) (toFields : list TupleTypeElt)
    (i : nat) (srcs : list Z) (used : list bool) : list Z * list bool :=
  match toFields with
  | [] => (srcs, used)
  | toElt :: rest =>
      if String.eqb (getName toElt) EmptyString
      then matchNamed fromFields rest (S i) srcs used
      else match findNamed (getName toElt) fromFields used 0 with
           | None => matchNamed fromFields rest (S i) srcs used
           | Some matched =>
               matchNamed fromFields rest (S i)
                 (<[i := Z.of_nat matched]> srcs) (<[matched := true]> used)
           end
  end.

(** [skipToNextAvailableInput]; [k] bounds the iterations by the number of
    inputs left, [fromLast - fromNext]. *)
Fixpoint skipLoop (used : list bool) (k : nat) (next : nat) : nat :=
  match k with
  | 0 => next
  | S k' => if default false (used !! next) then skipLoop used k' (S next) else next
  end.

Definition skipToNextAvailableInput (fromLast : nat) (used : list bool) (next : nat) : nat :=
  skipLoop used (fromLast - next) next.

(** The [while] loop that feeds a variadic destination: [inl] is the early
    [return true]. *)
Fixpoint collectVariadic (fromFields : list TupleTypeElt) (fromLast : nat) (k : nat)
    (vargs : list nat) (used : list bool) (next : nat)
    : (list nat * list bool * nat) + (list nat * list bool * nat) :=
  if Nat.eqb next fromLast then inr (vargs, used, next)
  else match k with
       | 0 => inr (vargs, used, next)
       | S k' =>
           if default false (hasName <$> fromFields !! next)
           then inl (vargs, used, next)
           else
             let used' := <[next := true]> used in
             collectVariadic fromFields fromLast k' (vargs ++ [next]) used'
               (skipToNextAvailableInput fromLast used' next)
       end.

(** Second loop: resolve any unmatched elements.  [inl] is [return true]
    from inside the loop, [inr] is falling out of it (also by [break]). *)
Fixpoint resolveUnmatched (fromFields : list TupleTypeElt) (fromLast : nat)
    (sourceLabelsAreMandatory : bool)
    (toFields : list TupleTypeElt) (i : nat) (s : ShuffleState)
    : ShuffleState + ShuffleState :=
  match toFields with
  | [] => inr s
  | elt2 :: rest =>
      if negb (Z.eqb (default unassigned (sources s !! i)) unassigned)
      then resolveUnmatched fromFields fromLast sourceLabelsAreMandatory rest (S i) s
      else if isVararg elt2 then
        match collectVariadic fromFields fromLast (fromLast - fromNext s)
                (variadicArgs s) (consumed s) (fromNext s) with
        | inl (va, used, next) => inl (mkShuffle (sources s) va used next)
        | inr (va, used, next) =>
            inr (mkShuffle (<[i := TupleShuffleExpr.FirstVariadic]> (sources s)) va used next)
        end
      else if Nat.eqb (fromNext s) fromLast then
        if hasInit elt2
        then resolveUnmatched fromFields fromLast sourceLabelsAreMandatory rest (S i)
               (mkShuffle (<[i := TupleShuffleExpr.DefaultInitialize]> (sources s))
                  (variadicArgs s) (consumed s) (fromNext s))
        else inl s
      else if default false (hasName <$> fromFields !! fromNext s)
              && (sourceLabelsAreMandatory || hasName elt2)
      then inl s
      else
        let used' := <[fromNext s := true]> (consumed s) in
        resolveUnmatched fromFields fromLast sourceLabelsAreMandatory rest (S i)
          (mkShuffle (<[i := Z.of_nat (fromNext s)]> (sources s)) (variadicArgs s) used'
             (skipToNextAvailableInput fromLast used' (fromNext s)))
  end.

(** [constraints::computeTupleShuffle]: the boolean is the C++ result
    ([true] means that no shuffle exists); the two lists are the output
    parameters as the call leaves them. *)
Definition computeTupleShuffle (fromTuple toTuple : list TupleTypeElt)
    (sourceLabelsAreMandatory : bool) : bool * list Z * list nat :=
  let consumed0 := replicate (length fromTuple) false in
  let sources0 := replicate (length toTuple) unassigned in
  let '(srcs, used) := matchNamed fromTuple toTuple 0 sources0 consumed0 in
  let fromLast := length fromTuple in
  let s0 := mkShuffle srcs [] used (skipToNextAvailableInput fromLast used 0) in
  match resolveUnmatched fromTuple fromLast sourceLabelsAreMandatory toTuple 0 s0 with
  | inl s => (true, sources s, variadicArgs s)
  | inr s =>
      if negb (Nat.eqb (fromNext s) fromLast)
      then (true, sources s, variadicArgs s)
      else (false, sources s, variadicArgs s)
  end.

(* ===================================================================== *)
(** ** Structural queries on types *)
(* ===================================================================== *)

(** Boolean equality of canonical types (pointer equality of uniqued types). *)
Definition NominalKind_eqb (a b : NominalKind) : bool :=
  match a, b with
  | Enum, Enum | Struct, Struct | Class, Class => true
  | _, _ => false
  end.

Definition Qual_eqb (a b : Qual) : bool :=
  Bool.eqb (isImplicit a) (isImplicit b) && Bool.eqb (isNonSettable a) (isNonSettable b).

(** The order on qualifier sets is strict inclusion of their bits. *)
Definition Qual_ltb (a b : Qual) : bool :=
  implb (isImplicit a) (isImplicit b) && implb (isNonSettable a) (isNonSettable b)
  && negb (Qual_eqb a b).

Definition DefaultArgumentKind_eqb (a b : DefaultArgumentKind) : bool :=
  match a, b with
  | DAK_None, DAK_None | DAK_Normal, DAK_Normal => true
  | _, _ => false
  end.

Fixpoint Ty_eqb (a b : Ty) {struct a} : bool :=
  match a, b with
  | TBuiltin k i, TBuiltin k' j => Nat.eqb k k' && Nat.eqb i j
  | TModule i, TModule j => Nat.eqb i j
  | TError, TError => true
  | TGenericTypeParam d i, TGenericTypeParam d' i' => Nat.eqb d d' && Nat.eqb i i'
  | TDependentMember t m, TDependentMember t' m' => Ty_eqb t t' && Nat.eqb m m'
  | TTypeVariable i, TTypeVariable j => Nat.eqb i j
  | TArchetype i, TArchetype j => Nat.eqb i j
  | TTuple fs, TTuple gs =>
      (fix go (l : list TupleTypeElt) (r : list TupleTypeElt) {struct l} : bool :=
         match l, r with
         | [], [] => true
         | x :: l', y :: r' => Elt_eqb x y && go l' r'
         | _, _ => false
         end) fs gs
  | TNominal k d p, TNominal k' d' p' =>
      NominalKind_eqb k k' && Nat.eqb d d' &&
      match p, p' with
      | None, None => true
      | Some x, Some y => Ty_eqb x y
      | _, _ => false
      end
  | TProtocol d, TProtocol d' => Nat.eqb d d'
  | TMetaType t, TMetaType t' => Ty_eqb t t'
  | TFunction i r ac nr, TFunction i' r' ac' nr' =>
      Ty_eqb i i' && Ty_eqb r r' && Bool.eqb ac ac' && Bool.eqb nr nr'
  | TPolymorphicFunction i r, TPolymorphicFunction i' r' => Ty_eqb i i' && Ty_eqb r r'
  | TGenericFunction i r, TGenericFunction i' r' => Ty_eqb i i' && Ty_eqb r r'
  | TArray t n, TArray t' n' => Ty_eqb t t' && Nat.eqb n n'
  | TProtocolComposition ps, TProtocolComposition qs =>
      (fix go (l : list Ty) (r : list Ty) {struct l} : bool :=
         match l, r with
         | [], [] => true
         | x :: l', y :: r' => Ty_eqb x y && go l' r'
         | _, _ => false
         end) ps qs
  | TLValue t q, TLValue t' q' => Ty_eqb t t' && Qual_eqb q q'
  | TUnboundGeneric d p, TUnboundGeneric d' p' =>
      Nat.eqb d d' &&
      match p, p' with
      | None, None => true
      | Some x, Some y => Ty_eqb x y
      | _, _ => false
      end
  | TBoundGeneric k d p xs, TBoundGeneric k' d' p' ys =>
      NominalKind_eqb k k' && Nat.eqb d d' &&
      match p, p' with
      | None, None => true
      | Some x, Some y => Ty_eqb x y
      | _, _ => false
      end &&
      (fix go (l : list Ty) (r : list Ty) {struct l} : bool :=
         match l, r with
         | [], [] => true
         | x :: l', y :: r' => Ty_eqb x y && go l' r'
         | _, _ => false
         end) xs ys
  | _, _ => false
  end
with Elt_eqb (a b : TupleTypeElt) {struct a} : bool :=
  match a, b with
  | mkElt n t v i, mkElt n' t' v' i' =>
      String.eqb n n' && Ty_eqb t t' && Bool.eqb v v' && DefaultArgumentKind_eqb i i'
  end.

(** [TypeKind], the discriminator of [TypeBase::getKind]. *)
Inductive TypeKind :=
| KBuiltin (builtinKind : nat) | KModule | KError | KGenericTypeParam | KDependentMember
| KTypeVariable | KArchetype | KTuple | KEnum | KStruct | KClass | KProtocol
| KMetaType | KFunction | KPolymorphicFunction | KGenericFunction | KArray
| KProtocolComposition | KLValue | KUnboundGeneric
| KBoundGenericClass | KBoundGenericEnum | KBoundGenericStruct.

Definition getKind (t : Ty) : TypeKind :=
  match t with
  | TBuiltin k _ => KBuiltin k
  | TModule _ => KModule
  | TError => KError
  | TGenericTypeParam _ _ => KGenericTypeParam
  | TDependentMember _ _ => KDependentMember
  | TTypeVariable _ => KTypeVariable
  | TArchetype _ => KArchetype
  | TTuple _ => KTuple
  | TNominal Enum _ _ => KEnum
  | TNominal Struct _ _ => KStruct
  | TNominal Class _ _ => KClass
  | TProtocol _ => KProtocol
  | TMetaType _ => KMetaType
  | TFunction _ _ _ _ => KFunction
  | TPolymorphicFunction _ _ => KPolymorphicFunction
  | TGenericFunction _ _ => KGenericFunction
  | TArray _ _ => KArray
  | TProtocolComposition _ => KProtocolComposition
  | TLValue _ _ => KLValue
  | TUnboundGeneric _ _ => KUnboundGeneric
  | TBoundGeneric Class _ _ _ => KBoundGenericClass
  | TBoundGeneric Enum _ _ _ => KBoundGenericEnum
  | TBoundGeneric Struct _ _ _ => KBoundGenericStruct
  end.

Definition TypeKind_eqb (a b : TypeKind) : bool :=
  match a, b with
  | KBuiltin i, KBuiltin j => Nat.eqb i j
  | KModule, KModule | KError, KError | KGenericTypeParam, KGenericTypeParam
  | KDependentMember, KDependentMember | KTypeVariable, KTypeVariable
  | KArchetype, KArchetype | KTuple, KTuple | KEnum, KEnum | KStruct, KStruct
  | KClass, KClass | KProtocol, KProtocol | KMetaType, KMetaType
  | KFunction, KFunction | KPolymorphicFunction, KPolymorphicFunction
  | KGenericFunction, KGenericFunction | KArray, KArray
  | KProtocolComposition, KProtocolComposition | KLValue, KLValue
  | KUnboundGeneric, KUnboundGeneric | KBoundGenericClass, KBoundGenericClass
  | KBoundGenericEnum, KBoundGenericEnum
  | KBoundGenericStruct, KBoundGenericStruct => true
  | _, _ => false
  end.

(** [TypeBase::getRValueType]: strips one level of lvalue-ness. *)
Definition getRValueType (t : Ty) : Ty :=
  match t with
  | TLValue object _ => object
  | _ => t
  end.

(** [TypeBase::getClassOrBoundGenericClass]. *)
Definition getClassOrBoundGenericClass (t : Ty) : option DeclId :=
  match t with
  | TNominal Class d _ => Some d
  | TBoundGeneric Class d _ _ => Some d
  | _ => None
  end.

(** [TypeBase::getNominalOrBoundGenericNominal]. *)
Definition getNominalOrBoundGenericNominal (t : Ty) : option DeclId :=
  match t with
  | TNominal _ d _ => Some d
  | TProtocol d => Some d
  | TBoundGeneric _ d _ _ => Some d
  | _ => None
  end.

(** [TypeBase::isExistentialType(protocols)]: [None] when the type is not
    existential, otherwise the protocols it is composed of. *)
Fixpoint existentialProtocols (t : Ty) : option (list DeclId) :=
  match t with
  | TProtocol d => Some [d]
  | TProtocolComposition ps =>
      (fix go (l : list Ty) : option (list DeclId) :=
         match l with
         | [] => Some []
         | p :: l' =>
             match existentialProtocols p, go l' with
             | Some a, Some b => Some (a ++ b)
             | _, _ => None
             end
         end) ps
  | _ => None
  end.

Definition isExistentialType (t : Ty) : bool :=
  match existentialProtocols t with Some _ => true | None => false end.

(** [TupleType::getNamedElementId]: the index of the first field with the
    name, or -1. *)
Fixpoint getNamedElementIdFrom (name : Identifier) (fields : list TupleTypeElt) (i : nat) : Z :=
  match fields with
  | [] => (-1)%Z
  | f :: rest =>
      if String.eqb (getName f) name then Z.of_nat i
      else getNamedElementIdFrom name rest (S i)
  end.

Definition getNamedElementId (fields : list TupleTypeElt) (name : Identifier) : Z :=
  getNamedElementIdFrom name fields 0.

(* ===================================================================== *)
(** ** Match kinds, constraints, locators *)
(* ===================================================================== *)

Module TypeMatchKind.
Inductive t := BindType | SameType | TrivialSubtype | Subtype | Conversion.

(** The enumerators in declaration order: the total order of increasing
    permissiveness that [<] and [>=] compare. *)
Definition rank (k : t) : nat :=
  match k with
  | BindType => 0 | SameType => 1 | TrivialSubtype => 2 | Subtype => 3 | Conversion => 4
  end.
Definition ltb (a b : t) : bool := Nat.ltb (rank a) (rank b).
Definition geb (a b : t) : bool := Nat.leb (rank b) (rank a).
Definition eqb (a b : t) : bool := Nat.eqb (rank a) (rank b).
Definition min (a b : t) : t := if ltb b a then b else a.
End TypeMatchKind.

Module ConstraintKind.
Inductive t :=
| Bind | Equal | TrivialSubtype | Subtype | Conversion | Construction
| ConformsTo | SelfObjectOfProtocol | CheckedCast | ApplicableFunction
| BindOverload | ValueMember | TypeMember | Archetype | Class
| DynamicLookupValue | Conjunction | Disjunction.
End ConstraintKind.

Module ConversionRestrictionKind.
Inductive t :=
| TupleToTuple | ScalarToTuple | TupleToScalar | DeepEquality | Superclass
| LValueToRValue | Existential | ValueToOptional | OptionalToOptional | User.
End ConversionRestrictionKind.

Module OverloadChoiceKind.
Inductive t := Decl | DeclViaDynamic | TypeDecl | BaseType | TupleIndex.
Definition eqb (a b : t) : bool :=
  match a, b with
  | Decl, Decl | DeclViaDynamic, DeclViaDynamic | TypeDecl, TypeDecl
  | BaseType, BaseType | TupleIndex, TupleIndex => true
  | _, _ => false
  end.
End OverloadChoiceKind.

(** An overload choice: the base type it was resolved against, its kind and,
    depending on the kind, a declaration or a tuple index. *)
Record OverloadChoice := mkChoice {
  choiceBase : option Ty;
  choiceKind : OverloadChoiceKind.t;
  choiceDecl : option DeclId;
  choiceTupleIndex : nat;
  choiceIsSpecialized : bool
}.

Module ConstraintLocator.
Inductive PathElementKind :=
| ApplyArgument | ApplyFunction | ArchetypeElt (archetype : nat) | ArrayElementType
| ConstructorMember | ConversionMember | ConversionResult | FunctionArgument
| FunctionResult | GenericArgument (i : nat) | InstanceType | Load
| NamedTupleElement (i : nat) | ParentType | ScalarToTuple | TupleElement (i : nat).
End ConstraintLocator.

(** A locator: the anchor expression, if any, and the path from it.  The
    interner of the constraint system maps equal pairs to one object, so a
    pair stands for its interned locator. *)
Record Locator := mkLocator {
  anchor : option nat;
  path : list ConstraintLocator.PathElementKind
}.

(** [ConstraintLocatorBuilder]: a base locator, possibly null, and the path
    elements added on top of it. *)
Record ConstraintLocatorBuilder := mkBuilder {
  baseLocator : option Locator;
  addedPath : list ConstraintLocator.PathElementKind
}.

Definition withPathElement (b : ConstraintLocatorBuilder)
    (e : ConstraintLocator.PathElementKind) : ConstraintLocatorBuilder :=
  mkBuilder (baseLocator b) (addedPath b ++ [e]).

(** The implicit conversion of a locator to a builder. *)
Definition builderOf (l : option Locator) : ConstraintLocatorBuilder := mkBuilder l [].

(** [ConstraintSystem::getConstraintLocator(builder)] *)
Definition getConstraintLocator (builder : ConstraintLocatorBuilder) : option Locator :=
  match addedPath builder with
  | [] => baseLocator builder
  | _ =>
      match baseLocator builder with
      | Some l =>
          match anchor l with
          | Some a => Some (mkLocator (Some a) (path l ++ addedPath builder))
          | None => None
          end
      | None => None
      end
  end.

Inductive Constraint :=
| mkConstraint (kind : ConstraintKind.t)
    (restriction : option ConversionRestrictionKind.t)
    (first : Ty) (second : option Ty) (member : Identifier) (locator : option Locator)
| mkBindOverload (type : Ty) (choice : OverloadChoice) (locator : option Locator)
| createConjunction (nested : list Constraint) (locator : option Locator)
| createDisjunction (nested : list Constraint) (locator : option Locator).

Definition Constraint_getKind (c : Constraint) : ConstraintKind.t :=
  match c with
  | mkConstraint k _ _ _ _ _ => k
  | mkBindOverload _ _ _ => ConstraintKind.BindOverload
  | createConjunction _ _ => ConstraintKind.Conjunction
  | createDisjunction _ _ => ConstraintKind.Disjunction
  end.

Definition Constraint_getRestriction (c : Constraint) : option ConversionRestrictionKind.t :=
  match c with
  | mkConstraint _ r _ _ _ _ => r
  | _ => None
  end.

Definition Constraint_getLocator (c : Constraint) : option Locator :=
  match c with
  | mkConstraint _ _ _ _ _ l => l
  | mkBindOverload _ _ l => l
  | createConjunction _ l => l
  | createDisjunction _ l => l
  end.

Inductive SolutionKind := Error | Solved | Unsolved.

Definition SolutionKind_eqb (a b : SolutionKind) : bool :=
  match a, b with
  | Error, Error | Solved, Solved | Unsolved, Unsolved => true
  | _, _ => false
  end.

Module Failure.
Inductive FailureKind :=
| TupleSizeMismatch | TupleNameMismatch | TupleNamePositionMismatch
| TupleVariadicMismatch | FunctionAutoclosureMismatch | FunctionNoReturnMismatch
| FunctionTypesMismatch | LValueQualifiers | IsForbiddenLValue
| TypesNotEqual | TypesNotTrivialSubtypes | TypesNotSubtypes | TypesNotConvertible
| TypesNotConstructible | DoesNotConformToProtocol | DoesNotHaveMember
| IsNotArchetype | IsNotClass.
End Failure.

(** A recorded failure: where, what, and the operands (a second type or a
    member name, depending on the kind). *)
Record FailureRecord := mkFailure {
  failLocator : option Locator;
  failKind : Failure.FailureKind;
  failFirst : Ty;
  failSecond : option Ty;
  failName : Identifier
}.

(* ===================================================================== *)
(** ** The constraint system state *)
(* ===================================================================== *)

(** [TypeVariableType::Implementation::ParentOrFixed]: either the parent in
    the union-find forest (a root is its own parent) or the fixed type. *)
Inductive ParentOrFixedT :=
| Parent (typeVar : nat)
| Fixed (type : Ty).

Record TypeVariableImpl := mkTypeVar {
  tvLocator : option Locator;
  canBindToLValue : bool;
  prefersSubtypeBinding : bool;
  ParentOrFixed : ParentOrFixedT
}.

(** [SavedTypeVariableBinding]: a type variable and the binding it had. *)
Record SavedTypeVariableBinding := mkSaved {
  savedTypeVar : nat;
  savedParentOrFixed : ParentOrFixedT
}.

Record ResolvedOverloadSetListItem := mkResolved {
  resolvedBoundType : Ty;
  resolvedChoice : OverloadChoice;
  resolvedLocator : option Locator;
  resolvedOpenedFullType : option Ty;
  resolvedRefType : Ty
}.

Record SolverState := mkSolverState {
  retiredConstraints : list Constraint;
  generatedConstraints : option (list Constraint);
  constraintRestrictions : list (Ty * Ty * ConversionRestrictionKind.t);
  savedBindings : list SavedTypeVariableBinding
}.

Record ConstraintSystem := mkCS {
  TypeVariables : list TypeVariableImpl;
  Constraints : list Constraint;
  failedConstraint : option Constraint;
  solverState : option SolverState;
  resolvedOverloadSets : list ResolvedOverloadSetListItem;
  (** whether failure recording is enabled for this attempt *)
  recordFailures : bool;
  failures : list FailureRecord
}.

(** Results of a run: a value, an assertion failure or unreachable code
    ([Abort]), or an exhausted recursion budget ([Timeout]). *)
Inductive Res (A : Type) :=
| Done (a : A)
| Abort
| Timeout.
Arguments Done {A} a.
Arguments Abort {A}.
Arguments Timeout {A}.

Definition M (A : Type) : Type := ConstraintSystem -> Res (A * ConstraintSystem).

Definition ret {A} (a : A) : M A := fun cs => Done (a, cs).
Definition bind {A B} (m : M A) (f : A -> M B) : M B :=
  fun cs => match m cs with
            | Done (a, cs') => f a cs'
            | Abort => Abort
            | Timeout => Timeout
            end.
Definition abort {A} : M A := fun _ => Abort.
Definition timeout {A} : M A := fun _ => Timeout.
Definition get : M ConstraintSystem := fun cs => Done (cs, cs).
Definition modify (f : ConstraintSystem -> ConstraintSystem) : M unit :=
  fun cs => Done (tt, f cs).
Definition liftRes {A} (r : ConstraintSystem -> Res A) : M A :=
  fun cs => match r cs with
            | Done a => Done (a, cs)
            | Abort => Abort
            | Timeout => Timeout
            end.
(** [assert(b)] *)
Definition assert (b : bool) : M unit := if b then ret tt else abort.

Declare Scope cs_scope.
Delimit Scope cs_scope with cs.
Notation "x <- m ;; k" := (bind m (fun x => k))
  (at level 100, m at next level, right associativity) : cs_scope.
Notation "m ;;; k" := (bind m (fun _ => k))
  (at level 100, right associativity) : cs_scope.
Open Scope cs_scope.

(** Control flow of a function body with early [return]s. *)
Inductive Flow (R A : Type) :=
| Return (r : R)
| Continue (a : A).
Arguments Return {R A} r.
Arguments Continue {R A} a.

(** *** The type-variable store *)

(** Modelled from the spec: the type-variable store lives in
    ConstraintSystem.h, which is not part of the sources at hand.  A fresh
    variable represents itself and has no fixed type. *)
Definition createTypeVariable (locator : option Locator)
    (canBindToLValue prefersSubtypeBinding : bool) : M Ty :=
  fun cs =>
    let id := length (TypeVariables cs) in
    Done (TTypeVariable id,
          mkCS (TypeVariables cs ++ [mkTypeVar locator canBindToLValue prefersSubtypeBinding (Parent id)])
               (Constraints cs) (failedConstraint cs) (solverState cs)
               (resolvedOverloadSets cs) (recordFailures cs) (failures cs)).

Fixpoint representativeLoop (tvs : list TypeVariableImpl) (k : nat) (result : nat) : Res nat :=
  match tvs !! result with
  | None => Abort
  | Some impl =>
      match ParentOrFixed impl with
      | Fixed _ => Done result
      | Parent p =>
          if Nat.eqb p result then Done result
          else match k with
               | 0 => Timeout
               | S k' => representativeLoop tvs k' p
               end
      end
  end.

(** Modelled from the spec: [representative(v)] returns the canonical member
    of v's equivalence class; representative chains are acyclic, so a walk
    longer than the number of variables never ends. *)
Definition getRepresentative (typeVar : nat) (cs : ConstraintSystem) : Res nat :=
  representativeLoop (TypeVariables cs) (length (TypeVariables cs)) typeVar.

(** Modelled from the spec: the fixed type, if any, is the one recorded on
    the representative. *)
Definition getFixedType (typeVar : nat) (cs : ConstraintSystem) : Res (option Ty) :=
  match getRepresentative typeVar cs with
  | Done rep =>
      match TypeVariables cs !! rep with
      | Some impl =>
          match ParentOrFixed impl with
          | Fixed t => Done (Some t)
          | Parent _ => Done None
          end
      | None => Abort
      end
  | Abort => Abort
  | Timeout => Timeout
  end.

Definition setParentOrFixed (typeVar : nat) (v : ParentOrFixedT) (cs : ConstraintSystem)
    : ConstraintSystem :=
  let old := default (Parent typeVar) (ParentOrFixed <$> TypeVariables cs !! typeVar) in
  mkCS (alter (fun impl => mkTypeVar (tvLocator impl) (canBindToLValue impl)
                             (prefersSubtypeBinding impl) v) typeVar (TypeVariables cs))
       (Constraints cs) (failedConstraint cs)
       ((fun ss => mkSolverState (retiredConstraints ss) (generatedConstraints ss)
                     (constraintRestrictions ss)
                     (mkSaved typeVar old :: savedBindings ss)) <$> solverState cs)
       (resolvedOverloadSets cs) (recordFailures cs) (failures cs).

(** Modelled from the spec: [merge(a, b)] makes one representative the
    parent of the other and logs the old binding for undo. *)
Definition mergeEquivalenceClasses (rep1 rep2 : nat) : M unit :=
  modify (setParentOrFixed rep2 (Parent rep1)).

(** Modelled from the spec: [assignFixedType(v, type)] records the type on
    v's representative; it is illegal on a variable that has one already. *)
Definition assignFixedType (typeVar : nat) (type : Ty) : M unit :=
  fixed <- liftRes (getFixedType typeVar) ;;
  match fixed with
  | Some _ => abort
  | None =>
      rep <- liftRes (getRepresentative typeVar) ;;
      modify (setParentOrFixed rep (Fixed type))
  end.

Definition tvCanBindToLValue (typeVar : nat) (cs : ConstraintSystem) : Res bool :=
  match TypeVariables cs !! typeVar with
  | Some impl => Done (canBindToLValue impl)
  | None => Abort
  end.

(** Modelled from the spec: a failure record is appended when failure
    recording is enabled for this attempt. *)
Definition shouldRecordFailures : M bool :=
  fun cs => Done (recordFailures cs, cs).

Definition recordFailure (locator : option Locator) (kind : Failure.FailureKind)
    (first : Ty) (second : option Ty) (name : Identifier) : M unit :=
  modify (fun cs =>
    if recordFailures cs
    then mkCS (TypeVariables cs) (Constraints cs) (failedConstraint cs) (solverState cs)
              (resolvedOverloadSets cs) (recordFailures cs)
              (failures cs ++ [mkFailure locator kind first second name])
    else cs).

(** [getFixedTypeRecursiveHelper]: follows fixed types through type
    variables; [k] bounds the walk by the number of variables. *)
Fixpoint getFixedTypeRecursiveHelper (k : nat) (typeVar : nat) (wantRValue : bool)
    (cs : ConstraintSystem) : Res (option Ty) :=
  match getFixedType typeVar cs with
  | Done None => Done None
  | Done (Some fixed) =>
      let fixed := if wantRValue then getRValueType fixed else fixed in
      match fixed with
      | TTypeVariable typeVar' =>
          match k with
          | 0 => Timeout
          | S k' => getFixedTypeRecursiveHelper k' typeVar' wantRValue cs
          end
      | _ => Done (Some fixed)
      end
  | Abort => Abort
  | Timeout => Timeout
  end.

(** [getFixedTypeRecursive]: the resolved type and, when the type is still
    a type variable without a fixed type, that variable. *)
Definition getFixedTypeRecursive (type : Ty) (wantRValue : bool)
    : M (Ty * option nat) :=
  let type := if wantRValue then getRValueType type else type in
  match type with
  | TTypeVariable typeVar =>
      fixed <- liftRes (fun cs =>
                 getFixedTypeRecursiveHelper (length (TypeVariables cs)) typeVar wantRValue cs) ;;
      match fixed with
      | Some fixed => ret (fixed, None)
      | None => ret (type, Some typeVar)
      end
  | _ => ret (type, None)
  end.

(* ===================================================================== *)
(** ** The environment of the solver *)
(* ===================================================================== *)

(** The oracles the solver consumes: the type checker's name lookup and
    conformance checking, declaration metadata, properties of archetypes
    and protocols, and the few AST queries whose definitions are not part
    of this file. *)
Record TypeChecker := mkTC {
  getSuperClassOf : Ty -> option Ty;
  conformsToProtocol : Ty -> DeclId -> bool;
  inheritsFrom : DeclId -> DeclId -> bool;
  TC_lookupMember : Ty -> Identifier -> list DeclId;
  lookupConstructors : Ty -> list DeclId;
  lookupMemberType : Ty -> Identifier -> list (DeclId * Ty);
  getOptionalDecl : DeclId;
  getFieldForScalarInit : list TupleTypeElt -> Z;
  getVarargBaseTy : TupleTypeElt -> Ty;
  archetypeMayHaveSuperclass : nat -> bool;
  archetypeRequiresClass : nat -> bool;
  archetypeSuperclass : nat -> option Ty;
  archetypeIsNestedOrSelf : nat -> bool;
  protocolRequiresClass : DeclId -> bool;
  isDynamicLookupProtocol : DeclId -> bool;
  dynamicResultSignature : DeclId -> string * Ty;
  hasMandatoryTupleLabels : ConstraintLocatorBuilder -> bool;
  declType : DeclId -> Ty;
  declIsInvalid : DeclId -> bool;
  declIsInstanceMember : DeclId -> bool;
  declIsFunc : DeclId -> bool;
  declIsConstructor : DeclId -> bool;
  declIsSubscript : DeclId -> bool;
  declIsOptional : DeclId -> bool;
  declIsAssignment : DeclId -> bool;
  declIsTypeDecl : DeclId -> bool;
  declIsAbstractFunction : DeclId -> bool;
  declHasClangNode : DeclId -> bool;
  declIsInTypeContext : DeclId -> bool;
  getUnlabeledType : Ty -> Ty;
  (** the three nested solves of the ranker *)
  isDeclAsSpecializedAs : DeclId -> DeclId -> bool;
  isSubtypeOf : Ty -> Ty -> bool;
  isConvertibleTo : Ty -> Ty -> bool;
  getTypeOfMemberReference : Ty -> DeclId -> bool -> bool -> M (Ty * Ty);
  getTypeOfReference : DeclId -> bool -> bool -> M (Ty * Ty)
}.

(** Type-match flags, a bit mask. *)
Definition TMF_None : N := 0%N.
Definition TMF_GenerateConstraints : N := 1%N.
Definition hasFlag (flags flag : N) : bool := negb (N.eqb (N.land flags flag) 0%N).

(** [getRelationalFailureKind] *)
Definition getRelationalFailureKind (kind : TypeMatchKind.t) : Failure.FailureKind :=
  match kind with
  | TypeMatchKind.BindType | TypeMatchKind.SameType => Failure.TypesNotEqual
  | TypeMatchKind.TrivialSubtype => Failure.TypesNotTrivialSubtypes
  | TypeMatchKind.Subtype => Failure.TypesNotSubtypes
  | TypeMatchKind.Conversion => Failure.TypesNotConvertible
  end.

(** [getConstraintKind] *)
Definition getConstraintKind (kind : TypeMatchKind.t) : ConstraintKind.t :=
  match kind with
  | TypeMatchKind.BindType => ConstraintKind.Bind
  | TypeMatchKind.SameType => ConstraintKind.Equal
  | TypeMatchKind.TrivialSubtype => ConstraintKind.TrivialSubtype
  | TypeMatchKind.Subtype => ConstraintKind.Subtype
  | TypeMatchKind.Conversion => ConstraintKind.Conversion
  end.

(** [getTypeMatchKind]; the other constraint kinds are unreachable. *)
Definition getTypeMatchKind (kind : ConstraintKind.t) : option TypeMatchKind.t :=
  match kind with
  | ConstraintKind.Bind => Some TypeMatchKind.BindType
  | ConstraintKind.Equal => Some TypeMatchKind.SameType
  | ConstraintKind.TrivialSubtype => Some TypeMatchKind.TrivialSubtype
  | ConstraintKind.Subtype => Some TypeMatchKind.Subtype
  | ConstraintKind.Conversion => Some TypeMatchKind.Conversion
  | _ => None
  end.

Definition option_nat_eqb (a b : option nat) : bool :=
  match a, b with
  | Some x, Some y => Nat.eqb x y
  | None, None => true
  | _, _ => false
  end.

Definition isSome {A} (o : option A) : bool :=
  match o with Some _ => true | None => false end.

Definition emptyTuple : Ty := TTuple [].

(* ===================================================================== *)
(** ** The type matcher *)
(* ===================================================================== *)

Record Recursion := mkRec {
  recFuel : nat;
  recMatchTypes :
    Ty -> Ty -> TypeMatchKind.t -> N -> ConstraintLocatorBuilder -> M SolutionKind;
  recAddConstraint : Constraint -> M bool
}.

Section Solver.

Variable TC : TypeChecker.

(** [TypeBase::mayHaveSuperclass] *)
Definition mayHaveSuperclass (t : Ty) : bool :=
  match getClassOrBoundGenericClass t with
  | Some _ => true
  | None =>
      match t with
      | TArchetype a => archetypeMayHaveSuperclass TC a
      | _ => false
      end
  end.

(** [TypeBase::isClassExistentialType] *)
Definition isClassExistentialType (t : Ty) : bool :=
  match existentialProtocols t with
  | Some protocols => existsb (protocolRequiresClass TC) protocols
  | None => false
  end.

(** [OptionalType::get] *)
Definition OptionalType_get (t : Ty) : Ty :=
  TBoundGeneric Enum (getOptionalDecl TC) None [t].

Definition sameSignature (a b : string * Ty) : bool :=
  String.eqb (fst a) (fst b) && Ty_eqb (snd a) (snd b).

(** The filter of the dynamic lookup: a declaration is kept when its
    (selector, result type) signature has not been seen before. *)
Fixpoint filterRedundant (known : list (string * Ty)) (decls : list DeclId) : list DeclId :=
  match decls with
  | [] => []
  | decl :: rest =>
      let sig := dynamicResultSignature TC decl in
      if existsb (sameSignature sig) known
      then filterRedundant known rest
      else decl :: filterRedundant (sig :: known) rest
  end.

(** [ConstraintSystem::lookupMember].  The oracle is a pure function, so
    the memoization table [MemberLookups] is left out. *)
Definition lookupMember (base : Ty) (name : Identifier) : list DeclId :=
  let result := TC_lookupMember TC base name in
  let instanceTy := getRValueType base in
  let instanceTy := match instanceTy with TMetaType i => i | _ => instanceTy end in
  match result, instanceTy with
  | _ :: _, TProtocol protoTy =>
      if isDynamicLookupProtocol TC protoTy then filterRedundant [] result else result
  | _, _ => result
  end.

(** [shouldTryUserConversion] *)
Definition shouldTryUserConversion (type : Ty) : bool :=
  if negb (isSome (getNominalOrBoundGenericNominal type))
     && negb (match type with TArchetype _ => true | _ => false end)
  then false
  else match lookupMember type "__conversion" with [] => false | _ => true end.

Section Body.

(** One level of the recursion sees the next one through this record: the
    recursion budget left, which also bounds the walks that follow an oracle
    (the superclass chain), the matcher, and [addConstraint] with its
    default arguments. *)
Variable rec : Recursion.
Local Abbreviation fuel := (recFuel rec).
Local Abbreviation matchTypes := (recMatchTypes rec).
Local Abbreviation addConstraint := (recAddConstraint rec).

(** [if (shouldRecordFailures()) recordFailure(...)] *)
Definition recordIfEnabled (locator : option Locator) (kind : Failure.FailureKind)
    (first second : Ty) : M unit :=
  b <- shouldRecordFailures ;;
  if b then recordFailure locator kind first (Some second) "" else ret tt.

(** [addConstraint(kind, first, second, locator)]: the result of the
    underlying [addConstraint] is dropped. *)
Definition addRelationalConstraint (kind : ConstraintKind.t) (first second : Ty)
    (locator : option Locator) : M unit :=
  _ <- addConstraint (mkConstraint kind None first (Some second) "" locator) ;;
  ret tt.

Definition addValueMemberConstraint (baseTy : Ty) (name : Identifier) (memberTy : Ty)
    (locator : option Locator) : M unit :=
  _ <- addConstraint (mkConstraint ConstraintKind.ValueMember None baseTy (Some memberTy)
                        name locator) ;;
  ret tt.

Definition addBindOverloadConstraint (boundType : Ty) (choice : OverloadChoice)
    (locator : option Locator) : M unit :=
  _ <- addConstraint (mkBindOverload boundType choice locator) ;;
  ret tt.

(** [ConstraintSystem::addOverloadSet] *)
Definition addOverloadSet (boundType : Ty) (choices : list OverloadChoice)
    (locator : option Locator) : M unit :=
  assert (negb (Nat.eqb (length choices) 0)) ;;;
  (_ <- addConstraint
         (createDisjunction (map (fun choice => mkBindOverload boundType choice locator) choices)
            locator) ;;
   ret tt).

(** [ConstraintSystem::simplifyConformsToConstraint] *)
Definition simplifyConformsToConstraint (type : Ty) (protocol : DeclId)
    (locator : ConstraintLocatorBuilder) (allowNonConformingExistential : bool)
    : M SolutionKind :=
  r <- getFixedTypeRecursive type true ;;
  let '(type, typeVar) := r in
  if isSome typeVar then ret Unsolved
  else
    let found :=
      if allowNonConformingExistential && isExistentialType type
      then existsb (fun ap => Nat.eqb ap protocol || inheritsFrom TC ap protocol)
             (default [] (existentialProtocols type))
      else conformsToProtocol TC type protocol in
    if found then ret Solved
    else
      recordFailure (getConstraintLocator locator) Failure.DoesNotConformToProtocol
        type (Some (TProtocol protocol)) "" ;;;
      ret Error.

(** The strict element loop of [matchTupleTypes] (kinds below
    [Conversion]); [tuple1] and [tuple2] are the whole tuples, [l1] and [l2]
    the fields from index [i] on. *)
Fixpoint matchTupleElements (tuple1 tuple2 : list TupleTypeElt) (kind : TypeMatchKind.t)
    (subFlags : N) (locator : ConstraintLocatorBuilder)
    (l1 l2 : list TupleTypeElt) (i : nat) : M SolutionKind :=
  match l1, l2 with
  | elt1 :: r1, elt2 :: r2 =>
      names <-
        (if negb (String.eqb (getName elt1) (getName elt2)) then
           if TypeMatchKind.eqb kind TypeMatchKind.SameType then
             recordIfEnabled
               (getConstraintLocator
                  (withPathElement locator (ConstraintLocator.NamedTupleElement i)))
               Failure.TupleNameMismatch (TTuple tuple1) (TTuple tuple2) ;;;
             ret (Return Error)
           else if negb (String.eqb (getName elt2) EmptyString)
                   && negb (Z.eqb (getNamedElementId tuple1 (getName elt2)) (-1)) then
             recordIfEnabled
               (getConstraintLocator
                  (withPathElement locator (ConstraintLocator.NamedTupleElement i)))
               Failure.TupleNamePositionMismatch (TTuple tuple1) (TTuple tuple2) ;;;
             ret (Return Error)
           else ret (Continue tt)
         else ret (Continue tt)) ;;
      match names with
      | Return r => ret r
      | Continue _ =>
          if negb (Bool.eqb (isVararg elt1) (isVararg elt2)) then
            recordIfEnabled
              (getConstraintLocator
                 (withPathElement locator (ConstraintLocator.NamedTupleElement i)))
              Failure.TupleVariadicMismatch (TTuple tuple1) (TTuple tuple2) ;;;
            ret Error
          else
            r <- matchTypes (getType elt1) (getType elt2) kind subFlags
                   (withPathElement locator (ConstraintLocator.TupleElement i)) ;;
            match r with
            | Error => ret Error
            | Solved | Unsolved =>
                matchTupleElements tuple1 tuple2 kind subFlags locator r1 r2 (S i)
            end
      end
  | _, _ => ret Solved
  end.

(** The element loop of a tuple conversion along a computed shuffle; the
    result carries [hasVarArg]. *)
Fixpoint matchShuffledElements (tuple1 tuple2 : list TupleTypeElt) (subFlags : N)
    (locator : ConstraintLocatorBuilder) (srcs : list Z) (idx2 : nat) (hasVarArg : bool)
    : M (Flow SolutionKind bool) :=
  match srcs with
  | [] => ret (Continue hasVarArg)
  | src :: rest =>
      if Z.eqb src TupleShuffleExpr.DefaultInitialize then
        matchShuffledElements tuple1 tuple2 subFlags locator rest (S idx2) hasVarArg
      else if Z.eqb src TupleShuffleExpr.FirstVariadic then
        matchShuffledElements tuple1 tuple2 subFlags locator rest (S idx2) true
      else
        assert (Z.leb 0 src) ;;;
        let idx1 := Z.to_nat src in
        match tuple1 !! idx1, tuple2 !! idx2 with
        | Some elt1, Some elt2 =>
            r <- matchTypes (getType elt1) (getType elt2) TypeMatchKind.Conversion subFlags
                   (withPathElement locator (ConstraintLocator.TupleElement idx1)) ;;
            match r with
            | Error => ret (Return Error)
            | Solved | Unsolved =>
                matchShuffledElements tuple1 tuple2 subFlags locator rest (S idx2) hasVarArg
            end
        | _, _ => abort
        end
  end.

Fixpoint matchVariadicElements (tuple1 : list TupleTypeElt) (eltType2 : Ty) (subFlags : N)
    (locator : ConstraintLocatorBuilder) (variadicArguments : list nat) : M SolutionKind :=
  match variadicArguments with
  | [] => ret Solved
  | idx1 :: rest =>
      match tuple1 !! idx1 with
      | Some elt1 =>
          r <- matchTypes (getType elt1) eltType2 TypeMatchKind.Conversion subFlags
                 (withPathElement locator (ConstraintLocator.TupleElement idx1)) ;;
          match r with
          | Error => ret Error
          | Solved | Unsolved =>
              matchVariadicElements tuple1 eltType2 subFlags locator rest
          end
      | None => abort
      end
  end.

(** [ConstraintSystem::matchTupleTypes] *)
Definition matchTupleTypes (tuple1 tuple2 : list TupleTypeElt) (kind : TypeMatchKind.t)
    (flags : N) (locator : ConstraintLocatorBuilder) : M SolutionKind :=
  let subFlags := N.lor flags TMF_GenerateConstraints in
  if TypeMatchKind.ltb kind TypeMatchKind.Conversion then
    if negb (Nat.eqb (length tuple1) (length tuple2)) then
      recordIfEnabled (getConstraintLocator locator) Failure.TupleSizeMismatch
        (TTuple tuple1) (TTuple tuple2) ;;;
      ret Error
    else matchTupleElements tuple1 tuple2 kind subFlags locator tuple1 tuple2 0
  else
    assert (TypeMatchKind.eqb kind TypeMatchKind.Conversion) ;;;
    let '(failed, srcs, variadicArguments) :=
      computeTupleShuffle tuple1 tuple2 (hasMandatoryTupleLabels TC locator) in
    if failed then
      (b <- shouldRecordFailures ;;
       if b && negb (Nat.eqb (length tuple1) (length tuple2))
       then recordFailure (getConstraintLocator locator) Failure.TupleSizeMismatch
              (TTuple tuple1) (Some (TTuple tuple2)) ""
       else ret tt) ;;;
      ret Error
    else
      r <- matchShuffledElements tuple1 tuple2 subFlags locator srcs 0 false ;;
      match r with
      | Return k => ret k
      | Continue hasVarArg =>
          if hasVarArg then
            match last tuple2 with
            | Some elt2 =>
                matchVariadicElements tuple1 (getVarargBaseTy TC elt2) subFlags locator
                  variadicArguments
            | None => abort
            end
          else ret Solved
      end.

(** [ConstraintSystem::matchScalarToTupleTypes] *)
Definition matchScalarToTupleTypes (type1 : Ty) (tuple2 : list TupleTypeElt)
    (kind : TypeMatchKind.t) (flags : N) (locator : ConstraintLocatorBuilder)
    : M SolutionKind :=
  let scalarFieldIdx := getFieldForScalarInit TC tuple2 in
  assert (Z.leb 0 scalarFieldIdx) ;;;
  match tuple2 !! Z.to_nat scalarFieldIdx with
  | Some elt =>
      let scalarFieldTy := if isVararg elt then getVarargBaseTy TC elt else getType elt in
      matchTypes type1 scalarFieldTy kind flags
        (withPathElement locator ConstraintLocator.ScalarToTuple)
  | None => abort
  end.

(** [ConstraintSystem::matchTupleToScalarTypes] *)
Definition matchTupleToScalarTypes (tuple1 : list TupleTypeElt) (type2 : Ty)
    (kind : TypeMatchKind.t) (flags : N) (locator : ConstraintLocatorBuilder)
    : M SolutionKind :=
  match tuple1 with
  | [elt] =>
      assert (negb (isVararg elt)) ;;;
      matchTypes (getType elt) type2 kind flags
        (withPathElement locator (ConstraintLocator.TupleElement 0))
  | _ => abort
  end.

(** [ConstraintSystem::matchFunctionTypes] on the components of the two
    function types. *)
Definition matchFunctionTypes (input1 result1 : Ty) (autoClosure1 noReturn1 : bool)
    (input2 result2 : Ty) (autoClosure2 noReturn2 : bool)
    (kind : TypeMatchKind.t) (flags : N) (locator : ConstraintLocatorBuilder)
    : M SolutionKind :=
  let func1 := TFunction input1 result1 autoClosure1 noReturn1 in
  let func2 := TFunction input2 result2 autoClosure2 noReturn2 in
  if negb (Bool.eqb autoClosure1 autoClosure2)
     && (autoClosure2 || TypeMatchKind.ltb kind TypeMatchKind.TrivialSubtype) then
    recordIfEnabled (getConstraintLocator locator) Failure.FunctionAutoclosureMismatch
      func1 func2 ;;;
    ret Error
  else if negb (Bool.eqb noReturn1 noReturn2)
          && (noReturn2 || TypeMatchKind.ltb kind TypeMatchKind.SameType) then
    recordIfEnabled (getConstraintLocator locator) Failure.FunctionNoReturnMismatch
      func1 func2 ;;;
    ret Error
  else
    let subKind :=
      match kind with
      | TypeMatchKind.BindType | TypeMatchKind.SameType | TypeMatchKind.TrivialSubtype => kind
      | TypeMatchKind.Subtype => TypeMatchKind.TrivialSubtype
      | TypeMatchKind.Conversion => TypeMatchKind.Subtype
      end in
    let subFlags := N.lor flags TMF_GenerateConstraints in
    result <- matchTypes input2 input1 subKind subFlags
                (withPathElement locator ConstraintLocator.FunctionArgument) ;;
    match result with
    | Error => ret Error
    | _ =>
        r <- matchTypes result1 result2 subKind subFlags
               (withPathElement locator ConstraintLocator.FunctionResult) ;;
        match r with
        | Error => ret Error
        | Solved => ret Solved
        | Unsolved => ret Unsolved
        end
    end.

(** The walk up the superclass chain in [matchSuperclassTypes]. *)
Fixpoint superclassWalk (k : nat) (super1 : option Ty) (classDecl2 : option DeclId)
    : Res (option Ty) :=
  match super1 with
  | None => Done None
  | Some s =>
      if option_nat_eqb (getClassOrBoundGenericClass s) classDecl2
      then Done (Some s)
      else match k with
           | 0 => Timeout
           | S k' => superclassWalk k' (getSuperClassOf TC s) classDecl2
           end
  end.

(** [ConstraintSystem::matchSuperclassTypes] *)
Definition matchSuperclassTypes (type1 type2 : Ty) (kind : TypeMatchKind.t) (flags : N)
    (locator : ConstraintLocatorBuilder) : M SolutionKind :=
  let classDecl2 := getClassOrBoundGenericClass type2 in
  found <- liftRes (fun _ => superclassWalk fuel (getSuperClassOf TC type1) classDecl2) ;;
  match found with
  | Some super1 =>
      matchTypes super1 type2 TypeMatchKind.SameType TMF_GenerateConstraints locator
  | None =>
      recordIfEnabled (getConstraintLocator locator) (getRelationalFailureKind kind)
        type1 type2 ;;;
      ret Error
  end.

(** The generic-argument loop of [matchDeepEqualityTypes]. *)
Fixpoint matchGenericArguments (locator : ConstraintLocatorBuilder)
    (args1 args2 : list Ty) (i : nat) : M SolutionKind :=
  match args1, args2 with
  | a1 :: r1, a2 :: r2 =>
      r <- matchTypes a1 a2 TypeMatchKind.SameType TMF_GenerateConstraints
             (withPathElement locator (ConstraintLocator.GenericArgument i)) ;;
      match r with
      | Error => ret Error
      | Solved | Unsolved => matchGenericArguments locator r1 r2 (S i)
      end
  | _, _ => ret Solved
  end.

(** [getAs<NominalType>]: the parent of a nominal type that is not directly
    generic (protocol types are nominal too). *)
Definition asNominalType (t : Ty) : option (option Ty) :=
  match t with
  | TNominal _ _ parent => Some parent
  | TProtocol _ => Some None
  | _ => None
  end.

(** [ConstraintSystem::matchDeepEqualityTypes] *)
Definition matchDeepEqualityTypes (type1 type2 : Ty) (locator : ConstraintLocatorBuilder)
    : M SolutionKind :=
  match asNominalType type1 with
  | Some parent1 =>
      match asNominalType type2 with
      | None => abort
      | Some parent2 =>
          assert (Bool.eqb (isSome parent1) (isSome parent2)) ;;;
          match parent1, parent2 with
          | Some p1, Some p2 =>
              matchTypes p1 p2 TypeMatchKind.SameType TMF_GenerateConstraints
                (withPathElement locator ConstraintLocator.ParentType)
          | _, _ => ret Solved
          end
      end
  | None =>
      match type1, type2 with
      | TBoundGeneric _ _ parent1 args1, TBoundGeneric _ _ parent2 args2 =>
          assert (Bool.eqb (isSome parent1) (isSome parent2)) ;;;
          (parents <-
             match parent1, parent2 with
             | Some p1, Some p2 =>
                 matchTypes p1 p2 TypeMatchKind.SameType TMF_GenerateConstraints
                   (withPathElement locator ConstraintLocator.ParentType)
             | _, _ => ret Solved
             end ;;
           match parents with
           | Error => ret Error
           | Solved | Unsolved =>
               assert (Nat.eqb (length args1) (length args2)) ;;;
               matchGenericArguments locator args1 args2 0
           end)
      | _, _ => abort
      end
  end.

(** The protocol loop of [matchExistentialTypes]. *)
Fixpoint matchExistentialProtocols (type1 : Ty) (locator : ConstraintLocatorBuilder)
    (protocols : list DeclId) : M SolutionKind :=
  match protocols with
  | [] => ret Solved
  | proto :: rest =>
      r <- simplifyConformsToConstraint type1 proto locator false ;;
      match r with
      | Solved => matchExistentialProtocols type1 locator rest
      | Unsolved =>
          addRelationalConstraint ConstraintKind.ConformsTo type1 (TProtocol proto) None ;;;
          matchExistentialProtocols type1 locator rest
      | Error => ret Error
      end
  end.

(** [ConstraintSystem::matchExistentialTypes] *)
Definition matchExistentialTypes (type1 type2 : Ty) (kind : TypeMatchKind.t) (flags : N)
    (locator : ConstraintLocatorBuilder) : M SolutionKind :=
  match existentialProtocols type2 with
  | Some protocols => matchExistentialProtocols type1 locator protocols
  | None => abort
  end.

(** [tryUserConversion] *)
Definition tryUserConversion (type : Ty) (kind : ConstraintKind.t) (otherType : Ty)
    (locator : ConstraintLocatorBuilder) : M SolutionKind :=
  assert (match kind with
          | ConstraintKind.Construction | ConstraintKind.Conversion => false
          | _ => true
          end) ;;;
  if negb (isSome (getNominalOrBoundGenericNominal type))
     && negb (match type with TArchetype _ => true | _ => false end)
  then ret Unsolved
  else
    let name := "__conversion" in
    match lookupMember type name with
    | [] => ret Unsolved
    | _ =>
        let memberLocator :=
          getConstraintLocator (withPathElement locator ConstraintLocator.ConversionMember) in
        inputTV <- createTypeVariable
                     (getConstraintLocator
                        (withPathElement (builderOf memberLocator)
                           ConstraintLocator.FunctionArgument))
                     false false ;;
        outputTV <- createTypeVariable
                      (getConstraintLocator
                         (withPathElement (builderOf memberLocator)
                            ConstraintLocator.FunctionResult))
                      false false ;;
        addValueMemberConstraint type name (TFunction inputTV outputTV false false)
          memberLocator ;;;
        addRelationalConstraint ConstraintKind.Conversion emptyTuple inputTV
          (getConstraintLocator locator) ;;;
        addRelationalConstraint kind outputTV otherType
          (getConstraintLocator (withPathElement locator ConstraintLocator.ConversionResult)) ;;;
        ret Solved
    end.

(** The type-variable cases of [matchTypes].  [Return] is a [return] of
    the C++ function, [Continue] falls through to the structural cases. *)
Definition unifyTypeVariables (type1 type2 : Ty) (typeVar1 typeVar2 : option nat)
    (kind : TypeMatchKind.t) (flags : N) (locator : ConstraintLocatorBuilder)
    : M (Flow SolutionKind unit) :=
  match kind with
  | TypeMatchKind.BindType | TypeMatchKind.SameType =>
      match typeVar1, typeVar2 with
      | Some tv1, Some tv2 =>
          rep1 <- liftRes (getRepresentative tv1) ;;
          rep2 <- liftRes (getRepresentative tv2) ;;
          if Nat.eqb rep1 rep2 then ret (Return Solved)
          else
            lv1 <- liftRes (tvCanBindToLValue rep1) ;;
            lv2 <- liftRes (tvCanBindToLValue rep2) ;;
            if negb (Bool.eqb lv1 lv2) then
              if hasFlag flags TMF_GenerateConstraints then
                addRelationalConstraint (getConstraintKind kind)
                  (TTypeVariable rep1) (TTypeVariable rep2) (getConstraintLocator locator) ;;;
                ret (Return Solved)
              else ret (Return Unsolved)
            else
              mergeEquivalenceClasses rep1 rep2 ;;;
              ret (Return Solved)
      | Some tv1, None =>
          let wantRvalue := TypeMatchKind.eqb kind TypeMatchKind.SameType in
          let type2 := if wantRvalue then getRValueType type2 else type2 in
          lv1 <- liftRes (tvCanBindToLValue tv1) ;;
          if negb lv1 && match type2 with TLValue _ _ => true | _ => false end
          then ret (Return Error)
          else assignFixedType tv1 type2 ;;; ret (Return Solved)
      | None, Some tv2 =>
          let wantRvalue := TypeMatchKind.eqb kind TypeMatchKind.SameType in
          let type1 := if wantRvalue then getRValueType type1 else type1 in
          lv2 <- liftRes (tvCanBindToLValue tv2) ;;
          if negb lv2 && match type1 with TLValue _ _ => true | _ => false end
          then ret (Return Error)
          else assignFixedType tv2 type1 ;;; ret (Return Solved)
      | None, None => ret (Continue tt)
      end
  | TypeMatchKind.TrivialSubtype | TypeMatchKind.Subtype | TypeMatchKind.Conversion =>
      if hasFlag flags TMF_GenerateConstraints then
        addRelationalConstraint (getConstraintKind kind) type1 type2
          (getConstraintLocator locator) ;;;
        ret (Return Solved)
      else
        match typeVar1, typeVar2 with
        | Some tv1, Some tv2 =>
            ret (Return (if Nat.eqb tv1 tv2 then Solved else Unsolved))
        | _, _ => ret (Continue tt)
        end
  end.

(** The switch over the common kind of the two types ("decompose parallel
    structure"): a [return], or the conversions pushed so far. *)
Definition decomposeParallelStructure (type1 type2 : Ty) (kind : TypeMatchKind.t)
    (flags : N) (locator : ConstraintLocatorBuilder)
    : M (Flow SolutionKind (list ConversionRestrictionKind.t)) :=
  let subFlags := N.lor flags TMF_GenerateConstraints in
  if negb (TypeKind_eqb (getKind type1) (getKind type2)) then ret (Continue [])
  else
    match type1, type2 with
    | TBuiltin _ _, _ | TModule _, _ =>
        if Ty_eqb type1 type2 then ret (Return Solved)
        else
          recordIfEnabled (getConstraintLocator locator) (getRelationalFailureKind kind)
            type1 type2 ;;;
          ret (Return Error)
    | TError, _ => ret (Return Error)
    | TGenericTypeParam _ _, _ | TDependentMember _ _, _ => abort
    | TTypeVariable _, _ | TArchetype _, _ => ret (Continue [])
    | TTuple _, _ => ret (Continue [ConversionRestrictionKind.TupleToTuple])
    | TNominal _ decl1 _, TNominal _ decl2 _ =>
        if Nat.eqb decl1 decl2
        then ret (Continue [ConversionRestrictionKind.DeepEquality])
        else ret (Continue [])
    | TProtocol _, _ => ret (Continue [])
    | TMetaType instance1, TMetaType instance2 =>
        let subKind :=
          if negb (TypeMatchKind.eqb kind TypeMatchKind.SameType)
             && (mayHaveSuperclass instance1
                 || isSome (getClassOrBoundGenericClass instance2))
          then TypeMatchKind.min kind TypeMatchKind.Subtype
          else TypeMatchKind.SameType in
        r <- matchTypes instance1 instance2 subKind subFlags
               (withPathElement locator ConstraintLocator.InstanceType) ;;
        ret (Return r)
    | TFunction i1 r1 ac1 nr1, TFunction i2 r2 ac2 nr2 =>
        r <- matchFunctionTypes i1 r1 ac1 nr1 i2 r2 ac2 nr2 kind flags locator ;;
        ret (Return r)
    | TPolymorphicFunction _ _, _ | TGenericFunction _ _, _ => abort
    | TArray base1 _, TArray base2 _ =>
        r <- matchTypes base1 base2 TypeMatchKind.SameType subFlags
               (withPathElement locator ConstraintLocator.ArrayElementType) ;;
        ret (Return r)
    | TProtocolComposition _, _ => ret (Continue [])
    | TLValue object1 quals1, TLValue object2 quals2 =>
        if negb (Qual_eqb quals1 quals2)
           && negb (TypeMatchKind.geb kind TypeMatchKind.TrivialSubtype
                    && Qual_ltb quals1 quals2) then
          recordIfEnabled (getConstraintLocator locator) Failure.LValueQualifiers
            type1 type2 ;;;
          ret (Return Error)
        else
          r <- matchTypes object1 object2 TypeMatchKind.SameType subFlags
                 (withPathElement locator ConstraintLocator.ArrayElementType) ;;
          ret (Return r)
    | TUnboundGeneric _ _, _ => abort
    | TBoundGeneric _ decl1 _ _, TBoundGeneric _ decl2 _ _ =>
        if Nat.eqb decl1 decl2
        then ret (Continue [ConversionRestrictionKind.DeepEquality])
        else ret (Continue [])
    | _, _ => abort
    end.

Definition asTuple (t : Ty) : option (list TupleTypeElt) :=
  match t with TTuple fields => Some fields | _ => None end.

(** "Detect when the source and destination both permit scalar conversions,
    but the source has a name and the destination does not have the same
    name." *)
Definition tuplesWithMismatchedNames (tuple1 tuple2 : option (list TupleTypeElt))
    : M bool :=
  match tuple1, tuple2 with
  | Some t1, Some t2 =>
      let scalar1 := getFieldForScalarInit TC t1 in
      let scalar2 := getFieldForScalarInit TC t2 in
      if Z.leb 0 scalar1 && Z.leb 0 scalar2 then
        match t1 !! Z.to_nat scalar1, t2 !! Z.to_nat scalar2 with
        | Some f1, Some f2 =>
            ret (negb (String.eqb (getName f1) EmptyString)
                 && negb (String.eqb (getName f1) (getName f2)))
        | _, _ => abort
        end
      else ret false
  | _, _ => ret false
  end.

(** The candidates gated on concrete operands at [TrivialSubtype] and
    above; [Return] stands for [goto commit_to_conversions]. *)
Definition collectTupleAndClassConversions (type1 type2 : Ty) (kind : TypeMatchKind.t)
    (potentialConversions : list ConversionRestrictionKind.t)
    : M (Flow (list ConversionRestrictionKind.t) (list ConversionRestrictionKind.t)) :=
  let tuple1 := asTuple type1 in
  let tuple2 := asTuple type2 in
  mismatched <- tuplesWithMismatchedNames tuple1 tuple2 ;;
  match
    (match tuple2 with
     | Some t2 =>
         if negb mismatched
            && ((Nat.eqb (length t2) 1 && negb (default false (isVararg <$> t2 !! 0)))
                || (TypeMatchKind.geb kind TypeMatchKind.Conversion
                    && Z.leb 0 (getFieldForScalarInit TC t2)))
         then Some (potentialConversions ++ [ConversionRestrictionKind.ScalarToTuple])
         else None
     | None => None
     end)
  with
  | Some committed => ret (Return committed)
  | None =>
      let potentialConversions :=
        match tuple1 with
        | Some t1 =>
            if negb mismatched
               && (Nat.eqb (length t1) 1 && negb (default false (isVararg <$> t1 !! 0)))
            then potentialConversions ++ [ConversionRestrictionKind.TupleToScalar]
            else potentialConversions
        | None => potentialConversions
        end in
      let potentialConversions :=
        if mayHaveSuperclass type1 && mayHaveSuperclass type2
           && isSome (getClassOrBoundGenericClass type2)
           && negb (option_nat_eqb (getClassOrBoundGenericClass type1)
                      (getClassOrBoundGenericClass type2))
        then potentialConversions ++ [ConversionRestrictionKind.Superclass]
        else potentialConversions in
      ret (Continue potentialConversions)
  end.

(** The optional conversions: "A value of type T can be converted to type
    U? if T is convertible to U.  A value of type T? can be converted to type
    U? if T is convertible to U." *)
Definition collectOptionalConversions (type1 type2 : Ty) (concrete : bool)
    (kind : TypeMatchKind.t) (potentialConversions : list ConversionRestrictionKind.t)
    : M (list ConversionRestrictionKind.t) :=
  if concrete && TypeMatchKind.geb kind TypeMatchKind.Conversion then
    match type2 with
    | TBoundGeneric _ decl2 _ args2 =>
        if Nat.eqb decl2 (getOptionalDecl TC) then
          assert (Nat.eqb (length args2) 1) ;;;
          (potentialConversions <-
             match type1 with
             | TBoundGeneric _ decl1 _ args1 =>
                 if Nat.eqb decl1 (getOptionalDecl TC) then
                   assert (Nat.eqb (length args1) 1) ;;;
                   ret (potentialConversions ++ [ConversionRestrictionKind.OptionalToOptional])
                 else ret potentialConversions
             | _ => ret potentialConversions
             end ;;
           ret (potentialConversions ++ [ConversionRestrictionKind.ValueToOptional]))
        else ret potentialConversions
    | _ => ret potentialConversions
    end
  else ret potentialConversions.

(** Everything between the structural switch and the label
    [commit_to_conversions]: the set of potential non-structural
    conversions, or an early [return]. *)
Definition collectPotentialConversions (type1 type2 : Ty) (concrete : bool)
    (kind : TypeMatchKind.t) (flags : N) (locator : ConstraintLocatorBuilder)
    (potentialConversions : list ConversionRestrictionKind.t)
    : M (Flow SolutionKind (list ConversionRestrictionKind.t)) :=
  let subFlags := N.lor flags TMF_GenerateConstraints in
  first <-
    (if concrete && TypeMatchKind.geb kind TypeMatchKind.TrivialSubtype
     then collectTupleAndClassConversions type1 type2 kind potentialConversions
     else ret (Continue potentialConversions)) ;;
  match first with
  | Return committed => ret (Continue committed)
  | Continue potentialConversions =>
      let potentialConversions :=
        if concrete && TypeMatchKind.geb kind TypeMatchKind.Conversion then
          match type1 with
          | TLValue _ quals1 =>
              if isImplicit quals1
              then potentialConversions ++ [ConversionRestrictionKind.LValueToRValue]
              else potentialConversions
          | _ => potentialConversions
          end
        else potentialConversions in
      match
        (if concrete && TypeMatchKind.geb kind TypeMatchKind.Conversion then
           match type2 with
           | TFunction _ result2 true _ => Some result2
           | _ => None
           end
         else None)
      with
      | Some result2 =>
          r <- matchTypes type1 result2 kind subFlags
                 (withPathElement locator ConstraintLocator.Load) ;;
          ret (Return r)
      | None =>
          let potentialConversions :=
            if isExistentialType type2
               && (TypeMatchKind.geb kind TypeMatchKind.Conversion
                   || (TypeMatchKind.eqb kind TypeMatchKind.Subtype
                       && (isExistentialType type1 || isClassExistentialType type2)))
            then potentialConversions ++ [ConversionRestrictionKind.Existential]
            else potentialConversions in
          potentialConversions <-
            collectOptionalConversions type1 type2 concrete kind potentialConversions ;;
          let potentialConversions :=
            if concrete && TypeMatchKind.geb kind TypeMatchKind.Conversion
               && shouldTryUserConversion type1
            then potentialConversions ++ [ConversionRestrictionKind.User]
            else potentialConversions in
          ret (Continue potentialConversions)
      end
  end.

(** The matcher of one conversion restriction, as [matchTypes] invokes it
    for a single potential conversion. *)
Definition matchSingleConversion (potential : ConversionRestrictionKind.t)
    (type1 type2 : Ty) (kind : TypeMatchKind.t) (flags : N)
    (locator : ConstraintLocatorBuilder) : M SolutionKind :=
  let subFlags := N.lor flags TMF_GenerateConstraints in
  match potential with
  | ConversionRestrictionKind.TupleToTuple =>
      match type1, type2 with
      | TTuple tuple1, TTuple tuple2 => matchTupleTypes tuple1 tuple2 kind flags locator
      | _, _ => abort
      end
  | ConversionRestrictionKind.ScalarToTuple =>
      match type2 with
      | TTuple tuple2 => matchScalarToTupleTypes type1 tuple2 kind subFlags locator
      | _ => abort
      end
  | ConversionRestrictionKind.TupleToScalar =>
      match type1 with
      | TTuple tuple1 => matchTupleToScalarTypes tuple1 type2 kind subFlags locator
      | _ => abort
      end
  | ConversionRestrictionKind.DeepEquality => matchDeepEqualityTypes type1 type2 locator
  | ConversionRestrictionKind.Superclass => matchSuperclassTypes type1 type2 kind flags locator
  | ConversionRestrictionKind.LValueToRValue =>
      matchTypes (getRValueType type1) type2 kind subFlags locator
  | ConversionRestrictionKind.Existential =>
      matchExistentialTypes type1 type2 kind flags locator
  | ConversionRestrictionKind.ValueToOptional =>
      match type2 with
      | TBoundGeneric _ decl2 _ [arg2] =>
          assert (Nat.eqb decl2 (getOptionalDecl TC)) ;;;
          matchTypes type1 arg2 kind subFlags locator
      | _ => abort
      end
  | ConversionRestrictionKind.OptionalToOptional =>
      match type1, type2 with
      | TBoundGeneric _ decl1 _ [arg1], TBoundGeneric _ decl2 _ [arg2] =>
          assert (Nat.eqb decl1 (getOptionalDecl TC)) ;;;
          assert (Nat.eqb decl2 (getOptionalDecl TC)) ;;;
          matchTypes arg1 arg2 kind subFlags locator
      | _, _ => abort
      end
  | ConversionRestrictionKind.User =>
      tryUserConversion type1 ConstraintKind.Subtype type2 locator
  end.

(** The constraint of one alternative of the disjunction. *)
Definition restrictedConstraint (kind : TypeMatchKind.t) (type1 type2 : Ty)
    (fixedLocator : option Locator) (potential : ConversionRestrictionKind.t) : Constraint :=
  let constraintKind :=
    match potential with
    | ConversionRestrictionKind.DeepEquality => ConstraintKind.Equal
    | _ => getConstraintKind kind
    end in
  mkConstraint constraintKind (Some potential) type1 (Some type2) "" fixedLocator.

(** From the label [commit_to_conversions] to the end of [matchTypes]. *)
Definition commitToConversions (potentialConversions : list ConversionRestrictionKind.t)
    (type1 type2 : Ty) (typeVar1 typeVar2 : option nat)
    (kind : TypeMatchKind.t) (flags : N) (locator : ConstraintLocatorBuilder)
    : M SolutionKind :=
  match potentialConversions with
  | [] =>
      if isSome typeVar1 || isSome typeVar2 then ret Unsolved
      else
        recordIfEnabled (getConstraintLocator locator) (getRelationalFailureKind kind)
          type1 type2 ;;;
        ret Error
  | [potential] => matchSingleConversion potential type1 type2 kind flags locator
  | _ :: _ :: _ =>
      let fixedLocator := getConstraintLocator locator in
      _ <- addConstraint
             (createDisjunction
                (map (restrictedConstraint kind type1 type2 fixedLocator) potentialConversions)
                fixedLocator) ;;
      ret Solved
  end.

(** The candidate phase of [matchTypes]: the structural switch followed by
    the collection of the potential conversions. *)
Definition potentialConversionsOf (type1 type2 : Ty) (typeVar1 typeVar2 : option nat)
    (kind : TypeMatchKind.t) (flags : N) (locator : ConstraintLocatorBuilder)
    : M (Flow SolutionKind (list ConversionRestrictionKind.t)) :=
  let concrete := negb (isSome typeVar1) && negb (isSome typeVar2) in
  structural <- decomposeParallelStructure type1 type2 kind flags locator ;;
  match structural with
  | Return r => ret (Return r)
  | Continue potentialConversions =>
      collectPotentialConversions type1 type2 concrete kind flags locator
        potentialConversions
  end.

(** [ConstraintSystem::matchTypes], one level of the recursion. *)
Definition matchTypes_body (type1 type2 : Ty) (kind : TypeMatchKind.t) (flags : N)
    (locator : ConstraintLocatorBuilder) : M SolutionKind :=
  r1 <- getFixedTypeRecursive type1 (TypeMatchKind.eqb kind TypeMatchKind.SameType) ;;
  let '(type1, typeVar1) := r1 in
  r2 <- getFixedTypeRecursive type2 (TypeMatchKind.eqb kind TypeMatchKind.SameType) ;;
  let '(type2, typeVar2) := r2 in
  if Ty_eqb type1 type2 then ret Solved
  else
    unified <-
      (if isSome typeVar1 || isSome typeVar2
       then unifyTypeVariables type1 type2 typeVar1 typeVar2 kind flags locator
       else ret (Continue tt)) ;;
    match unified with
    | Return r => ret r
    | Continue _ =>
        candidates <- potentialConversionsOf type1 type2 typeVar1 typeVar2 kind flags locator ;;
        match candidates with
        | Return r => ret r
        | Continue potentialConversions =>
            commitToConversions potentialConversions type1 type2 typeVar1 typeVar2
              kind flags locator
        end
    end.

(* ===================================================================== *)
(** ** The constraint simplifier *)
(* ===================================================================== *)

(** [Type::findIf]: whether some type inside [t] satisfies [p]. *)
Fixpoint findIf (p : Ty -> bool) (t : Ty) {struct t} : bool :=
  p t ||
  match t with
  | TDependentMember base _ => findIf p base
  | TTuple fields =>
      (fix go (l : list TupleTypeElt) : bool :=
         match l with
         | [] => false
         | mkElt _ ty _ _ :: l' => findIf p ty || go l'
         end) fields
  | TNominal _ _ (Some parent) => findIf p parent
  | TMetaType instance => findIf p instance
  | TFunction input result _ _ => findIf p input || findIf p result
  | TPolymorphicFunction input result => findIf p input || findIf p result
  | TGenericFunction input result => findIf p input || findIf p result
  | TArray base _ => findIf p base
  | TProtocolComposition protocols =>
      (fix go (l : list Ty) : bool :=
         match l with
         | [] => false
         | ty :: l' => findIf p ty || go l'
         end) protocols
  | TLValue object _ => findIf p object
  | TUnboundGeneric _ (Some parent) => findIf p parent
  | TBoundGeneric _ _ parent args =>
      match parent with Some q => findIf p q | None => false end ||
      (fix go (l : list Ty) : bool :=
         match l with
         | [] => false
         | ty :: l' => findIf p ty || go l'
         end) args
  | _ => false
  end.

(** [castTo<AnyFunctionType>()->getResult()] *)
Definition anyFunctionResult (t : Ty) : option Ty :=
  match t with
  | TFunction _ result _ _ | TPolymorphicFunction _ result | TGenericFunction _ result =>
      Some result
  | _ => None
  end.

(** [involvesAssociatedTypes] *)
Definition involvesAssociatedTypes (decl : DeclId) : M bool :=
  let type := declType TC decl in
  type <- (if declIsFunc TC decl || declIsConstructor TC decl
           then match anyFunctionResult type with
                | Some result => ret result
                | None => abort
                end
           else ret type) ;;
  ret (findIf (fun t => match t with
                        | TArchetype a => archetypeIsNestedOrSelf TC a
                        | _ => false
                        end) type).

(** [llvm::StringRef::getAsInteger(10, unsigned &)]: the digits are
    accumulated in 64 bits with the library's wrap-around test, and the
    value has to fit the 32-bit result.  [None] is the error result. *)
Definition digitValue (c : Ascii.ascii) : option N :=
  let n := Ascii.N_of_ascii c in
  if (48 <=? n)%N && (n <=? 57)%N then Some (n - 48)%N else None.

Fixpoint getAsUnsignedInteger (s : string) (result : N) : option N :=
  match s with
  | EmptyString => Some result
  | String c rest =>
      match digitValue c with
      | None => None
      | Some charVal =>
          let next := ((result * 10 + charVal) mod 2 ^ 64)%N in
          if (next / 10 <? result)%N then None
          else getAsUnsignedInteger rest next
      end
  end.

Definition getAsInteger (s : string) : option N :=
  match s with
  | EmptyString => None
  | _ =>
      match getAsUnsignedInteger s 0%N with
      | Some v => if (v <? 2 ^ 32)%N then Some v else None
      | None => None
      end
  end.

(** The substitution of [ConstraintSystem::simplifyType]: a type variable
    is replaced by the simplified fixed type of its representative, unless
    that variable is being substituted already; [k] counts the variables
    that may still be entered. *)
Fixpoint simplifyTypeIn (cs : ConstraintSystem) (k : nat) (substituting : list nat)
    (t : Ty) {struct k} : Res Ty :=
  let var (tvt : nat) : Res Ty :=
    match getRepresentative tvt cs with
    | Done rep =>
        match getFixedType rep cs with
        | Done (Some fixed) =>
            if existsb (Nat.eqb rep) substituting then Done (TTypeVariable rep)
            else match k with
                 | 0 => Timeout
                 | S k' => simplifyTypeIn cs k' (rep :: substituting) fixed
                 end
        | Done None => Done (TTypeVariable rep)
        | Abort => Abort
        | Timeout => Timeout
        end
    | Abort => Abort
    | Timeout => Timeout
    end in
  (fix walk (t : Ty) {struct t} : Res Ty :=
     let walkList :=
       fix walkList (l : list Ty) : Res (list Ty) :=
         match l with
         | [] => Done []
         | x :: l' =>
             match walk x, walkList l' with
             | Done y, Done r => Done (y :: r)
             | Abort, _ | _, Abort => Abort
             | _, _ => Timeout
             end
         end in
     let walkOpt (o : option Ty) : Res (option Ty) :=
       match o with
       | None => Done None
       | Some x => match walk x with Done y => Done (Some y) | Abort => Abort | Timeout => Timeout end
       end in
     let map1 (f : Ty -> Ty) (r : Res Ty) : Res Ty :=
       match r with Done y => Done (f y) | Abort => Abort | Timeout => Timeout end in
     match t with
     | TTypeVariable tvt => var tvt
     | TDependentMember base assoc => map1 (fun b => TDependentMember b assoc) (walk base)
     | TTuple fields =>
         match
           (fix walkFields (l : list TupleTypeElt) : Res (list TupleTypeElt) :=
              match l with
              | [] => Done []
              | mkElt n ty v i :: l' =>
                  match walk ty, walkFields l' with
                  | Done y, Done r => Done (mkElt n y v i :: r)
                  | Abort, _ | _, Abort => Abort
                  | _, _ => Timeout
                  end
              end) fields
         with
         | Done fs => Done (TTuple fs)
         | Abort => Abort
         | Timeout => Timeout
         end
     | TNominal k d parent =>
         match walkOpt parent with
         | Done p => Done (TNominal k d p) | Abort => Abort | Timeout => Timeout
         end
     | TMetaType instance => map1 TMetaType (walk instance)
     | TFunction input result ac nr =>
         match walk input, walk result with
         | Done i, Done r => Done (TFunction i r ac nr)
         | Abort, _ | _, Abort => Abort
         | _, _ => Timeout
         end
     | TArray base n => map1 (fun b => TArray b n) (walk base)
     | TProtocolComposition protocols =>
         match walkList protocols with
         | Done ps => Done (TProtocolComposition ps) | Abort => Abort | Timeout => Timeout
         end
     | TLValue object quals => map1 (fun o => TLValue o quals) (walk object)
     | TBoundGeneric k d parent args =>
         match walkOpt parent, walkList args with
         | Done p, Done xs => Done (TBoundGeneric k d p xs)
         | Abort, _ | _, Abort => Abort
         | _, _ => Timeout
         end
     | _ => Done t
     end) t.

(** [ConstraintSystem::simplifyType] *)
Definition simplifyType (t : Ty) : M Ty :=
  liftRes (fun cs => simplifyTypeIn cs (length (TypeVariables cs)) [] t).

Definition declChoice (baseTy : Ty) (kind : OverloadChoiceKind.t) (decl : DeclId)
    : OverloadChoice :=
  mkChoice (Some baseTy) kind (Some decl) 0 false.

(** The constructors that survive the filter of the initializer lookup. *)
Fixpoint constructorChoices (baseTy : Ty) (isExistential : bool) (ctors : list DeclId)
    : M (list OverloadChoice) :=
  match ctors with
  | [] => ret []
  | constructor :: rest =>
      if declIsInvalid TC constructor then constructorChoices baseTy isExistential rest
      else
        skip <- (if isExistential then involvesAssociatedTypes constructor else ret false) ;;
        if skip then constructorChoices baseTy isExistential rest
        else
          choices <- constructorChoices baseTy isExistential rest ;;
          ret (declChoice baseTy OverloadChoiceKind.Decl constructor :: choices)
  end.

(** The type declarations that survive the filter of the member-type
    lookup. *)
Definition typeMemberChoices (baseTy : Ty) (lookup : list (DeclId * Ty))
    : list OverloadChoice :=
  map (fun result => declChoice baseTy OverloadChoiceKind.TypeDecl (fst result))
    (List.filter (fun result => negb (declIsInvalid TC (fst result))) lookup).

(** The declarations that survive the filters of the general member
    lookup. *)
Fixpoint valueMemberChoices (baseTy baseObjTy : Ty)
    (isExistential isMetatype isDynamicLookup : bool) (lookup : list DeclId)
    : M (list OverloadChoice) :=
  match lookup with
  | [] => ret []
  | result :: rest =>
      let continue_ :=
        valueMemberChoices baseTy baseObjTy isExistential isMetatype isDynamicLookup rest in
      if declIsInvalid TC result then continue_
      else
        skip <- (if isExistential then involvesAssociatedTypes result else ret false) ;;
        if skip then continue_
        else if isMetatype
                && negb (declIsFunc TC result || negb (declIsInstanceMember TC result))
        then continue_
        else if negb isMetatype
                && negb (match baseObjTy with TModule _ => true | _ => false end)
                && negb (declIsInstanceMember TC result)
        then continue_
        else if isDynamicLookup && isMetatype && declIsInstanceMember TC result
        then continue_
        else if isDynamicLookup then
          assert (declIsInTypeContext TC result) ;;;
          (choices <- continue_ ;;
           ret (declChoice baseTy OverloadChoiceKind.DeclViaDynamic result :: choices))
        else
          choices <- continue_ ;;
          ret (declChoice baseTy OverloadChoiceKind.Decl result :: choices)
  end.

Definition doesNotHaveMember (locator : option Locator) (baseObjTy : Ty)
    (name : Identifier) : M SolutionKind :=
  recordFailure locator Failure.DoesNotHaveMember baseObjTy None name ;;;
  ret Error.

(** "Resolve a number reference into the tuple type", or else look the
    name up among the field names; -1 when there is no such field. *)
Definition tupleFieldIndex (baseTuple : list TupleTypeElt) (name : Identifier) : Z :=
  match getAsInteger name with
  | Some value =>
      if (value <? N.of_nat (length baseTuple))%N then Z.of_N value
      else getNamedElementId baseTuple name
  | None => getNamedElementId baseTuple name
  end.

(** The lookups of [simplifyMemberConstraint] on a base that is not a
    tuple: initializers, member types, members. *)
Definition simplifyLookedUpMember (kind : ConstraintKind.t)
    (baseTy baseObjTy instanceTy : Ty) (isMetatype : bool) (memberTy : Ty)
    (name : Identifier) (locator : option Locator) : M SolutionKind :=
  let isExistential := isExistentialType instanceTy in
  if String.eqb name "init" then
    match lookupConstructors TC baseObjTy with
    | [] => doesNotHaveMember locator baseObjTy name
    | ctors =>
        choices <- constructorChoices baseTy isExistential ctors ;;
        match choices with
        | [] => doesNotHaveMember locator baseObjTy name
        | _ => addOverloadSet memberTy choices locator ;;; ret Solved
        end
    end
  else
    match kind with
    | ConstraintKind.TypeMember =>
        match lookupMemberType TC baseObjTy name with
        | [] => doesNotHaveMember locator baseObjTy name
        | lookup =>
            addOverloadSet memberTy (typeMemberChoices baseTy lookup)
              (getConstraintLocator (builderOf locator)) ;;;
            ret Solved
        end
    | _ =>
        match lookupMember baseObjTy name with
        | [] =>
            match getAsInteger name with
            | Some 0%N =>
                addBindOverloadConstraint memberTy
                  (mkChoice (Some baseTy) OverloadChoiceKind.BaseType None 0 false)
                  locator ;;;
                ret Solved
            | _ => doesNotHaveMember locator baseObjTy name
            end
        | lookup =>
            let isDynamicLookup :=
              match instanceTy with
              | TProtocol protoTy => isDynamicLookupProtocol TC protoTy
              | _ => false
              end in
            choices <- valueMemberChoices baseTy baseObjTy isExistential isMetatype
                         isDynamicLookup lookup ;;
            match choices with
            | [] => doesNotHaveMember locator baseObjTy name
            | _ =>
                addOverloadSet memberTy choices
                  (getConstraintLocator (builderOf locator)) ;;;
                ret Solved
            end
        end
    end.

(** [ConstraintSystem::simplifyMemberConstraint] *)
Definition simplifyMemberConstraint (kind : ConstraintKind.t) (first : Ty) (memberTy : Ty)
    (name : Identifier) (locator : option Locator) : M SolutionKind :=
  baseTy <- simplifyType first ;;
  let baseObjTy := getRValueType baseTy in
  let '(instanceTy, isMetatype) :=
    match baseObjTy with
    | TMetaType instance => (instance, true)
    | _ => (baseObjTy, false)
    end in
  match instanceTy with
  | TTypeVariable _ => ret Unsolved
  | _ =>
      match baseObjTy with
      | TTuple baseTuple =>
          let fieldIdx := tupleFieldIndex baseTuple name in
          if Z.eqb fieldIdx (-1) then doesNotHaveMember locator baseObjTy name
          else
            addBindOverloadConstraint memberTy
              (mkChoice (Some baseTy) OverloadChoiceKind.TupleIndex None (Z.to_nat fieldIdx)
                 false) locator ;;;
            ret Solved
      | _ =>
          simplifyLookedUpMember kind baseTy baseObjTy instanceTy isMetatype memberTy name
            locator
      end
  end.

(** [constraints::adjustLValueForReference] *)
Definition adjustLValue (type : Ty) : Ty :=
  match type with
  | TLValue object quals => TLValue object (mkQual true (isNonSettable quals))
  | _ => type
  end.

Definition adjustLValueForReference (type : Ty) (isAssignment : bool) : Ty :=
  match type with
  | TLValue _ _ => adjustLValue type
  | TFunction input result ac nr =>
      if isAssignment then
        let inputTy :=
          match input with
          | TTuple (mkElt n firstParamTy v i :: rest) =>
              TTuple (mkElt n (adjustLValue firstParamTy) v i :: rest)
          | TTuple [] => input
          | _ => adjustLValue input
          end in
        TFunction inputTy result ac nr
      else type
  | _ => type
  end.

(** [getMateralizedType]: the copy made once an element changes yields the
    same tuple as rebuilding every element. *)
Fixpoint getMateralizedType (type : Ty) {struct type} : Ty :=
  match type with
  | TLValue object _ => object
  | TTuple fields =>
      TTuple ((fix go (l : list TupleTypeElt) : list TupleTypeElt :=
                 match l with
                 | [] => []
                 | mkElt n ty v i :: l' => mkElt n (getMateralizedType ty) v i :: go l'
                 end) fields)
  | _ => type
  end.

(** [ConstraintSystem::resolveOverload] *)
Definition resolveOverload (locator : option Locator) (boundType : Ty)
    (choice : OverloadChoice) : M unit :=
  types <-
    match choiceKind choice with
    | OverloadChoiceKind.Decl | OverloadChoiceKind.DeclViaDynamic
    | OverloadChoiceKind.TypeDecl =>
        match choiceDecl choice with
        | None => abort
        | Some decl =>
            let isTypeReference :=
              OverloadChoiceKind.eqb (choiceKind choice) OverloadChoiceKind.TypeDecl in
            let isDynamicResult :=
              OverloadChoiceKind.eqb (choiceKind choice) OverloadChoiceKind.DeclViaDynamic in
            opened <-
              match choiceBase choice with
              | Some base =>
                  getTypeOfMemberReference TC base decl isTypeReference isDynamicResult
              | None => getTypeOfReference TC decl isTypeReference (choiceIsSpecialized choice)
              end ;;
            let '(openedFullType, refType) := opened in
            let refType :=
              if isDynamicResult || declIsOptional TC decl then
                if negb (declIsSubscript TC decl)
                then OptionalType_get (getRValueType refType)
                else refType
              else adjustLValueForReference refType (declIsAssignment TC decl) in
            ret (Some openedFullType, refType)
        end
    | OverloadChoiceKind.BaseType =>
        match choiceBase choice with
        | Some base => ret (None, base)
        | None => abort
        end
    | OverloadChoiceKind.TupleIndex =>
        match choiceBase choice with
        | Some (TLValue (TTuple tuple) quals) =>
            match tuple !! choiceTupleIndex choice with
            | Some elt => ret (None, TLValue (getRValueType (getType elt)) quals)
            | None => abort
            end
        | Some (TTuple tuple) =>
            match tuple !! choiceTupleIndex choice with
            | Some elt => ret (None, getMateralizedType (getType elt))
            | None => abort
            end
        | _ => abort
        end
    end ;;
  let '(openedFullType, refType) := types in
  addRelationalConstraint ConstraintKind.Bind boundType refType None ;;;
  modify (fun cs =>
    mkCS (TypeVariables cs) (Constraints cs) (failedConstraint cs) (solverState cs)
         (mkResolved boundType choice locator openedFullType refType :: resolvedOverloadSets cs)
         (recordFailures cs) (failures cs)).

(** [ConstraintSystem::simplifyConstructionConstraint] *)
Definition simplifyConstructionConstraint (valueType argType : Ty) (flags : N)
    (locator : option Locator) : M SolutionKind :=
  valueType <-
    match valueType with
    | TTypeVariable tv =>
        fixed <- liftRes (getFixedType tv) ;;
        ret (default valueType fixed)
    | _ => ret valueType
    end ;;
  let notConstructible : M SolutionKind :=
    recordIfEnabled locator Failure.TypesNotConstructible valueType argType ;;;
    ret Error in
  let construct : M SolutionKind :=
    match lookupConstructors TC valueType with
    | [] => notConstructible
    | _ =>
        let name := "init" in
        let applyLocator :=
          getConstraintLocator (withPathElement (builderOf locator)
                                  ConstraintLocator.ApplyArgument) in
        tv <- createTypeVariable applyLocator true true ;;
        addValueMemberConstraint valueType name (TFunction tv valueType false false)
          (getConstraintLocator (withPathElement (builderOf locator)
                                   ConstraintLocator.ConstructorMember)) ;;;
        addRelationalConstraint ConstraintKind.Conversion argType tv applyLocator ;;;
        ret Solved
    end in
  match valueType with
  | TError => ret Error
  | TGenericFunction _ _ | TGenericTypeParam _ _ | TDependentMember _ _ => abort
  | TTypeVariable _ => ret Unsolved
  | TTuple _ =>
      matchTypes argType valueType TypeMatchKind.Conversion
        (N.lor flags TMF_GenerateConstraints) (builderOf locator)
  | TNominal _ _ _ | TBoundGeneric _ _ _ _ | TArchetype _ => construct
  | TPolymorphicFunction _ _ | TUnboundGeneric _ _ => abort
  | TBuiltin _ _ | TMetaType _ | TFunction _ _ _ _ | TArray _ _
  | TProtocolComposition _ | TLValue _ _ | TProtocol _ | TModule _ => notConstructible
  end.

Inductive CheckedCastKind :=
| CCK_Unresolved | CCK_Coercion | CCK_Downcast | CCK_SuperToArchetype
| CCK_ArchetypeToArchetype | CCK_ArchetypeToConcrete | CCK_ExistentialToArchetype
| CCK_ExistentialToConcrete | CCK_ConcreteToArchetype | CCK_ConcreteToUnrelatedExistential.

(** [getCheckedCastKind] *)
Definition getCheckedCastKind (fromType toType : Ty) : CheckedCastKind :=
  let isArchetype t := match t with TArchetype _ => true | _ => false end in
  let toArchetype := isArchetype toType in
  let fromArchetype := isArchetype fromType in
  let toExistential := isExistentialType toType in
  let fromExistential := isExistentialType fromType in
  if toExistential then CCK_ConcreteToUnrelatedExistential
  else if fromArchetype && toArchetype then CCK_ArchetypeToArchetype
  else if fromExistential then
    if toArchetype then CCK_ExistentialToArchetype else CCK_ExistentialToConcrete
  else if fromArchetype then CCK_ArchetypeToConcrete
  else match toType with
       | TArchetype a =>
           if isSome (archetypeSuperclass TC a) then CCK_SuperToArchetype
           else CCK_ConcreteToArchetype
       | _ => CCK_Downcast
       end.

(** [ConstraintSystem::simplifyCheckedCastConstraint] *)
Definition simplifyCheckedCastConstraint (fromType toType : Ty)
    (locator : ConstraintLocatorBuilder) : M SolutionKind :=
  r1 <- getFixedTypeRecursive fromType true ;;
  let '(fromType, typeVar1) := r1 in
  if isSome typeVar1 then ret Unsolved
  else
    r2 <- getFixedTypeRecursive toType true ;;
    let '(toType, typeVar2) := r2 in
    if isSome typeVar2 then ret Unsolved
    else
      match getCheckedCastKind fromType toType with
      | CCK_ArchetypeToArchetype | CCK_ConcreteToUnrelatedExistential
      | CCK_ExistentialToArchetype | CCK_SuperToArchetype
      | CCK_ArchetypeToConcrete | CCK_ConcreteToArchetype => ret Solved
      | CCK_Downcast =>
          addRelationalConstraint ConstraintKind.Subtype toType fromType
            (getConstraintLocator locator) ;;;
          ret Solved
      | CCK_ExistentialToConcrete =>
          addRelationalConstraint ConstraintKind.Conversion toType fromType None ;;;
          ret Solved
      | CCK_Coercion | CCK_Unresolved => abort
      end.

(** [ConstraintSystem::simplifyArchetypeConstraint] *)
Definition simplifyArchetypeConstraint (first : Ty) (locator : option Locator)
    : M SolutionKind :=
  let baseTy := getRValueType first in
  resolved <-
    match baseTy with
    | TTypeVariable tv =>
        fixed <- liftRes (getFixedType tv) ;;
        ret (getRValueType <$> fixed)
    | _ => ret (Some baseTy)
    end ;;
  match resolved with
  | None => ret Unsolved
  | Some (TArchetype _) => ret Solved
  | Some baseTy =>
      recordFailure locator Failure.IsNotArchetype baseTy None "" ;;;
      ret Error
  end.

(** [simplifyForTypePropertyConstraint]: [None] is the null type. *)
Definition simplifyForTypePropertyConstraint (type : Ty) : M (option Ty) :=
  match type with
  | TTypeVariable tv => liftRes (getFixedType tv)
  | _ => ret (Some type)
  end.

(** [ConstraintSystem::simplifyClassConstraint] *)
Definition simplifyClassConstraint (first : Ty) (locator : option Locator)
    : M SolutionKind :=
  resolved <- simplifyForTypePropertyConstraint first ;;
  match resolved with
  | None => ret Unsolved
  | Some baseTy =>
      if isSome (getClassOrBoundGenericClass baseTy) then ret Solved
      else if match baseTy with
              | TArchetype a => archetypeRequiresClass TC a
              | _ => false
              end
      then ret Solved
      else
        recordFailure locator Failure.IsNotClass baseTy None "" ;;;
        ret Error
  end.

(** [ConstraintSystem::simplifyDynamicLookupConstraint] *)
Definition simplifyDynamicLookupConstraint (first : Ty) (locator : option Locator)
    : M SolutionKind :=
  resolved <- simplifyForTypePropertyConstraint first ;;
  match resolved with
  | None => ret Unsolved
  | Some baseTy =>
      let baseTy :=
        match baseTy with
        | TLValue object quals => if isImplicit quals then object else baseTy
        | _ => baseTy
        end in
      if match baseTy with
         | TProtocol protoTy => isDynamicLookupProtocol TC protoTy
         | _ => false
         end
      then ret Solved
      else
        recordFailure locator Failure.IsNotArchetype baseTy None "" ;;;
        ret Error
  end.

(** [ConstraintSystem::simplifyApplicableFnConstraint] *)
Definition simplifyApplicableFnConstraint (type1 second : Ty) (locator : option Locator)
    : M SolutionKind :=
  match type1 with
  | TFunction input1 result1 _ _ =>
      r <- getFixedTypeRecursive second true ;;
      let '(type2, typeVar2) := r in
      let flags := TMF_GenerateConstraints in
      if Ty_eqb type1 type2 then ret Solved
      else if isSome typeVar2 then ret Unsolved
      else
        (** strip the 'ApplyFunction' off the locator *)
        match locator with
        | Some l =>
            match last (path l) with
            | Some ConstraintLocator.ApplyFunction =>
                let outerLocator := builderOf (Some (mkLocator (anchor l) (removelast (path l)))) in
                match type2 with
                | TFunction input2 result2 _ _ =>
                    assert (match result1 with TTypeVariable _ => true | _ => false end) ;;;
                    (a <- matchTypes input1 input2 TypeMatchKind.Conversion flags
                            (withPathElement outerLocator ConstraintLocator.ApplyArgument) ;;
                     match a with
                     | Error => ret Error
                     | _ =>
                         b <- matchTypes result1 result2 TypeMatchKind.BindType flags
                                (withPathElement (builderOf locator)
                                   ConstraintLocator.FunctionResult) ;;
                         match b with
                         | Error => ret Error
                         | _ => ret Solved
                         end
                     end)
                | TMetaType instanceTy2 =>
                    b <- matchTypes result1 instanceTy2 TypeMatchKind.BindType flags
                           (withPathElement (builderOf locator)
                              ConstraintLocator.FunctionResult) ;;
                    match b with
                    | Error => ret Error
                    | _ =>
                        _ <- addConstraint
                               (mkConstraint ConstraintKind.Construction None input1
                                  (Some instanceTy2) "" (getConstraintLocator outerLocator)) ;;
                        ret Solved
                    end
                | _ =>
                    recordIfEnabled (getConstraintLocator (builderOf locator))
                      Failure.FunctionTypesMismatch type1 type2 ;;;
                    ret Error
                end
            | _ => abort
            end
        | None => abort
        end
  | _ => abort
  end.

(** The matcher of a pre-selected restriction, as [simplifyConstraint]
    invokes it; [Return] is the [return] taken by the deep-equality case,
    which leaves the function before anything is recorded. *)
Definition matchRestriction (restriction : ConversionRestrictionKind.t)
    (ckind : ConstraintKind.t) (matchKind : TypeMatchKind.t)
    (first second : Ty) (locator : option Locator)
    : M (Flow SolutionKind SolutionKind) :=
  let loc := builderOf locator in
  match restriction with
  | ConversionRestrictionKind.TupleToTuple =>
      match first, second with
      | TTuple tuple1, TTuple tuple2 =>
          r <- matchTupleTypes tuple1 tuple2 matchKind TMF_GenerateConstraints loc ;;
          ret (Continue r)
      | _, _ => abort
      end
  | ConversionRestrictionKind.ScalarToTuple =>
      match second with
      | TTuple tuple2 =>
          r <- matchScalarToTupleTypes first tuple2 matchKind TMF_GenerateConstraints loc ;;
          ret (Continue r)
      | _ => abort
      end
  | ConversionRestrictionKind.TupleToScalar =>
      match first with
      | TTuple tuple1 =>
          r <- matchTupleToScalarTypes tuple1 second matchKind TMF_GenerateConstraints loc ;;
          ret (Continue r)
      | _ => abort
      end
  | ConversionRestrictionKind.DeepEquality =>
      r <- matchDeepEqualityTypes first second loc ;;
      ret (Return r)
  | ConversionRestrictionKind.Superclass =>
      r <- matchSuperclassTypes first second matchKind TMF_GenerateConstraints loc ;;
      ret (Continue r)
  | ConversionRestrictionKind.LValueToRValue =>
      r <- matchTypes (getRValueType first) second matchKind TMF_GenerateConstraints loc ;;
      ret (Continue r)
  | ConversionRestrictionKind.Existential =>
      r <- matchExistentialTypes first second matchKind TMF_GenerateConstraints loc ;;
      ret (Continue r)
  | ConversionRestrictionKind.ValueToOptional =>
      match second with
      | TBoundGeneric _ decl2 _ args2 =>
          assert (Nat.eqb decl2 (getOptionalDecl TC)) ;;;
          match args2 with
          | arg2 :: _ =>
              r <- matchTypes first arg2 matchKind TMF_GenerateConstraints loc ;;
              ret (Continue r)
          | [] => abort
          end
      | _ => abort
      end
  | ConversionRestrictionKind.OptionalToOptional =>
      match first, second with
      | TBoundGeneric _ decl1 _ args1, TBoundGeneric _ decl2 _ args2 =>
          assert (Nat.eqb decl1 (getOptionalDecl TC)) ;;;
          assert (Nat.eqb decl2 (getOptionalDecl TC)) ;;;
          match args1, args2 with
          | arg1 :: _, arg2 :: _ =>
              r <- matchTypes arg1 arg2 matchKind TMF_GenerateConstraints loc ;;
              ret (Continue r)
          | _, _ => abort
          end
      | _, _ => abort
      end
  | ConversionRestrictionKind.User =>
      assert (match ckind with ConstraintKind.Conversion => true | _ => false end) ;;;
      (r <- tryUserConversion first ConstraintKind.Subtype second loc ;;
       ret (Continue r))
  end.

(** "If we actually solved something, record what we did." *)
Definition recordRestriction (ckind : ConstraintKind.t) (first second : Ty)
    (restriction : ConversionRestrictionKind.t) : M unit :=
  cs <- get ;;
  match solverState cs with
  | None => abort
  | Some ss =>
      match ckind with
      | ConstraintKind.Conversion =>
          modify (fun cs =>
            mkCS (TypeVariables cs) (Constraints cs) (failedConstraint cs)
                 (Some (mkSolverState (retiredConstraints ss) (generatedConstraints ss)
                          (constraintRestrictions ss ++ [(first, second, restriction)])
                          (savedBindings ss)))
                 (resolvedOverloadSets cs) (recordFailures cs) (failures cs))
      | _ => ret tt
      end
  end.

(** The relational case of [simplifyConstraint]. *)
Definition simplifyRelationalConstraint (ckind : ConstraintKind.t)
    (restriction : option ConversionRestrictionKind.t) (first second : Ty)
    (locator : option Locator) : M SolutionKind :=
  match getTypeMatchKind ckind with
  | None => abort
  | Some matchKind =>
      match restriction with
      | Some restriction =>
          matched <- matchRestriction restriction ckind matchKind first second locator ;;
          match matched with
          | Return result => ret result
          | Continue result =>
              match result with
              | Error | Unsolved => ret result
              | Solved =>
                  recordRestriction ckind first second restriction ;;;
                  ret result
              end
          end
      | None => matchTypes first second matchKind TMF_None (builderOf locator)
      end
  end.

(** The loop of the conjunction case. *)
Fixpoint addNestedConstraints (nested : list Constraint) : M SolutionKind :=
  match nested with
  | [] => ret Solved
  | con :: rest =>
      _ <- addConstraint con ;;
      cs <- get ;;
      if isSome (failedConstraint cs) then ret Error
      else addNestedConstraints rest
  end.

(** [ConstraintSystem::simplifyConstraint] *)
Definition simplifyConstraint (constraint : Constraint) : M SolutionKind :=
  match constraint with
  | mkBindOverload type choice locator =>
      resolveOverload locator type choice ;;;
      ret Solved
  | createConjunction nested _ => addNestedConstraints nested
  | createDisjunction _ _ => ret Unsolved
  | mkConstraint ckind restriction first second member locator =>
      let withSecond (k : Ty -> M SolutionKind) : M SolutionKind :=
        match second with
        | Some s => k s
        | None => abort
        end in
      match ckind with
      | ConstraintKind.Bind | ConstraintKind.Equal | ConstraintKind.TrivialSubtype
      | ConstraintKind.Subtype | ConstraintKind.Conversion =>
          withSecond (fun second =>
            simplifyRelationalConstraint ckind restriction first second locator)
      | ConstraintKind.ApplicableFunction =>
          withSecond (fun second => simplifyApplicableFnConstraint first second locator)
      | ConstraintKind.BindOverload => abort
      | ConstraintKind.Construction =>
          withSecond (fun second =>
            simplifyConstructionConstraint second first TMF_None locator)
      | ConstraintKind.ConformsTo | ConstraintKind.SelfObjectOfProtocol =>
          match second with
          | Some (TProtocol protocol) =>
              simplifyConformsToConstraint first protocol (builderOf locator)
                (match ckind with
                 | ConstraintKind.SelfObjectOfProtocol => true
                 | _ => false
                 end)
          | _ => abort
          end
      | ConstraintKind.CheckedCast =>
          withSecond (fun second =>
            simplifyCheckedCastConstraint first second (builderOf locator))
      | ConstraintKind.ValueMember | ConstraintKind.TypeMember =>
          withSecond (fun second =>
            simplifyMemberConstraint ckind first second member locator)
      | ConstraintKind.Archetype => simplifyArchetypeConstraint first locator
      | ConstraintKind.Class => simplifyClassConstraint first locator
      | ConstraintKind.DynamicLookupValue => simplifyDynamicLookupConstraint first locator
      | ConstraintKind.Conjunction | ConstraintKind.Disjunction => abort
      end
  end.

(** The bookkeeping of a constraint that has been dealt with: inside a
    search it goes to the front of the retired list and, unless an existing
    constraint is being re-simplified, into the generated set. *)
Definition retired (constraint : Constraint) (simplifyExisting : bool)
    (cs : ConstraintSystem) : ConstraintSystem :=
  match solverState cs with
  | None => cs
  | Some ss =>
      mkCS (TypeVariables cs) (Constraints cs) (failedConstraint cs)
           (Some (mkSolverState (constraint :: retiredConstraints ss)
                    (if negb simplifyExisting
                     then (fun g => constraint :: g) <$> generatedConstraints ss
                     else generatedConstraints ss)
                    (constraintRestrictions ss) (savedBindings ss)))
           (resolvedOverloadSets cs) (recordFailures cs) (failures cs)
  end.

Definition retire (constraint : Constraint) (simplifyExisting : bool) : M unit :=
  modify (retired constraint simplifyExisting).

(** [ConstraintSystem::addConstraint] *)
Definition addConstraint_body (constraint : Constraint)
    (isExternallySolved simplifyExisting : bool) : M bool :=
  r <- simplifyConstraint constraint ;;
  match r with
  | Error =>
      modify (fun cs =>
        match failedConstraint cs with
        | Some _ => cs
        | None =>
            mkCS (TypeVariables cs) (Constraints cs) (Some constraint) (solverState cs)
                 (resolvedOverloadSets cs) (recordFailures cs) (failures cs)
        end) ;;;
      retire constraint simplifyExisting ;;;
      ret false
  | Solved =>
      retire constraint simplifyExisting ;;;
      ret true
  | Unsolved =>
      modify (fun cs =>
        let queue :=
          if negb isExternallySolved then Constraints cs ++ [constraint] else Constraints cs in
        mkCS (TypeVariables cs) queue (failedConstraint cs)
             (if negb simplifyExisting
              then (fun ss =>
                      mkSolverState (retiredConstraints ss)
                        ((fun g => constraint :: g) <$> generatedConstraints ss)
                        (constraintRestrictions ss) (savedBindings ss)) <$> solverState cs
              else solverState cs)
             (resolvedOverloadSets cs) (recordFailures cs) (failures cs)) ;;;
      ret false
  end.

End Body.

(** *** Tying the recursion *)

Fixpoint matchTypes (fuel : nat) (type1 type2 : Ty) (kind : TypeMatchKind.t) (flags : N)
    (locator : ConstraintLocatorBuilder) {struct fuel} : M SolutionKind :=
  match fuel with
  | 0 => timeout
  | S n =>
      matchTypes_body (mkRec n (matchTypes n) (fun c => addConstraint n c false false))
        type1 type2 kind flags locator
  end
with addConstraint (fuel : nat) (constraint : Constraint)
    (isExternallySolved simplifyExisting : bool) {struct fuel} : M bool :=
  match fuel with
  | 0 => timeout
  | S n =>
      addConstraint_body (mkRec n (matchTypes n) (fun c => addConstraint n c false false))
        constraint isExternallySolved simplifyExisting
  end.

(** The solver with [fuel] levels of recursion left. *)
Definition recursion (fuel : nat) : Recursion :=
  mkRec fuel (matchTypes fuel) (fun c => addConstraint fuel c false false).

End Solver.

(* ===================================================================== *)
(** ** Ranking solutions *)
(* ===================================================================== *)

#[global] Instance PathElementKind_eq_dec : EqDecision ConstraintLocator.PathElementKind.
Proof. solve_decision. Defined.

#[global] Instance Locator_eq_dec : EqDecision Locator.
Proof. solve_decision. Defined.

(** A solution: the binding of every type variable, the overload chosen at
    each locator, and the fixed score. *)
Record Solution := mkSolution {
  typeBindings : list (nat * Ty);
  overloadChoices : list (Locator * OverloadChoice);
  fixedScore : Z
}.

Module SolutionDiff.
Record TypeBindingDiff := mkTypeBindingDiff {
  typeVar : nat;
  bindings : list Ty
}.
Record OverloadDiff := mkOverloadDiff {
  locator : Locator;
  choices : list OverloadChoice
}.
Record t := mk {
  typeBindings : list TypeBindingDiff;
  overloads : list OverloadDiff
}.
End SolutionDiff.

Inductive SolutionCompareResult := Incomparable | Identical | Better | Worse.

Definition lookupBinding (typeVar : nat) (l : list (nat * Ty)) : option Ty :=
  snd <$> List.find (fun b => Nat.eqb (fst b) typeVar) l.

Definition lookupChoice (locator : Locator) (l : list (Locator * OverloadChoice))
    : option OverloadChoice :=
  snd <$> List.find (fun c => bool_decide (fst c = locator)) l.

Section Ranking.

Variable TC : TypeChecker.

(** [sameDecl] *)
Definition sameDecl (decl1 decl2 : DeclId) : bool :=
  if Nat.eqb decl1 decl2 then true
  else if declIsTypeDecl TC decl1 && declIsTypeDecl TC decl2 then true
  else false.

(** [sameOverloadChoice] *)
Definition sameOverloadChoice (x y : OverloadChoice) : bool :=
  if negb (OverloadChoiceKind.eqb (choiceKind x) (choiceKind y)) then false
  else match choiceKind x with
       | OverloadChoiceKind.BaseType => true
       | OverloadChoiceKind.Decl | OverloadChoiceKind.DeclViaDynamic
       | OverloadChoiceKind.TypeDecl =>
           match choiceDecl x, choiceDecl y with
           | Some d1, Some d2 => sameDecl d1 d2
           | _, _ => false
           end
       | OverloadChoiceKind.TupleIndex =>
           Nat.eqb (choiceTupleIndex x) (choiceTupleIndex y)
       end.

(** [SolutionDiff::SolutionDiff]: the hash maps are kept as association
    lists in the order of the first solution. *)
Definition commonBindings (solutions : list Solution) : list (nat * list Ty) :=
  match solutions with
  | [] => []
  | first :: rest =>
      fold_left
        (fun acc solution =>
           omap (fun binding : nat * list Ty =>
                   match lookupBinding (fst binding) (typeBindings solution) with
                   | Some known => Some (fst binding, snd binding ++ [known])
                   | None => None
                   end) acc)
        rest (map (fun b : nat * Ty => (fst b, [snd b])) (typeBindings first))
  end.

Definition commonChoices (solutions : list Solution) : list (Locator * list OverloadChoice) :=
  match solutions with
  | [] => []
  | first :: rest =>
      fold_left
        (fun acc solution =>
           omap (fun choice : Locator * list OverloadChoice =>
                   match lookupChoice (fst choice) (overloadChoices solution) with
                   | Some known => Some (fst choice, snd choice ++ [known])
                   | None => None
                   end) acc)
        rest (map (fun c : Locator * OverloadChoice => (fst c, [snd c])) (overloadChoices first))
  end.

Definition mkSolutionDiff (solutions : list Solution) : SolutionDiff.t :=
  if Nat.leb (length solutions) 1 then SolutionDiff.mk [] []
  else
    SolutionDiff.mk
      (omap (fun binding : nat * list Ty =>
               match snd binding with
               | singleType :: others =>
                   if forallb (Ty_eqb singleType) others then None
                   else Some (SolutionDiff.mkTypeBindingDiff (fst binding) (snd binding))
               | [] => None
               end) (commonBindings solutions))
      (concat
         (map (fun overloadChoice : Locator * list OverloadChoice =>
                 match snd overloadChoice with
                 | singleChoice :: _ =>
                     (** one entry is pushed for every choice that differs
                         from the first one *)
                     map (fun _ => SolutionDiff.mkOverloadDiff (fst overloadChoice)
                                     (snd overloadChoice))
                       (List.filter (fun choice => negb (sameOverloadChoice singleChoice choice))
                          (snd overloadChoice))
                 | [] => []
                 end) (commonChoices solutions))).

(** The tuple element the callback of [stripInitializers] builds for a
    field: the type, the name and the variadic marker of the field, and no
    initializer. *)
Definition clearInit (field : TupleTypeElt) : TupleTypeElt :=
  mkElt (getName field) (getType field) (isVararg field) DAK_None.

(** [stripInitializers].  The callback rebuilds a tuple type from its
    fields with the initializers cleared and the element types as they are.
    [TypeChecker::transformType] is defined in another source file; it is
    modelled the way its other callers here rely on it (they transform the
    children of a type they replace by hand): a node the callback replaces
    is taken as it is, and the transformation goes on into the children of a
    node the callback leaves alone.  A tuple none of whose fields has an
    initializer is rebuilt to the same tuple type, so it is left alone. *)
Fixpoint stripInitializers (t : Ty) {struct t} : Ty :=
  match t with
  | TDependentMember base assoc => TDependentMember (stripInitializers base) assoc
  | TTuple fields =>
      if existsb hasInit fields then TTuple (map clearInit fields)
      else
        TTuple ((fix go (l : list TupleTypeElt) : list TupleTypeElt :=
                   match l with
                   | [] => []
                   | mkElt n ty v i :: l' => mkElt n (stripInitializers ty) v i :: go l'
                   end) fields)
  | TNominal k d (Some parent) => TNominal k d (Some (stripInitializers parent))
  | TMetaType instance => TMetaType (stripInitializers instance)
  | TFunction input result ac nr =>
      TFunction (stripInitializers input) (stripInitializers result) ac nr
  | TArray base n => TArray (stripInitializers base) n
  | TProtocolComposition protocols =>
      TProtocolComposition
        ((fix go (l : list Ty) : list Ty :=
            match l with
            | [] => []
            | ty :: l' => stripInitializers ty :: go l'
            end) protocols)
  | TLValue object quals => TLValue (stripInitializers object) quals
  | TBoundGeneric k d parent args =>
      TBoundGeneric k d
        (match parent with Some q => Some (stripInitializers q) | None => None end)
        ((fix go (l : list Ty) : list Ty :=
            match l with
            | [] => []
            | ty :: l' => stripInitializers ty :: go l'
            end) args)
  | _ => t
  end.

(** Whether some tuple type inside [t] has a field with an initializer. *)
Definition hasInitializer (t : Ty) : bool :=
  findIf (fun x => match x with TTuple fields => existsb hasInit fields | _ => false end) t.

Definition hasTypeVariable (t : Ty) : bool :=
  findIf (fun x => match x with TTypeVariable _ => true | _ => false end) t.

Definition isArchetypeType (t : Ty) : bool :=
  match t with TArchetype _ => true | _ => false end.

(** The running state of a comparison: the two scores and [identical]. *)
Record Scores := mkScores { score1 : Z; score2 : Z; identical : bool }.

(** One iteration of the loop over the overload differences. *)
Definition compareOverload (idx1 idx2 : nat) (s : Scores) (overload : SolutionDiff.OverloadDiff)
    : Scores :=
  match SolutionDiff.choices overload !! idx1, SolutionDiff.choices overload !! idx2 with
  | Some choice1, Some choice2 =>
      if sameOverloadChoice choice1 choice2 then s
      else
        let s := mkScores (score1 s) (score2 s) false in
        if negb (OverloadChoiceKind.eqb (choiceKind choice1) (choiceKind choice2)) then
          match choiceKind choice1, choiceKind choice2 with
          | OverloadChoiceKind.Decl, OverloadChoiceKind.DeclViaDynamic =>
              mkScores (score1 s + 1) (score2 s) (identical s)
          | OverloadChoiceKind.DeclViaDynamic, OverloadChoiceKind.Decl =>
              mkScores (score1 s) (score2 s + 1) (identical s)
          | _, _ => s
          end
        else
          match choiceKind choice1, choiceDecl choice1, choiceDecl choice2 with
          | OverloadChoiceKind.Decl, Some decl1, Some decl2
          | OverloadChoiceKind.DeclViaDynamic, Some decl1, Some decl2 =>
              let s1 := if isDeclAsSpecializedAs TC decl1 decl2
                        then (score1 s + 1)%Z else score1 s in
              let s2 := if isDeclAsSpecializedAs TC decl2 decl1
                        then (score2 s + 1)%Z else score2 s in
              if declHasClangNode TC decl1 && declHasClangNode TC decl2
                 && ((declIsTypeDecl TC decl1 && declIsAbstractFunction TC decl2)
                     || (declIsAbstractFunction TC decl1 && declIsTypeDecl TC decl2))
              then if declIsTypeDecl TC decl1
                   then mkScores s1 (s2 + 1) (identical s)
                   else mkScores (s1 + 1) s2 (identical s)
              else mkScores s1 s2 (identical s)
          | _, _, _ => s
          end
  | _, _ => s
  end.

(** One iteration of the loop over the type-binding differences. *)
Definition compareBinding (cs : ConstraintSystem) (idx1 idx2 : nat) (s : Scores)
    (binding : SolutionDiff.TypeBindingDiff) : Scores :=
  if negb (default false
             (prefersSubtypeBinding <$> TypeVariables cs !! SolutionDiff.typeVar binding))
  then s
  else
    match SolutionDiff.bindings binding !! idx1, SolutionDiff.bindings binding !! idx2 with
    | Some type1, Some type2 =>
        let type1 := stripInitializers type1 in
        let type2 := stripInitializers type2 in
        if Ty_eqb type1 type2 then s
        else if hasTypeVariable type1 || hasTypeVariable type2
        then mkScores (score1 s) (score2 s) false
        else
          let type1Better := isSubtypeOf TC type1 type2 in
          let type2Better := isSubtypeOf TC type2 type1 in
          if type1Better || type2Better then
            let s := mkScores (if type1Better then score1 s + 1 else score1 s)
                              (if type2Better then score2 s + 1 else score2 s)
                              (identical s) in
            let unlabeled1 := getUnlabeledType TC type1 in
            let unlabeled2 := getUnlabeledType TC type2 in
            if Ty_eqb unlabeled1 unlabeled2 && Ty_eqb type1 unlabeled1
            then mkScores (score1 s + 1) (score2 s) (identical s)
            else if Ty_eqb unlabeled1 unlabeled2 && Ty_eqb type2 unlabeled2
            then mkScores (score1 s) (score2 s + 1) (identical s)
            else mkScores (score1 s) (score2 s) false
          else
            let s := mkScores (score1 s) (score2 s) false in
            let type1Better := isConvertibleTo TC type1 type2 in
            let type2Better := isConvertibleTo TC type2 type1 in
            if type1Better || type2Better then
              mkScores (if type1Better then score1 s + 1 else score1 s)
                       (if type2Better then score2 s + 1 else score2 s)
                       (identical s)
            else if negb (Bool.eqb (isArchetypeType type1) (isArchetypeType type2)) then
              if isArchetypeType type1
              then mkScores (score1 s) (score2 s + 1) (identical s)
              else mkScores (score1 s + 1) (score2 s) (identical s)
            else s
    | _, _ => s
    end.

(** [ConstraintSystem::compareSolutions] *)
Definition compareSolutions (cs : ConstraintSystem) (solutions : list Solution)
    (diff : SolutionDiff.t) (idx1 idx2 : nat) : SolutionCompareResult :=
  let s0 := mkScores (default 0%Z (fixedScore <$> solutions !! idx1))
                     (default 0%Z (fixedScore <$> solutions !! idx2)) true in
  let s := fold_left (compareOverload idx1 idx2) (SolutionDiff.overloads diff) s0 in
  let s := fold_left (compareBinding cs idx1 idx2) (SolutionDiff.typeBindings diff) s in
  if negb (Z.eqb (score1 s) (score2 s)) then
    if Z.ltb (score2 s) (score1 s) then Better else Worse
  else if identical s then Identical else Incomparable.

End Ranking.

Section FindBest.

(** The comparator: [compareSolutions] on the indices [i] and [j] of
    [viable]. *)
Variable compare : nat -> nat -> SolutionCompareResult.

Definition isLoser (losers : list bool) (i : nat) : bool := default false (losers !! i).

(** "Find a potential best": one iteration of the first loop. *)
Definition potentialBestStep (st : list bool * nat) (i : nat) : list bool * nat :=
  let '(losers, bestIdx) := st in
  match compare i bestIdx with
  | Identical | Incomparable => (losers, bestIdx)
  | Worse => (<[i := true]> losers, bestIdx)
  | Better => (<[bestIdx := true]> losers, i)
  end.

(** "Make sure that our current best is better than all of the solved
    systems": [None] is the eager [return Nothing], otherwise the losers and
    the flag [ambiguous]; the loop stops as soon as the flag is set. *)
Fixpoint confirmBest (minimize : bool) (bestIdx : nat) (indices : list nat)
    (losers : list bool) : option (list bool * bool) :=
  match indices with
  | [] => Some (losers, false)
  | i :: rest =>
      if Nat.eqb i bestIdx then confirmBest minimize bestIdx rest losers
      else match compare bestIdx i with
           | Identical => confirmBest minimize bestIdx rest losers
           | Better => confirmBest minimize bestIdx rest (<[i := true]> losers)
           | Worse =>
               if negb minimize then None
               else Some (<[bestIdx := true]> losers, true)
           | Incomparable =>
               if negb minimize then None
               else Some (losers, true)
           end
  end.

(** The inner loop of the sweep, for a fixed [i]. *)
Fixpoint sweepInner (i : nat) (js : list nat) (losers : list bool) : list bool :=
  match js with
  | [] => losers
  | j :: rest =>
      if isLoser losers j then sweepInner i rest losers
      else match compare i j with
           | Identical | Incomparable => sweepInner i rest losers
           | Better => sweepInner i rest (<[j := true]> losers)
           | Worse => sweepInner i rest (<[i := true]> losers)
           end
  end.

(** "Identify any solutions that are worse than any other solution." *)
Fixpoint sweep (n : nat) (indices : list nat) (losers : list bool) : list bool :=
  match indices with
  | [] => losers
  | i :: rest =>
      if isLoser losers i then sweep n rest losers
      else sweep n rest (sweepInner i (seq (S i) (n - S i)) losers)
  end.

(** "Remove any solution that is worse than some other solution." *)
Fixpoint removeLosers {A} (viable : list A) (i : nat) (losers : list bool) : list A :=
  match viable with
  | [] => []
  | v :: rest =>
      if isLoser losers i then removeLosers rest (S i) losers
      else v :: removeLosers rest (S i) losers
  end.

(** [ConstraintSystem::findBestSolution] over a given comparator: the
    returned index, if any, and the vector [viable] as the call leaves it. *)
Definition findBestSolutionWith {A} (viable : list A) (minimize : bool)
    : option nat * list A :=
  match viable with
  | [] => (None, viable)
  | [_] => (Some 0, viable)
  | _ =>
      let n := length viable in
      let '(losers, bestIdx) :=
        fold_left potentialBestStep (seq 1 (n - 1)) (replicate n false, 0) in
      match confirmBest minimize bestIdx (seq 0 n) losers with
      | None => (None, viable)
      | Some (losers, false) => (Some bestIdx, viable)
      | Some (losers, true) =>
          let losers := sweep n (seq 0 n) losers in
          (None, removeLosers viable 0 losers)
      end
  end.

End FindBest.

(** [ConstraintSystem::findBestSolution] *)
Definition findBestSolution (TC : TypeChecker) (cs : ConstraintSystem)
    (viable : list Solution) (minimize : bool) : option nat * list Solution :=
  findBestSolutionWith (compareSolutions TC cs viable (mkSolutionDiff TC viable))
    viable minimize.

(* ===================================================================== *)
(** ** Concrete types and environments used by the examples *)
(* ===================================================================== *)

Module Examples.

Definition IntDecl : DeclId := 1.
Definition OptionalDecl : DeclId := 2.

Definition Int : Ty := TNominal Struct IntDecl None.

(** [(x: Int, Int)], [(Int, x: Int)] and [(Int, Int)] *)
Definition tuple_x_Int_Int : list TupleTypeElt :=
  [mkElt "x" Int false DAK_None; mkElt "" Int false DAK_None].
Definition tuple_Int_x_Int : list TupleTypeElt :=
  [mkElt "" Int false DAK_None; mkElt "x" Int false DAK_None].
Definition tuple_Int_Int : list TupleTypeElt :=
  [mkElt "" Int false DAK_None; mkElt "" Int false DAK_None].

(** The environments of the examples: no classes and no conformances; the
    protocol inheritance, the member lookups, the invalid declarations and the
    subtype relation of the ranker are the parameters. *)
Definition envTC (inherits : DeclId -> DeclId -> bool)
    (members : Ty -> Identifier -> list DeclId)
    (memberTypes : Ty -> Identifier -> list (DeclId * Ty))
    (invalid : DeclId -> bool) (subtype : Ty -> Ty -> bool) : TypeChecker := {|
  getSuperClassOf := fun _ => None;
  conformsToProtocol := fun _ _ => false;
  inheritsFrom := inherits;
  TC_lookupMember := members;
  lookupConstructors := fun _ => [];
  lookupMemberType := memberTypes;
  getOptionalDecl := OptionalDecl;
  getFieldForScalarInit := fun _ => (-1)%Z;
  getVarargBaseTy := getType;
  archetypeMayHaveSuperclass := fun _ => false;
  archetypeRequiresClass := fun _ => false;
  archetypeSuperclass := fun _ => None;
  archetypeIsNestedOrSelf := fun _ => false;
  protocolRequiresClass := fun _ => false;
  isDynamicLookupProtocol := fun _ => false;
  dynamicResultSignature := fun _ => (EmptyString, TError);
  hasMandatoryTupleLabels := fun _ => false;
  declType := fun _ => TError;
  declIsInvalid := invalid;
  declIsInstanceMember := fun _ => true;
  declIsFunc := fun _ => false;
  declIsConstructor := fun _ => false;
  declIsSubscript := fun _ => false;
  declIsOptional := fun _ => false;
  declIsAssignment := fun _ => false;
  declIsTypeDecl := fun _ => false;
  declIsAbstractFunction := fun _ => false;
  declHasClangNode := fun _ => false;
  declIsInTypeContext := fun _ => true;
  getUnlabeledType := fun t => t;
  isDeclAsSpecializedAs := fun _ _ => false;
  isSubtypeOf := subtype;
  isConvertibleTo := fun _ _ => false;
  getTypeOfMemberReference := fun base _ _ _ => ret (base, base);
  getTypeOfReference := fun _ _ _ => ret (TError, TError)
|}.

(** Every lookup is empty and every relation is empty. *)
Definition bareTC : TypeChecker :=
  envTC (fun _ _ => false) (fun _ _ => []) (fun _ _ => []) (fun _ => false)
    (fun _ _ => false).

(** Every type has a user-defined conversion member (declaration 5). *)
Definition convertingTC : TypeChecker :=
  envTC (fun _ _ => false)
    (fun _ name => if String.eqb name "__conversion" then [5] else [])
    (fun _ _ => []) (fun _ => false) (fun _ _ => false).

(** Two protocols, [Q] inheriting from [P]. *)
Definition PDecl : DeclId := 10.
Definition QDecl : DeclId := 11.
Definition inheritingTC : TypeChecker :=
  envTC (fun a b => Nat.eqb a QDecl && Nat.eqb b PDecl)
    (fun _ _ => []) (fun _ _ => []) (fun _ => false) (fun _ _ => false).

(** The member-type lookup finds one declaration (6), which is invalid. *)
Definition invalidMemberTC : TypeChecker :=
  envTC (fun _ _ => false) (fun _ _ => []) (fun _ _ => [(6, Int)]) (fun _ => true)
    (fun _ _ => false).

(** A constraint system without type variables, that records failures
    and is inside a search ([solverState] is present). *)
Definition emptySolverState : SolverState := mkSolverState [] (Some []) [] [].
Definition emptyCS : ConstraintSystem := mkCS [] [] None (Some emptySolverState) [] true [].

(** Two unbound type variables; only the first may bind to an lvalue. *)
Definition twoVariablesCS : ConstraintSystem :=
  mkCS [mkTypeVar None true false (Parent 0); mkTypeVar None false false (Parent 1)]
    [] None None [] true [].

(** One unbound type variable, which may bind to an lvalue. *)
Definition oneVariableCS : ConstraintSystem :=
  mkCS [mkTypeVar None true false (Parent 0)] [] None (Some emptySolverState) [] true [].

Definition noLocator : ConstraintLocatorBuilder := mkBuilder None [].

End Examples.

(** The queue of unsolved constraints after [constraint] has been added to
    it ([addConstraint] on a constraint that stays unsolved). *)
Definition enqueue (constraint : Constraint) (cs : ConstraintSystem) : ConstraintSystem :=
  mkCS (TypeVariables cs) (Constraints cs ++ [constraint]) (failedConstraint cs)
       ((fun ss => mkSolverState (retiredConstraints ss)
                     ((fun g => constraint :: g) <$> generatedConstraints ss)
                     (constraintRestrictions ss) (savedBindings ss)) <$> solverState cs)
       (resolvedOverloadSets cs) (recordFailures cs) (failures cs).

(** The state after a failure record has been appended, when recording is
    enabled. *)
Definition withFailure (f : FailureRecord) (cs : ConstraintSystem) : ConstraintSystem :=
  if recordFailures cs
  then mkCS (TypeVariables cs) (Constraints cs) (failedConstraint cs) (solverState cs)
            (resolvedOverloadSets cs) (recordFailures cs) (failures cs ++ [f])
  else cs.



(** The base of a member constraint as [simplifyMemberConstraint] sees it:
    the object type of the simplified base and its instance type. *)
Definition baseObjectType (baseTy : Ty) : Ty := getRValueType baseTy.

Definition baseInstanceType (baseTy : Ty) : Ty :=
  match getRValueType baseTy with
  | TMetaType instance => instance
  | t => t
  end.

Definition isTypeVariable (t : Ty) : bool :=
  match t with TTypeVariable _ => true | _ => false end.

Definition isTupleType (t : Ty) : bool :=
  match t with TTuple _ => true | _ => false end.

Definition baseIsMetatype (baseTy : Ty) : bool :=
  match getRValueType baseTy with TMetaType _ => true | _ => false end.

Definition baseIsDynamicLookup (TC : TypeChecker) (baseTy : Ty) : bool :=
  match baseInstanceType baseTy with
  | TProtocol protoTy => isDynamicLookupProtocol TC protoTy
  | _ => false
  end.

(** The identity choice: the base type itself. *)
Definition identityChoice (baseTy : Ty) : OverloadChoice :=
  mkChoice (Some baseTy) OverloadChoiceKind.BaseType None 0 false.

(** Solution [i] is strictly better than solution [j] in some comparison:
    [i] against [j] is Better, or [j] against [i] is Worse. *)
Definition beats (compare : nat -> nat -> SolutionCompareResult) (i j : nat) : Prop :=
  compare i j = Better \/ compare j i = Worse.

(** Every solution marked as a loser is one that another solution beats. *)
Definition justified (compare : nat -> nat -> SolutionCompareResult) (n : nat)
    (losers : list bool) : Prop :=
  forall j, isLoser losers j = true -> exists i, i < n /\ i <> j /\ beats compare i j.

(** The comparison of [i] against [j] is not strict. *)
Definition tied (compare : nat -> nat -> SolutionCompareResult) (i j : nat) : Prop :=
  compare i j = Identical \/ compare i j = Incomparable.

(** The element-wise comparison of two lists, as [Ty_eqb] does it. *)
Definition list_eqb {A} (f : A -> A -> bool) : list A -> list A -> bool :=
  fix go (l r : list A) {struct l} : bool :=
    match l, r with
    | [], [] => true
    | x :: l', y :: r' => f x y && go l' r'
    | _, _ => false
    end.

(** The comparator of [findBestSolution]: [compareSolutions] on the
    solution diff of [viable]. *)
Definition comparator (TC : TypeChecker) (cs : ConstraintSystem) (viable : list Solution)
    : nat -> nat -> SolutionCompareResult :=
  compareSolutions TC cs viable (mkSolutionDiff TC viable).

(** Two solutions of a system with one type variable that prefers subtype
    bindings. *)
Definition rankedCS : ConstraintSystem :=
  mkCS [mkTypeVar None true true (Parent 0)] [] None None [] true [].
Definition OtherDecl : DeclId := 7.
Definition scoredSolutions : list Solution :=
  [mkSolution [] [] 1; mkSolution [] [] 0].
Definition unrelatedSolutions : list Solution :=
  [mkSolution [(0, Examples.Int)] [] 0; mkSolution [(0, TNominal Struct OtherDecl None)] [] 0].

(** The result of a comparison seen from the other side. *)
Definition flipResult (r : SolutionCompareResult) : SolutionCompareResult :=
  match r with
  | Better => Worse
  | Worse => Better
  | Identical => Identical
  | Incomparable => Incomparable
  end.

Definition flipScores (s : Scores) : Scores :=
  mkScores (score2 s) (score1 s) (identical s).

(** The source elements that a mapping refers to: its non-negative
    entries. *)
Definition sourceIndices (srcs : list Z) : list nat :=
  omap (fun z : Z => if (0 <=? z)%Z then Some (Z.to_nat z) else None) srcs.

(** A source element may fill a target element: the labels agree, or the
    source is unlabelled, or labels are optional and the target is
    unlabelled. *)
Definition labelOk (mandatory : bool) (e1 e2 : TupleTypeElt) : Prop :=
  (hasName e2 = true /\ getName e1 = getName e2)
  \/ hasName e1 = false
  \/ (mandatory = false /\ hasName e2 = false).

(** What an entry of the mapping may be at target position [i]. *)
Definition entryOk (fromTuple toTuple : list TupleTypeElt) (mandatory : bool)
    (i : nat) (z : Z) : Prop :=
  z = unassigned
  \/ (z = TupleShuffleExpr.DefaultInitialize
      /\ exists e, toTuple !! i = Some e /\ hasInit e = true)
  \/ (z = TupleShuffleExpr.FirstVariadic
      /\ exists e, toTuple !! i = Some e /\ isVararg e = true)
  \/ (exists j e1 e2, z = Z.of_nat j /\ fromTuple !! j = Some e1 /\ toTuple !! i = Some e2
                      /\ labelOk mandatory e1 e2).

(** The invariant of the two loops of [computeTupleShuffle]: the consumed
    inputs are exactly the ones the mapping and the variadic list refer to,
    each once, and every entry of the mapping is legal. *)
Definition coreInv (fromTuple toTuple : list TupleTypeElt) (mandatory : bool)
    (srcs : list Z) (vargs : list nat) (used : list bool) : Prop :=
  length srcs = length toTuple
  /\ length used = length fromTuple
  /\ NoDup (sourceIndices srcs ++ vargs)
  /\ (forall j, used !! j = Some true <-> j ∈ sourceIndices srcs ++ vargs)
  /\ (forall i z, srcs !! i = Some z -> entryOk fromTuple toTuple mandatory i z)
  /\ (forall j, j ∈ vargs -> exists e, fromTuple !! j = Some e /\ hasName e = false).

(** The invariant of the cursor [fromNext]: everything before it is
    consumed, and it rests on an input that is not. *)
Definition cursorInv (fromLast : nat) (used : list bool) (next : nat) : Prop :=
  next <= fromLast
  /\ (forall j, j < next -> used !! j = Some true)
  /\ (next = fromLast \/ used !! next = Some false).

(** The two loops of [computeTupleShuffle], before the final test. *)
Definition shuffleRun (fromTuple toTuple : list TupleTypeElt) (mandatory : bool)
    : ShuffleState + ShuffleState :=
  let '(srcs, used) :=
    matchNamed fromTuple toTuple 0 (replicate (length toTuple) unassigned)
      (replicate (length fromTuple) false) in
  resolveUnmatched fromTuple (length fromTuple) mandatory toTuple 0
    (mkShuffle srcs [] used (skipToNextAvailableInput (length fromTuple) used 0)).

(** The variadic element of a tuple type, if there is one, is its last
    element. *)
Definition varargIsLast (fields : list TupleTypeElt) : Prop :=
  forall i e, fields !! i = Some e -> isVararg e = true -> S i = length fields.

(** Whether element [k] of the tuple type [t] is labelled. *)
Definition namedAt (t : list TupleTypeElt) (k : nat) : bool :=
  default false (hasName <$> t !! k).

(** Shuffling [t] into itself: the state of the first loop after the first
    [i] target elements, and that of the second loop. *)
Definition selfNamed (t : list TupleTypeElt) (i : nat) (srcs : list Z) (used : list bool)
    : Prop :=
  length srcs = length t /\ length used = length t
  /\ (forall k, k < length t ->
        srcs !! k = Some (if (k <? i) && namedAt t k then Z.of_nat k else unassigned))
  /\ (forall k, k < length t -> used !! k = Some ((k <? i) && namedAt t k)).

Definition selfResolved (t : list TupleTypeElt) (i : nat) (s : ShuffleState) : Prop :=
  length (sources s) = length t /\ length (consumed s) = length t
  /\ variadicArgs s = []
  /\ (forall k, k < length t ->
        sources s !! k = Some (if (k <? i) || namedAt t k then Z.of_nat k else unassigned))
  /\ (forall k, k < length t -> consumed s !! k = Some ((k <? i) || namedAt t k))
  /\ cursorInv (length t) (consumed s) (fromNext s).

Definition isBuiltin (t : Ty) : bool :=
  match t with TBuiltin _ _ => true | _ => false end.

(** Partial correctness in the state monad: every value that [m] returns
    satisfies [Q]. *)
Definition posts {A} (m : M A) (Q : A -> Prop) : Prop :=
  forall cs a cs', m cs = Done (a, cs') -> Q a.

(** A matcher that never answers Unsolved. *)
Definition decided (r : SolutionKind) : Prop := r <> Unsolved.

Definition decidedFlow {A} (f : Flow SolutionKind A) : Prop :=
  match f with
  | Return r => decided r
  | Continue _ => True
  end.

(** The user-conversion candidate is offered only for a source type that
    has a conversion member. *)
Definition userOnlyIfConvertible (TC : TypeChecker) (type1 : Ty)
    (l : list ConversionRestrictionKind.t) : Prop :=
  ConversionRestrictionKind.User ∈ l -> shouldTryUserConversion TC type1 = true.

(* ===================================================================== *)
(** ** Checked casts in the type checker *)
(* ===================================================================== *)

(** The diagnostics of [TypeChecker::typeCheckCheckedCast]. *)
Inductive CastDiagnostic :=
| downcast_to_non_objc_existential
| downcast_from_existential_to_unrelated
| downcast_from_archetype_to_unrelated
| downcast_from_concrete_to_unrelated_archetype
| downcast_to_unrelated.

Section TypeCheckCheckedCast.

Variable TC : TypeChecker.
(** [ProtocolDecl::isObjC] and [ClassDecl::isObjC] *)
Variable protocolIsObjC : DeclId -> bool.
Variable classIsObjC : DeclId -> bool.
(** [TypeChecker::isSubstitutableFor(type, archetype)] *)
Variable isSubstitutableFor : Ty -> nat -> bool.
(** The callback [convertToType]; [true] reports a failure. *)
Variable convertToType : Ty -> bool.

(** [TypeChecker::typeCheckCheckedCast]: the kind of the cast and the
    diagnostic emitted, if any. *)
Definition typeCheckCheckedCast (fromType toType : Ty)
    : CheckedCastKind * option CastDiagnostic :=
  let toArchetype := match toType with TArchetype _ => true | _ => false end in
  let fromArchetype := match fromType with TArchetype _ => true | _ => false end in
  let toProtocols := existentialProtocols toType in
  let fromProtocols := existentialProtocols fromType in
  if Ty_eqb fromType toType || isConvertibleTo TC fromType toType
  then (CCK_Coercion, None)
  else
    match toProtocols with
    | Some toProtocols =>
        let fromOk :=
          match fromProtocols with
          | Some fromProtocols => forallb protocolIsObjC fromProtocols
          | None =>
              match getClassOrBoundGenericClass fromType with
              | Some fromClass => classIsObjC fromClass
              | None => false
              end
          end in
        if fromOk && forallb protocolIsObjC toProtocols
        then (CCK_ConcreteToUnrelatedExistential, None)
        else (CCK_Unresolved, Some downcast_to_non_objc_existential)
    | None =>
        if fromArchetype && toArchetype then (CCK_ArchetypeToArchetype, None)
        else if isSome fromProtocols then
          if toArchetype then (CCK_ExistentialToArchetype, None)
          else if isConvertibleTo TC toType fromType then (CCK_ExistentialToConcrete, None)
          else (CCK_Unresolved, Some downcast_from_existential_to_unrelated)
        else
          match fromType with
          | TArchetype fromArch =>
              if negb (isSubstitutableFor toType fromArch)
              then (CCK_Unresolved, Some downcast_from_archetype_to_unrelated)
              else (CCK_ArchetypeToConcrete, None)
          | _ =>
              match toType with
              | TArchetype toArch =>
                  match archetypeSuperclass TC toArch with
                  | Some toSuperType =>
                      if convertToType toSuperType then (CCK_Unresolved, None)
                      else (CCK_SuperToArchetype, None)
                  | None =>
                      if isSubstitutableFor fromType toArch
                      then (CCK_ConcreteToArchetype, None)
                      else (CCK_Unresolved, Some downcast_from_concrete_to_unrelated_archetype)
                  end
              | _ =>
                  if negb (isSubtypeOf TC toType fromType)
                  then (CCK_Unresolved, Some downcast_to_unrelated)
                  else (CCK_Downcast, None)
              end
          end
    end.

End TypeCheckCheckedCast.

(** An environment with dynamic lookup: protocol 20 is the dynamic-lookup
    protocol, and looking a member up in it finds the declarations 30, 31 and
    32, of which 30 and 32 have the same selector and result type. *)
Definition DynamicLookupDecl : DeclId := 20.
Definition dynamicTC : TypeChecker := {|
  getSuperClassOf := getSuperClassOf Examples.bareTC;
  conformsToProtocol := conformsToProtocol Examples.bareTC;
  inheritsFrom := inheritsFrom Examples.bareTC;
  TC_lookupMember := fun _ _ => [30; 31; 32];
  lookupConstructors := lookupConstructors Examples.bareTC;
  lookupMemberType := lookupMemberType Examples.bareTC;
  getOptionalDecl := getOptionalDecl Examples.bareTC;
  getFieldForScalarInit := getFieldForScalarInit Examples.bareTC;
  getVarargBaseTy := getVarargBaseTy Examples.bareTC;
  archetypeMayHaveSuperclass := archetypeMayHaveSuperclass Examples.bareTC;
  archetypeRequiresClass := archetypeRequiresClass Examples.bareTC;
  archetypeSuperclass := archetypeSuperclass Examples.bareTC;
  archetypeIsNestedOrSelf := archetypeIsNestedOrSelf Examples.bareTC;
  protocolRequiresClass := protocolRequiresClass Examples.bareTC;
  isDynamicLookupProtocol := fun d => Nat.eqb d DynamicLookupDecl;
  dynamicResultSignature := fun d => (if Nat.eqb d 31 then "g-" else "f-", Examples.Int);
  hasMandatoryTupleLabels := hasMandatoryTupleLabels Examples.bareTC;
  declType := declType Examples.bareTC;
  declIsInvalid := declIsInvalid Examples.bareTC;
  declIsInstanceMember := declIsInstanceMember Examples.bareTC;
  declIsFunc := declIsFunc Examples.bareTC;
  declIsConstructor := declIsConstructor Examples.bareTC;
  declIsSubscript := declIsSubscript Examples.bareTC;
  declIsOptional := declIsOptional Examples.bareTC;
  declIsAssignment := declIsAssignment Examples.bareTC;
  declIsTypeDecl := declIsTypeDecl Examples.bareTC;
  declIsAbstractFunction := declIsAbstractFunction Examples.bareTC;
  declHasClangNode := declHasClangNode Examples.bareTC;
  declIsInTypeContext := declIsInTypeContext Examples.bareTC;
  getUnlabeledType := getUnlabeledType Examples.bareTC;
  isDeclAsSpecializedAs := isDeclAsSpecializedAs Examples.bareTC;
  isSubtypeOf := isSubtypeOf Examples.bareTC;
  isConvertibleTo := isConvertibleTo Examples.bareTC;
  getTypeOfMemberReference := getTypeOfMemberReference Examples.bareTC;
  getTypeOfReference := getTypeOfReference Examples.bareTC
|}.

(** One step of the intersection that [SolutionDiff::SolutionDiff]
    computes: every entry is extended with the value that the next solution
    has for its key, and dropped when the solution has none. *)
Definition extendCommon {A B Sol} (f : A -> Sol -> option B)
    (acc : list (A * list B)) (solution : Sol) : list (A * list B) :=
  omap (fun entry : A * list B =>
          match f (fst entry) solution with
          | Some known => Some (fst entry, snd entry ++ [known])
          | None => None
          end) acc.

(** An entry is aligned with the solutions processed so far: it holds one
    value per solution, the first one from the first solution and the others
    as the solutions have them. *)
Definition alignedEntry {A B Sol} (f : A -> Sol -> option B) (first : list (A * B))
    (processed : list Sol) (entry : A * list B) : Prop :=
  length (snd entry) = S (length processed)
  /\ (exists a, snd entry !! 0 = Some a /\ (fst entry, a) ∈ first)
  /\ (forall i s, processed !! i = Some s -> snd entry !! S i = f (fst entry) s
                   /\ is_Some (f (fst entry) s)).

(* ===================================================================== *)
(** ** References to operators *)
(* ===================================================================== *)

(** What [matchesDeclRefKind] reads off a value declaration. *)
Record ValueDecl := mkValueDecl {
  valueType : Ty;
  valueIsFunc : bool;
  valueInTypeContext : bool;
  valueIsPostfix : bool
}.

Inductive DeclRefKind := Ordinary | BinaryOperator | PostfixOperator | PrefixOperator.

(** [castTo<AnyFunctionType>()]: [None] is the failed assertion. *)
Definition castToAnyFunction (t : Ty) : option (Ty * Ty) :=
  match t with
  | TFunction input result _ _ | TPolymorphicFunction input result
  | TGenericFunction input result => Some (input, result)
  | _ => None
  end.

(** [getNumArgs]; [~0U] is 4294967295. *)
Definition getNumArgs (value : ValueDecl) : option N :=
  if negb (valueIsFunc value) then Some 4294967295%N
  else
    match castToAnyFunction (valueType value) with
    | None => None
    | Some fnTy =>
        match (if valueInTypeContext value then castToAnyFunction (snd fnTy)
               else Some fnTy) with
        | None => None
        | Some fnTy =>
            match fst fnTy with
            | TTuple fields => Some (N.of_nat (length fields))
            | _ => Some 1%N
            end
        end
    end.

(** [matchesDeclRefKind] *)
Definition matchesDeclRefKind (value : ValueDecl) (refKind : DeclRefKind) : option bool :=
  match valueType value with
  | TError => Some true
  | _ =>
      match refKind with
      | Ordinary => Some true
      | BinaryOperator => (fun numArgs => N.eqb numArgs 2) <$> getNumArgs value
      | PrefixOperator =>
          if negb (valueIsPostfix value)
          then (fun numArgs => N.eqb numArgs 1) <$> getNumArgs value
          else Some false
      | PostfixOperator =>
          if valueIsPostfix value
          then (fun numArgs => N.eqb numArgs 1) <$> getNumArgs value
          else Some false
      end
  end.

(** The least permissive kind at which a conversion restriction may be
    offered as a candidate. *)
Definition minimalKind (p : ConversionRestrictionKind.t) : TypeMatchKind.t :=
  match p with
  | ConversionRestrictionKind.TupleToTuple
  | ConversionRestrictionKind.DeepEquality => TypeMatchKind.BindType
  | ConversionRestrictionKind.ScalarToTuple
  | ConversionRestrictionKind.TupleToScalar
  | ConversionRestrictionKind.Superclass => TypeMatchKind.TrivialSubtype
  | ConversionRestrictionKind.Existential => TypeMatchKind.Subtype
  | ConversionRestrictionKind.LValueToRValue
  | ConversionRestrictionKind.ValueToOptional
  | ConversionRestrictionKind.OptionalToOptional
  | ConversionRestrictionKind.User => TypeMatchKind.Conversion
  end.

(** Every candidate of the list may be offered at [kind]. *)
Definition gatedBy (kind : TypeMatchKind.t) (l : list ConversionRestrictionKind.t) : Prop :=
  Forall (fun p => TypeMatchKind.geb kind (minimalKind p) = true) l.

Definition isLValue (t : Ty) : bool :=
  match t with TLValue _ _ => true | _ => false end.

(** What a step of the solver leaves in place: the pending constraints and
    the failure records stay where they are (new ones are appended), the
    first failed constraint is kept, and no type variable is removed. *)
Definition extends (cs cs' : ConstraintSystem) : Prop :=
  Constraints cs `prefix_of` Constraints cs'
  /\ (forall c, failedConstraint cs = Some c -> failedConstraint cs' = Some c)
  /\ length (TypeVariables cs) <= length (TypeVariables cs')
  /\ failures cs `prefix_of` failures cs'.

Definition preserving {A} (m : M A) : Prop :=
  forall cs a cs', m cs = Done (a, cs') -> extends cs cs'.

(** The oracles that work on the constraint system keep it in place too. *)
Definition preservingOracles (TC : TypeChecker) : Prop :=
  (forall baseTy decl isTypeReference isDynamicResult,
     preserving (getTypeOfMemberReference TC baseTy decl isTypeReference isDynamicResult))
  /\ (forall decl isTypeReference isSpecialized,
        preserving (getTypeOfReference TC decl isTypeReference isSpecialized)).

(* ===================================================================== *)
(** * Properties *)
(* ===================================================================== *)

(** ** Unfolding the recursion *)

Lemma matchTypes_S TC n t1 t2 k fl loc :
  matchTypes TC (S n) t1 t2 k fl loc = matchTypes_body TC (recursion TC n) t1 t2 k fl loc.
Proof. reflexivity. Qed.

Lemma addConstraint_S TC n c e s :
  addConstraint TC (S n) c e s = addConstraint_body TC (recursion TC n) c e s.
Proof. reflexivity. Qed.

(** A disjunction is never solved by the simplifier: adding one queues it. *)
Lemma addConstraint_disjunction TC n nested loc cs :
  addConstraint TC (S n) (createDisjunction nested loc) false false cs
  = Done (false, enqueue (createDisjunction nested loc) cs).
Proof. reflexivity. Qed.

(** ** The type-variable store *)

Lemma representativeLoop_root tvs k tv rep :
  representativeLoop tvs k tv = Done rep ->
  exists impl, tvs !! rep = Some impl /\
    (ParentOrFixed impl = Parent rep \/ exists t, ParentOrFixed impl = Fixed t).
Proof.
  revert tv. induction k as [|k IH]; intros tv; simpl.
  - destruct (tvs !! tv) as [impl|] eqn:E; [|discriminate].
    destruct (ParentOrFixed impl) as [p|t] eqn:P.
    + destruct (Nat.eqb p tv) eqn:Q; [|discriminate].
      intros [= <-]. apply Nat.eqb_eq in Q. subst. eauto.
    + intros [= <-]. eauto.
  - destruct (tvs !! tv) as [impl|] eqn:E; [|discriminate].
    destruct (ParentOrFixed impl) as [p|t] eqn:P.
    + destruct (Nat.eqb p tv) eqn:Q.
      * intros [= <-]. apply Nat.eqb_eq in Q. subst. eauto.
      * apply IH.
    + intros [= <-]. eauto.
Qed.

Lemma representativeLoop_self tvs k rep impl :
  tvs !! rep = Some impl -> ParentOrFixed impl = Parent rep ->
  representativeLoop tvs k rep = Done rep.
Proof.
  intros E P. destruct k; simpl; rewrite E, P, Nat.eqb_refl; reflexivity.
Qed.

(** The representative of an unbound variable is a root without a fixed
    type. *)
Lemma unbound_root tv rep cs :
  getRepresentative tv cs = Done rep -> getFixedType tv cs = Done None ->
  exists impl, TypeVariables cs !! rep = Some impl /\ ParentOrFixed impl = Parent rep.
Proof.
  unfold getFixedType, getRepresentative. intros Hr. rewrite Hr.
  destruct (representativeLoop_root _ _ _ _ Hr) as (impl & E & [P | [t P]]).
  - eauto.
  - rewrite E, P. discriminate.
Qed.

Lemma root_representative rep cs impl :
  TypeVariables cs !! rep = Some impl -> ParentOrFixed impl = Parent rep ->
  getRepresentative rep cs = Done rep /\ getFixedType rep cs = Done None.
Proof.
  intros E P. unfold getFixedType, getRepresentative.
  rewrite (representativeLoop_self _ _ _ _ E P), E, P. done.
Qed.

Lemma getFixedTypeRecursive_unbound tv w cs :
  getFixedType tv cs = Done None ->
  getFixedTypeRecursive (TTypeVariable tv) w cs = Done ((TTypeVariable tv, Some tv), cs).
Proof.
  intros H. unfold getFixedTypeRecursive.
  assert (E : (if w then getRValueType (TTypeVariable tv) else TTypeVariable tv)
              = TTypeVariable tv) by (destruct w; reflexivity).
  rewrite E. unfold bind, liftRes.
  destruct (length (TypeVariables cs)); simpl; rewrite H; reflexivity.
Qed.

(** ** Tuple shuffles (claim C2) *)

(** C2, the claim as stated fails: the shuffle from [(x: Int, Int)] into
    [(Int, x: Int)] does not fail, whether or not the source labels are
    mandatory: the first component of the result ([true] for "no shuffle")
    is [false]. *)
Lemma C2_shuffle_into_relabelled_tuple_succeeds :
  (computeTupleShuffle Examples.tuple_x_Int_Int Examples.tuple_Int_x_Int true).1.1 = false
  /\ (computeTupleShuffle Examples.tuple_x_Int_Int Examples.tuple_Int_x_Int false).1.1 = false.
Proof. split; reflexivity. Qed.

(** C2, amended: the shuffle from [(x: Int, Int)] into [(Int, x: Int)]
    succeeds with the source mapping [1, 0] (the element named [x] is matched
    by name, the unnamed source element fills the remaining slot), for
    mandatory and for optional source labels alike; the shuffle into
    [(Int, Int)] with source labels not mandatory succeeds with the
    positional mapping [0, 1]. *)
Theorem C2_tuple_shuffle_examples :
  (forall mandatory,
     computeTupleShuffle Examples.tuple_x_Int_Int Examples.tuple_Int_x_Int mandatory
     = (false, [1%Z; 0%Z], []))
  /\ computeTupleShuffle Examples.tuple_x_Int_Int Examples.tuple_Int_Int false
     = (false, [0%Z; 1%Z], []).
Proof. split; [intros []|]; reflexivity. Qed.

(** ** Merging type variables (claim C5) *)

Section MergeVariables.

Variable TC : TypeChecker.
Variables (cs : ConstraintSystem) (tv1 tv2 rep1 rep2 : nat) (lv1 lv2 : bool).
Variable kind : TypeMatchKind.t.
Hypothesis Hkind : kind = TypeMatchKind.BindType \/ kind = TypeMatchKind.SameType.
Hypothesis Hf1 : getFixedType tv1 cs = Done None.
Hypothesis Hf2 : getFixedType tv2 cs = Done None.
Hypothesis Hr1 : getRepresentative tv1 cs = Done rep1.
Hypothesis Hr2 : getRepresentative tv2 cs = Done rep2.
Hypothesis Hne : rep1 <> rep2.
Hypothesis Hl1 : tvCanBindToLValue rep1 cs = Done lv1.
Hypothesis Hl2 : tvCanBindToLValue rep2 cs = Done lv2.

Lemma distinct_variables : Nat.eqb tv1 tv2 = false.
Proof. apply Nat.eqb_neq. intros ->. rewrite Hr1 in Hr2. congruence. Qed.

(** [matchTypes] on the two variables is the type-variable case. *)
Lemma matchTypes_two_variables n flags loc :
  matchTypes TC (S n) (TTypeVariable tv1) (TTypeVariable tv2) kind flags loc cs
  = match unifyTypeVariables (recursion TC n) (TTypeVariable tv1) (TTypeVariable tv2)
            (Some tv1) (Some tv2) kind flags loc cs with
    | Done (Return r, cs') => Done (r, cs')
    | Done (Continue _, cs') =>
        bind (potentialConversionsOf TC (recursion TC n) (TTypeVariable tv1)
                (TTypeVariable tv2) (Some tv1) (Some tv2) kind flags loc)
          (fun candidates =>
             match candidates with
             | Return r => ret r
             | Continue potentialConversions =>
                 commitToConversions TC (recursion TC n) potentialConversions
                   (TTypeVariable tv1) (TTypeVariable tv2) (Some tv1) (Some tv2)
                   kind flags loc
             end) cs'
    | Abort => Abort
    | Timeout => Timeout
    end.
Proof.
  rewrite matchTypes_S. unfold matchTypes_body.
  unfold bind at 1. rewrite (getFixedTypeRecursive_unbound _ _ _ Hf1).
  unfold bind at 1. rewrite (getFixedTypeRecursive_unbound _ _ _ Hf2).
  cbn [Ty_eqb]. rewrite distinct_variables. cbn [isSome orb].
  unfold bind at 1.
  destruct (unifyTypeVariables _ _ _ _ _ _ _ _ _) as [[[r|[]] cs']| |]; reflexivity.
Qed.

Lemma unify_disagreeing_without_generation n flags loc :
  lv1 <> lv2 -> hasFlag flags TMF_GenerateConstraints = false ->
  matchTypes TC (S n) (TTypeVariable tv1) (TTypeVariable tv2) kind flags loc cs
  = Done (Unsolved, cs).
Proof.
  intros Hlv Hflag. rewrite matchTypes_two_variables.
  assert (Hb : Nat.eqb rep1 rep2 = false) by (apply Nat.eqb_neq; done).
  assert (Hx : negb (Bool.eqb lv1 lv2) = true) by (destruct lv1, lv2; simpl; congruence).
  unfold unifyTypeVariables.
  destruct Hkind as [-> | ->]; unfold bind, liftRes;
    rewrite Hr1, Hr2, Hb, Hl1, Hl2, Hx, Hflag; reflexivity.
Qed.

Lemma unify_agreeing n flags loc :
  lv1 = lv2 ->
  matchTypes TC (S n) (TTypeVariable tv1) (TTypeVariable tv2) kind flags loc cs
  = Done (Solved, setParentOrFixed rep2 (Parent rep1) cs).
Proof.
  intros Hlv. rewrite matchTypes_two_variables.
  assert (Hb : Nat.eqb rep1 rep2 = false) by (apply Nat.eqb_neq; done).
  assert (Hx : negb (Bool.eqb lv1 lv2) = false) by (subst; destruct lv2; reflexivity).
  unfold unifyTypeVariables.
  destruct Hkind as [-> | ->]; unfold bind, liftRes;
    rewrite Hr1, Hr2, Hb, Hl1, Hl2, Hx; reflexivity.
Qed.

End MergeVariables.

(** The constraint between the representatives that stands for the
    deferred unification. *)
Definition deferredUnification (kind : TypeMatchKind.t) (rep1 rep2 : nat)
    (loc : ConstraintLocatorBuilder) : Constraint :=
  mkConstraint (getConstraintKind kind) None (TTypeVariable rep1)
    (Some (TTypeVariable rep2)) "" (getConstraintLocator loc).

Lemma unify_disagreeing_with_generation TC cs tv1 tv2 rep1 rep2 lv1 lv2 kind n flags loc :
  kind = TypeMatchKind.BindType \/ kind = TypeMatchKind.SameType ->
  getFixedType tv1 cs = Done None -> getFixedType tv2 cs = Done None ->
  getRepresentative tv1 cs = Done rep1 -> getRepresentative tv2 cs = Done rep2 ->
  rep1 <> rep2 ->
  tvCanBindToLValue rep1 cs = Done lv1 -> tvCanBindToLValue rep2 cs = Done lv2 ->
  lv1 <> lv2 -> hasFlag flags TMF_GenerateConstraints = true ->
  matchTypes TC (S (S (S n))) (TTypeVariable tv1) (TTypeVariable tv2) kind flags loc cs
  = Done (Solved, enqueue (deferredUnification kind rep1 rep2 loc) cs).
Proof.
  intros Hkind Hf1 Hf2 Hr1 Hr2 Hne Hl1 Hl2 Hlv Hflag.
  rewrite (matchTypes_two_variables TC cs tv1 tv2 rep1 rep2 kind Hf1 Hf2 Hr1 Hr2 Hne).
  assert (Hb : Nat.eqb rep1 rep2 = false) by (apply Nat.eqb_neq; done).
  assert (Hx : negb (Bool.eqb lv1 lv2) = true) by (destruct lv1, lv2; simpl; congruence).
  destruct (unbound_root _ _ _ Hr1 Hf1) as (i1 & E1 & P1).
  destruct (unbound_root _ _ _ Hr2 Hf2) as (i2 & E2 & P2).
  destruct (root_representative _ _ _ E1 P1) as [Hrr1 Hrf1].
  destruct (root_representative _ _ _ E2 P2) as [Hrr2 Hrf2].
  pose proof (unify_disagreeing_without_generation TC cs rep1 rep2 rep1 rep2 lv1 lv2 kind
                Hkind Hrf1 Hrf2 Hrr1 Hrr2 Hne Hl1 Hl2 n TMF_None
                (builderOf (getConstraintLocator loc)) Hlv eq_refl) as Hinner.
  unfold unifyTypeVariables.
  destruct Hkind as [-> | ->]; unfold bind, liftRes;
    rewrite Hr1, Hr2, Hb, Hl1, Hl2, Hx, Hflag;
    unfold addRelationalConstraint, bind; cbn [recAddConstraint recursion];
    rewrite addConstraint_S; unfold addConstraint_body, bind;
    cbn [simplifyConstraint getConstraintKind]; unfold simplifyRelationalConstraint;
    cbn [getTypeMatchKind recMatchTypes recursion]; rewrite Hinner; reflexivity.
Qed.

(** After a merge the two former roots have one representative. *)
Lemma merged_representatives cs rep1 rep2 i1 i2 :
  TypeVariables cs !! rep1 = Some i1 -> ParentOrFixed i1 = Parent rep1 ->
  TypeVariables cs !! rep2 = Some i2 -> rep1 <> rep2 ->
  getRepresentative rep1 (setParentOrFixed rep2 (Parent rep1) cs) = Done rep1
  /\ getRepresentative rep2 (setParentOrFixed rep2 (Parent rep1) cs) = Done rep1.
Proof.
  intros E1 P1 E2 Hne.
  set (f := fun impl => mkTypeVar (tvLocator impl) (canBindToLValue impl)
                          (prefersSubtypeBinding impl) (Parent rep1)).
  assert (Htv : TypeVariables (setParentOrFixed rep2 (Parent rep1) cs)
                = alter f rep2 (TypeVariables cs)) by reflexivity.
  assert (L1 : alter f rep2 (TypeVariables cs) !! rep1 = Some i1)
    by (rewrite list_lookup_alter_ne by done; exact E1).
  unfold getRepresentative. rewrite Htv. split.
  - exact (representativeLoop_self _ _ _ _ L1 P1).
  - rewrite length_alter.
    pose proof (lookup_lt_Some _ _ _ E2) as Hlt.
    destruct (length (TypeVariables cs)) as [|k] eqn:Ek; [lia|].
    simpl. rewrite list_lookup_alter_eq, E2. simpl.
    assert (Hb : Nat.eqb rep1 rep2 = false) by (apply Nat.eqb_neq; done).
    rewrite Hb. exact (representativeLoop_self _ _ _ _ L1 P1).
Qed.

(** C5: [matchTypes] at kind Bind or Equal on two unbound type variables
    with distinct representatives.  When the representatives differ in
    whether they may bind to an lvalue, the classes are not merged: with
    constraint generation a relational constraint of the same kind between
    the two representatives is queued and the result is Solved, without it
    the result is Unsolved and the state is untouched.  When they agree, the
    classes are merged (afterwards both have the representative of the first)
    and the result is Solved. *)
Theorem C5_merge_respects_lvalue_capability
    TC cs tv1 tv2 rep1 rep2 lv1 lv2 kind n flags loc :
  kind = TypeMatchKind.BindType \/ kind = TypeMatchKind.SameType ->
  getFixedType tv1 cs = Done None -> getFixedType tv2 cs = Done None ->
  getRepresentative tv1 cs = Done rep1 -> getRepresentative tv2 cs = Done rep2 ->
  rep1 <> rep2 ->
  tvCanBindToLValue rep1 cs = Done lv1 -> tvCanBindToLValue rep2 cs = Done lv2 ->
  (lv1 <> lv2 -> hasFlag flags TMF_GenerateConstraints = true ->
     matchTypes TC (S (S (S n))) (TTypeVariable tv1) (TTypeVariable tv2) kind flags loc cs
     = Done (Solved, enqueue (deferredUnification kind rep1 rep2 loc) cs)
     /\ TypeVariables (enqueue (deferredUnification kind rep1 rep2 loc) cs)
        = TypeVariables cs)
  /\ (lv1 <> lv2 -> hasFlag flags TMF_GenerateConstraints = false ->
        matchTypes TC (S n) (TTypeVariable tv1) (TTypeVariable tv2) kind flags loc cs
        = Done (Unsolved, cs))
  /\ (lv1 = lv2 ->
        matchTypes TC (S n) (TTypeVariable tv1) (TTypeVariable tv2) kind flags loc cs
        = Done (Solved, setParentOrFixed rep2 (Parent rep1) cs)
        /\ getRepresentative rep1 (setParentOrFixed rep2 (Parent rep1) cs) = Done rep1
        /\ getRepresentative rep2 (setParentOrFixed rep2 (Parent rep1) cs) = Done rep1).
Proof.
  intros Hkind Hf1 Hf2 Hr1 Hr2 Hne Hl1 Hl2. split; [|split].
  - intros Hlv Hflag. split; [|reflexivity].
    eapply unify_disagreeing_with_generation; eauto.
  - intros Hlv Hflag. eapply unify_disagreeing_without_generation; eauto.
  - intros Hlv. split.
    + eapply unify_agreeing; eauto.
    + destruct (unbound_root _ _ _ Hr1 Hf1) as (i1 & E1 & P1).
      destruct (unbound_root _ _ _ Hr2 Hf2) as (i2 & E2 & P2).
      exact (merged_representatives cs rep1 rep2 i1 i2 E1 P1 E2 Hne).
Qed.

(** The theorem at two fresh variables of which only the first may bind to
    an lvalue (kind Equal, constraint generation enabled). *)
Lemma C5_merge_respects_lvalue_capability_witness :
  matchTypes Examples.bareTC 3 (TTypeVariable 0) (TTypeVariable 1) TypeMatchKind.SameType
    TMF_GenerateConstraints Examples.noLocator Examples.twoVariablesCS
  = Done (Solved,
          enqueue (deferredUnification TypeMatchKind.SameType 0 1 Examples.noLocator)
            Examples.twoVariablesCS).
Proof.
  refine (proj1 (proj1 (C5_merge_respects_lvalue_capability Examples.bareTC
            Examples.twoVariablesCS 0 1 0 1 true false TypeMatchKind.SameType 0
            TMF_GenerateConstraints Examples.noLocator _ _ _ _ _ _ _ _) _ _)).
  - right; reflexivity.
  - reflexivity.
  - reflexivity.
  - reflexivity.
  - reflexivity.
  - lia.
  - reflexivity.
  - reflexivity.
  - discriminate.
  - reflexivity.
Defined.

(** ** The candidate conversions of [matchTypes] *)

Ltac break_match :=
  match goal with
  | |- context [match ?x with _ => _ end] => destruct x eqn:?
  | H : context [match ?x with _ => _ end] |- _ => destruct x eqn:?
  end.

Lemma recordIfEnabled_eq loc k a b cs :
  recordIfEnabled loc k a b cs = Done (tt, withFailure (mkFailure loc k a (Some b) "") cs).
Proof.
  unfold recordIfEnabled, bind, shouldRecordFailures, recordFailure, modify, ret, withFailure.
  destruct (recordFailures cs) eqn:E; [rewrite E|]; reflexivity.
Qed.

Lemma recordFailure_eq loc k a b name cs :
  recordFailure loc k a b name cs = Done (tt, withFailure (mkFailure loc k a b name) cs).
Proof. reflexivity. Qed.

Lemma value_to_optional_dec (l : list ConversionRestrictionKind.t) :
  In ConversionRestrictionKind.ValueToOptional l
  \/ ~ In ConversionRestrictionKind.ValueToOptional l.
Proof.
  induction l as [|x l IH]; [right; intros []|].
  destruct IH as [IH|IH]; [left; right; exact IH|].
  destruct x; try (right; intros [E|E]; [discriminate E|exact (IH E)]).
  left; left; reflexivity.
Qed.

Lemma geb_Conversion k :
  TypeMatchKind.geb k TypeMatchKind.Conversion = true -> k = TypeMatchKind.Conversion.
Proof. destruct k; cbv; intros; congruence. Qed.

(** The structural switch pushes at most one candidate, and never changes
    the state when it falls through. *)
Lemma decompose_candidates TC rec t1 t2 kind flags loc cs l cs' :
  decomposeParallelStructure TC rec t1 t2 kind flags loc cs = Done (Continue l, cs') ->
  cs' = cs /\ (l = [] \/ l = [ConversionRestrictionKind.TupleToTuple]
               \/ l = [ConversionRestrictionKind.DeepEquality]).
Proof.
  unfold decomposeParallelStructure.
  destruct (negb (TypeKind_eqb (getKind t1) (getKind t2))).
  { intros [= <- <-]. auto. }
  destruct t1, t2; try (intros [= <- <-]; auto); try discriminate;
    unfold bind, ret, abort;
    repeat (break_match; try discriminate; try (intros [= <- <-]; auto)).
Qed.

Lemma collectTupleAndClass_no_optional TC t1 t2 kind l cs r cs' :
  collectTupleAndClassConversions TC t1 t2 kind l cs = Done (r, cs') ->
  ~ In ConversionRestrictionKind.ValueToOptional l ->
  match r with
  | Return l' | Continue l' => ~ In ConversionRestrictionKind.ValueToOptional l'
  end.
Proof.
  unfold collectTupleAndClassConversions, bind, ret. intros H Hl.
  repeat (break_match; try discriminate); simplify_eq;
    rewrite ?in_app_iff; simpl; intuition congruence.
Qed.

Lemma collectOptional_gate TC t1 t2 concrete kind l cs l' cs' :
  collectOptionalConversions TC t1 t2 concrete kind l cs = Done (l', cs') ->
  In ConversionRestrictionKind.ValueToOptional l' ->
  ~ In ConversionRestrictionKind.ValueToOptional l ->
  concrete = true /\ kind = TypeMatchKind.Conversion.
Proof.
  unfold collectOptionalConversions. intros H Hin Hl.
  destruct concrete; simpl in H.
  - destruct (TypeMatchKind.geb kind TypeMatchKind.Conversion) eqn:G.
    + split; [done|]. by apply geb_Conversion.
    + unfold ret in H. simplify_eq. done.
  - unfold ret in H. simplify_eq. done.
Qed.

Lemma collect_value_to_optional TC rec t1 t2 concrete kind flags loc l cs l' cs' :
  collectPotentialConversions TC rec t1 t2 concrete kind flags loc l cs
    = Done (Continue l', cs') ->
  ~ In ConversionRestrictionKind.ValueToOptional l ->
  In ConversionRestrictionKind.ValueToOptional l' ->
  concrete = true /\ kind = TypeMatchKind.Conversion.
Proof.
  unfold collectPotentialConversions. unfold bind at 1. intros H Hl Hin.
  destruct (if concrete && TypeMatchKind.geb kind TypeMatchKind.TrivialSubtype
            then collectTupleAndClassConversions TC t1 t2 kind l
            else ret (Continue l)) as [[first cs1]| |] eqn:E1; try discriminate.
  assert (Hfirst : match first with
                   | Return x | Continue x => ~ In ConversionRestrictionKind.ValueToOptional x
                   end).
  { destruct (concrete && TypeMatchKind.geb kind TypeMatchKind.TrivialSubtype).
    - eapply collectTupleAndClass_no_optional; eauto.
    - unfold ret in E1. simplify_eq. done. }
  destruct first as [committed | pc].
  { unfold ret in H. simplify_eq. done. }
  set (pc1 := if concrete && TypeMatchKind.geb kind TypeMatchKind.Conversion
              then match t1 with
                   | TLValue _ q =>
                       if isImplicit q
                       then pc ++ [ConversionRestrictionKind.LValueToRValue] else pc
                   | _ => pc
                   end
              else pc) in *.
  assert (H1 : ~ In ConversionRestrictionKind.ValueToOptional pc1).
  { subst pc1. repeat break_match; rewrite ?in_app_iff; simpl; intuition congruence. }
  clearbody pc1.
  destruct (if concrete && TypeMatchKind.geb kind TypeMatchKind.Conversion
            then match t2 with TFunction _ r true _ => Some r | _ => None end
            else None).
  { unfold bind in H. break_match; try discriminate. break_match. discriminate. }
  set (pc2 := if isExistentialType t2 && _
              then pc1 ++ [ConversionRestrictionKind.Existential] else pc1) in *.
  assert (H2 : ~ In ConversionRestrictionKind.ValueToOptional pc2).
  { subst pc2. break_match; rewrite ?in_app_iff; simpl; intuition congruence. }
  clearbody pc2.
  unfold bind in H.
  destruct (collectOptionalConversions TC t1 t2 concrete kind pc2 cs1)
    as [[pc3 cs3]| |] eqn:E3; try discriminate.
  unfold ret in H. simplify_eq.
  destruct (value_to_optional_dec pc3) as [Hi|Hn].
  - eapply collectOptional_gate; eauto.
  - exfalso. revert Hin. break_match; rewrite ?in_app_iff; simpl; intuition congruence.
Qed.

(** ** Value-to-optional (claim C6) *)

(** C6: the value-to-optional candidate is among the potential conversions
    of [matchTypes] only for concrete operands at kind Conversion (the most
    permissive kind); matching [Int] against [Int?] at Subtype returns Error
    (types-not-subtypes is recorded when recording is enabled), and matching
    them at Conversion returns Solved. *)
Theorem C6_value_to_optional_needs_conversion TC d n flags loc cs :
  (forall rec t1 t2 tv1 tv2 kind fl lc st cands st',
     potentialConversionsOf TC rec t1 t2 tv1 tv2 kind fl lc st = Done (Continue cands, st') ->
     In ConversionRestrictionKind.ValueToOptional cands ->
     kind = TypeMatchKind.Conversion /\ tv1 = None /\ tv2 = None)
  /\ matchTypes TC (S n) (TNominal Struct d None)
       (OptionalType_get TC (TNominal Struct d None)) TypeMatchKind.Subtype flags loc cs
     = Done (Error,
             withFailure
               (mkFailure (getConstraintLocator loc) Failure.TypesNotSubtypes
                  (TNominal Struct d None)
                  (Some (OptionalType_get TC (TNominal Struct d None))) "") cs)
  /\ exists cs',
       matchTypes TC (S (S n)) (TNominal Struct d None)
         (OptionalType_get TC (TNominal Struct d None)) TypeMatchKind.Conversion flags loc cs
       = Done (Solved, cs').
Proof.
  split; [|split].
  - intros rec t1 t2 tv1 tv2 kind fl lc st cands st' H Hin.
    unfold potentialConversionsOf, bind in H.
    destruct (decomposeParallelStructure TC rec t1 t2 kind fl lc st)
      as [[[r|l] st1]| |] eqn:E; try discriminate.
    destruct (decompose_candidates _ _ _ _ _ _ _ _ _ _ E) as [-> Hl].
    assert (Hno : ~ In ConversionRestrictionKind.ValueToOptional l)
      by (destruct Hl as [->|[->| ->]]; simpl; intuition congruence).
    destruct (collect_value_to_optional _ _ _ _ _ _ _ _ _ _ _ _ H Hno Hin) as [Hc ->].
    split; [reflexivity|].
    destruct tv1, tv2; simpl in Hc; try discriminate. done.
  - cbn. unfold potentialConversionsOf, bind; cbn.
    unfold withFailure, recordFailure, modify, ret.
    destruct (recordFailures cs) eqn:E; [rewrite E|]; reflexivity.
  - cbn. unfold potentialConversionsOf, bind; cbn.
    rewrite Nat.eqb_refl. cbn.
    destruct (lookupMember TC (TNominal Struct d None) "__conversion"); cbn.
    + rewrite Nat.eqb_refl. cbn. rewrite Nat.eqb_refl. cbn. eauto.
    + eauto.
Qed.

(** The theorem at [Int] and [Int?] in the bare environment. *)
Lemma C6_value_to_optional_needs_conversion_witness :
  exists cs',
    matchTypes Examples.bareTC 2 Examples.Int (OptionalType_get Examples.bareTC Examples.Int)
      TypeMatchKind.Conversion TMF_None Examples.noLocator Examples.emptyCS
    = Done (Solved, cs').
Proof.
  exact (proj2 (proj2 (C6_value_to_optional_needs_conversion Examples.bareTC
                         Examples.IntDecl 0 TMF_None Examples.noLocator Examples.emptyCS))).
Defined.

(** ** Committing to the conversions (claim C3) *)

(** The disjunction that [matchTypes] adds for several candidates: one
    restricted alternative per candidate, in order. *)
Lemma disjunction_alternatives kind t1 t2 loc cands :
  map Constraint_getRestriction (map (restrictedConstraint kind t1 t2 loc) cands)
  = map Some cands.
Proof. induction cands as [|c l IH]; [reflexivity|]. simpl. rewrite IH. reflexivity. Qed.

(** C3: once the potential conversions of a [matchTypes] call are collected
    ([cands], reached in state [cs3] after the operands resolved to [t1] and
    [t2] and none of the earlier cases returned): with no candidate the
    result is Unsolved when a type variable is involved and Error otherwise;
    with exactly one candidate the call is the call of the matcher of that
    candidate, on the operands the candidate stands for: [matchTupleTypes],
    [matchScalarToTupleTypes], [matchTupleToScalarTypes],
    [matchDeepEqualityTypes], [matchSuperclassTypes], [matchExistentialTypes],
    [tryUserConversion], or [matchTypes] itself on the object type of the
    lvalue or on the arguments of the optionals; with more than one a
    disjunction with one alternative per candidate is queued and the result
    is Solved. *)
Theorem C3_commit_to_conversions
    TC n type1 type2 kind flags loc cs t1 tv1 t2 tv2 cs2 cands cs3 :
  getFixedTypeRecursive type1 (TypeMatchKind.eqb kind TypeMatchKind.SameType) cs
    = Done ((t1, tv1), cs) ->
  getFixedTypeRecursive type2 (TypeMatchKind.eqb kind TypeMatchKind.SameType) cs
    = Done ((t2, tv2), cs) ->
  Ty_eqb t1 t2 = false ->
  (if isSome tv1 || isSome tv2
   then unifyTypeVariables (recursion TC n) t1 t2 tv1 tv2 kind flags loc
   else ret (Continue tt)) cs = Done (Continue tt, cs2) ->
  potentialConversionsOf TC (recursion TC n) t1 t2 tv1 tv2 kind flags loc cs2
    = Done (Continue cands, cs3) ->
  (cands = [] ->
     matchTypes TC (S n) type1 type2 kind flags loc cs
     = if isSome tv1 || isSome tv2
       then Done (Unsolved, cs3)
       else Done (Error,
                  withFailure
                    (mkFailure (getConstraintLocator loc) (getRelationalFailureKind kind)
                       t1 (Some t2) "") cs3))
  /\ (forall potential, cands = [potential] ->
        let subFlags := N.lor flags TMF_GenerateConstraints in
        let result := matchTypes TC (S n) type1 type2 kind flags loc cs in
        match potential with
        | ConversionRestrictionKind.TupleToTuple =>
            forall tuple1 tuple2, t1 = TTuple tuple1 -> t2 = TTuple tuple2 ->
              result = matchTupleTypes TC (recursion TC n) tuple1 tuple2 kind flags loc cs3
        | ConversionRestrictionKind.ScalarToTuple =>
            forall tuple2, t2 = TTuple tuple2 ->
              result = matchScalarToTupleTypes TC (recursion TC n) t1 tuple2 kind subFlags
                         loc cs3
        | ConversionRestrictionKind.TupleToScalar =>
            forall tuple1, t1 = TTuple tuple1 ->
              result = matchTupleToScalarTypes (recursion TC n) tuple1 t2 kind subFlags
                         loc cs3
        | ConversionRestrictionKind.DeepEquality =>
            result = matchDeepEqualityTypes (recursion TC n) t1 t2 loc cs3
        | ConversionRestrictionKind.Superclass =>
            result = matchSuperclassTypes TC (recursion TC n) t1 t2 kind flags loc cs3
        | ConversionRestrictionKind.LValueToRValue =>
            result = matchTypes TC n (getRValueType t1) t2 kind subFlags loc cs3
        | ConversionRestrictionKind.Existential =>
            result = matchExistentialTypes TC (recursion TC n) t1 t2 kind flags loc cs3
        | ConversionRestrictionKind.ValueToOptional =>
            forall k2 parent2 arg2,
              t2 = TBoundGeneric k2 (getOptionalDecl TC) parent2 [arg2] ->
              result = matchTypes TC n t1 arg2 kind subFlags loc cs3
        | ConversionRestrictionKind.OptionalToOptional =>
            forall k1 parent1 arg1 k2 parent2 arg2,
              t1 = TBoundGeneric k1 (getOptionalDecl TC) parent1 [arg1] ->
              t2 = TBoundGeneric k2 (getOptionalDecl TC) parent2 [arg2] ->
              result = matchTypes TC n arg1 arg2 kind subFlags loc cs3
        | ConversionRestrictionKind.User =>
            result = tryUserConversion TC (recursion TC n) t1 ConstraintKind.Subtype t2
                       loc cs3
        end)
  /\ (2 <= length cands -> 1 <= n ->
        let alternatives :=
          map (restrictedConstraint kind t1 t2 (getConstraintLocator loc)) cands in
        matchTypes TC (S n) type1 type2 kind flags loc cs
        = Done (Solved,
                enqueue (createDisjunction alternatives (getConstraintLocator loc)) cs3)
        /\ map Constraint_getRestriction alternatives = map Some cands).
Proof.
  intros H1 H2 Hne Hu Hc.
  assert (Hm : matchTypes TC (S n) type1 type2 kind flags loc cs
               = commitToConversions TC (recursion TC n) cands t1 t2 tv1 tv2 kind flags loc cs3).
  { rewrite matchTypes_S. unfold matchTypes_body.
    unfold bind at 1. rewrite H1. unfold bind at 1. rewrite H2. rewrite Hne.
    unfold bind at 1. rewrite Hu. unfold bind at 1. rewrite Hc. reflexivity. }
  rewrite Hm. split; [|split].
  - intros ->. unfold commitToConversions.
    destruct (isSome tv1 || isSome tv2); [reflexivity|].
    unfold bind. rewrite recordIfEnabled_eq. reflexivity.
  - intros potential -> subFlags result. subst result subFlags.
    unfold commitToConversions, matchSingleConversion.
    destruct potential; intros; subst; try reflexivity.
    + unfold bind, assert. rewrite Nat.eqb_refl. reflexivity.
    + unfold bind, assert. rewrite Nat.eqb_refl. reflexivity.
  - intros Hlen Hn alternatives. split; [|apply disjunction_alternatives].
    destruct cands as [|c1 [|c2 rest]]; simpl in Hlen; try lia.
    destruct n as [|m]; [lia|].
    unfold commitToConversions, bind. cbn [recAddConstraint recursion].
    rewrite addConstraint_disjunction. reflexivity.
Qed.

(** The theorem at [Int] against [Int?], kind Conversion.  Where [Int] has a
    user-defined conversion the candidates are value-to-optional and the
    user conversion, and a disjunction is queued; where it has none the only
    candidate is value-to-optional, and the call is the one of [matchTypes]
    on [Int] and the argument of the optional. *)
Lemma C3_commit_to_conversions_witness :
  matchTypes Examples.convertingTC 2 Examples.Int (OptionalType_get Examples.convertingTC Examples.Int)
    TypeMatchKind.Conversion TMF_None Examples.noLocator Examples.emptyCS
  = Done (Solved,
          enqueue
            (createDisjunction
               (map (restrictedConstraint TypeMatchKind.Conversion Examples.Int
                       (OptionalType_get Examples.convertingTC Examples.Int) None)
                  [ConversionRestrictionKind.ValueToOptional; ConversionRestrictionKind.User])
               None)
            Examples.emptyCS)
  /\ matchTypes Examples.bareTC 2 Examples.Int (OptionalType_get Examples.bareTC Examples.Int)
       TypeMatchKind.Conversion TMF_None Examples.noLocator Examples.emptyCS
     = matchTypes Examples.bareTC 1 Examples.Int Examples.Int TypeMatchKind.Conversion
         (N.lor TMF_None TMF_GenerateConstraints) Examples.noLocator Examples.emptyCS.
Proof.
  split.
  - refine (proj1 (proj2 (proj2 (C3_commit_to_conversions Examples.convertingTC 1 Examples.Int
              (OptionalType_get Examples.convertingTC Examples.Int) TypeMatchKind.Conversion TMF_None
              Examples.noLocator Examples.emptyCS Examples.Int None
              (OptionalType_get Examples.convertingTC Examples.Int) None Examples.emptyCS
              [ConversionRestrictionKind.ValueToOptional; ConversionRestrictionKind.User]
              Examples.emptyCS _ _ _ _ _)) _ _)).
    + reflexivity.
    + reflexivity.
    + reflexivity.
    + reflexivity.
    + reflexivity.
    + simpl; lia.
    + lia.
  - refine (proj1 (proj2 (C3_commit_to_conversions Examples.bareTC 1 Examples.Int
              (OptionalType_get Examples.bareTC Examples.Int) TypeMatchKind.Conversion TMF_None
              Examples.noLocator Examples.emptyCS Examples.Int None
              (OptionalType_get Examples.bareTC Examples.Int) None Examples.emptyCS
              [ConversionRestrictionKind.ValueToOptional]
              Examples.emptyCS _ _ _ _ _))
              ConversionRestrictionKind.ValueToOptional eq_refl Enum None Examples.Int eq_refl).
    + reflexivity.
    + reflexivity.
    + reflexivity.
    + reflexivity.
    + reflexivity.
Defined.

(** ** Pre-selected restrictions (claim C9) *)







(** ** Conformance constraints (claim C8) *)

(** C8, the claim as stated fails on the direction of the inheritance.
    With a protocol [Q] that inherits from [P]: the existential [Q] is checked
    for containing [P] and the constraint is Solved, although no interface of
    [Q] equals [P] or is inherited by [P]; and the existential [P] checked for
    containing [Q] fails, although its interface [P] is inherited by [Q]. *)
Lemma C8_inherited_by_target_refuted :
  (simplifyConformsToConstraint Examples.inheritingTC (TProtocol Examples.QDecl)
     Examples.PDecl Examples.noLocator true Examples.emptyCS
   = Done (Solved, Examples.emptyCS)
   /\ ~ exists ap, In ap [Examples.QDecl]
                   /\ (ap = Examples.PDecl
                       \/ inheritsFrom Examples.inheritingTC Examples.PDecl ap = true))
  /\ ((exists cs', simplifyConformsToConstraint Examples.inheritingTC
                     (TProtocol Examples.PDecl) Examples.QDecl Examples.noLocator true
                     Examples.emptyCS = Done (Error, cs'))
      /\ exists ap, In ap [Examples.PDecl]
                    /\ (ap = Examples.QDecl
                        \/ inheritsFrom Examples.inheritingTC Examples.QDecl ap = true)).
Proof.
  split; split.
  - reflexivity.
  - intros (ap & [<-|[]] & [E|E]); discriminate E.
  - eexists; vm_compute; reflexivity.
  - exists Examples.PDecl. split; [left; reflexivity|right; reflexivity].
Qed.

(** C8, amended: a ConformsTo or SelfIsInstanceOfProtocol constraint is
    simplified by the conformance check (the latter allowing existential
    containment).  If the fixed type is still an unbound variable the result
    is Unsolved.  When the check is existential containment, the result is
    Solved exactly when some interface of the existential type equals the
    target interface or inherits from it, and otherwise it is Error with a
    does-not-conform failure. *)
Theorem C8_conformance_constraint TC type protocol loc cs t tvo :
  getFixedTypeRecursive type true cs = Done ((t, tvo), cs) ->
  (forall rec member l,
     simplifyConstraint TC rec
       (mkConstraint ConstraintKind.ConformsTo None type (Some (TProtocol protocol)) member l)
     = simplifyConformsToConstraint TC type protocol (builderOf l) false
     /\ simplifyConstraint TC rec
          (mkConstraint ConstraintKind.SelfObjectOfProtocol None type
             (Some (TProtocol protocol)) member l)
        = simplifyConformsToConstraint TC type protocol (builderOf l) true)
  /\ (forall allow, isSome tvo = true ->
        simplifyConformsToConstraint TC type protocol loc allow cs = Done (Unsolved, cs))
  /\ (forall protocols,
        tvo = None -> existentialProtocols t = Some protocols ->
        let contained :=
          exists ap, In ap protocols
                     /\ (ap = protocol \/ inheritsFrom TC ap protocol = true) in
        (simplifyConformsToConstraint TC type protocol loc true cs = Done (Solved, cs)
         <-> contained)
        /\ (~ contained ->
            simplifyConformsToConstraint TC type protocol loc true cs
            = Done (Error,
                    withFailure
                      (mkFailure (getConstraintLocator loc) Failure.DoesNotConformToProtocol
                         t (Some (TProtocol protocol)) "") cs))).
Proof.
  intros H. split; [|split].
  - intros rec member l. split; reflexivity.
  - intros allow Htv. unfold simplifyConformsToConstraint, bind. rewrite H.
    rewrite Htv. reflexivity.
  - intros protocols -> Hp contained.
    assert (Hex : existsb (fun ap => Nat.eqb ap protocol || inheritsFrom TC ap protocol)
                    protocols = true <-> contained).
    { rewrite existsb_exists. unfold contained. split.
      - intros (ap & Hin & Hb). exists ap. split; [done|].
        apply orb_true_iff in Hb as [Hb|Hb]; [left; by apply Nat.eqb_eq|right; done].
      - intros (ap & Hin & Hor). exists ap. split; [done|].
        destruct Hor as [->|Hb].
        + rewrite Nat.eqb_refl. reflexivity.
        + rewrite Hb. apply orb_true_r. }
    unfold simplifyConformsToConstraint, bind. rewrite H. cbn [isSome].
    unfold isExistentialType. rewrite Hp. cbn [andb].
    change (default [] (Some protocols)) with protocols.
    destruct (existsb (fun ap => Nat.eqb ap protocol || inheritsFrom TC ap protocol)
                protocols) eqn:E.
    + split; [split; [intros _; apply Hex; reflexivity|reflexivity]|].
      intros Hn. exfalso. apply Hn, Hex. reflexivity.
    + rewrite recordFailure_eq. split.
      * split; [discriminate|]. intros Hc. apply Hex in Hc. discriminate.
      * intros _. reflexivity.
Qed.

(** The theorem at the existential [Q], which inherits from the target [P]. *)
Lemma C8_conformance_constraint_witness :
  simplifyConformsToConstraint Examples.inheritingTC (TProtocol Examples.QDecl)
    Examples.PDecl Examples.noLocator true Examples.emptyCS
  = Done (Solved, Examples.emptyCS).
Proof.
  refine (proj2 (proj1 (proj2 (proj2 (C8_conformance_constraint Examples.inheritingTC
            (TProtocol Examples.QDecl) Examples.PDecl Examples.noLocator Examples.emptyCS
            (TProtocol Examples.QDecl) None _)) [Examples.QDecl] _ _)) _).
  - reflexivity.
  - reflexivity.
  - reflexivity.
  - exists Examples.QDecl. split; [left; reflexivity|right; reflexivity].
Defined.

(** ** Member constraints (claims C7 and C10) *)

Lemma getAsInteger_not_init name v : getAsInteger name = Some v -> String.eqb name "init" = false.
Proof.
  intros H. destruct (String.eqb name "init") eqn:E; [|reflexivity].
  apply String.eqb_eq in E. subst. discriminate H.
Qed.

(** On a concrete base that is not a tuple the constraint is decided by the
    lookups. *)
Lemma member_concrete_base TC rec kind first memberTy name locator cs baseTy :
  simplifyType first cs = Done (baseTy, cs) ->
  isTypeVariable (baseInstanceType baseTy) = false ->
  isTupleType (baseObjectType baseTy) = false ->
  simplifyMemberConstraint TC rec kind first memberTy name locator cs
  = simplifyLookedUpMember TC rec kind baseTy (baseObjectType baseTy)
      (baseInstanceType baseTy) (baseIsMetatype baseTy) memberTy name locator cs.
Proof.
  intros H Hv Ht. unfold simplifyMemberConstraint, bind at 1. rewrite H.
  unfold baseInstanceType, baseObjectType, baseIsMetatype in *.
  destruct (getRValueType baseTy) as [| | | | | | | | | |i| | | | | | | |];
    try discriminate; try reflexivity.
  destruct i; try discriminate; reflexivity.
Qed.

(** A value-member constraint on a concrete base that is not a tuple, when
    the general lookup finds nothing. *)
Lemma member_lookup_empty TC rec first memberTy name locator cs baseTy :
  simplifyType first cs = Done (baseTy, cs) ->
  isTypeVariable (baseInstanceType baseTy) = false ->
  isTupleType (baseObjectType baseTy) = false ->
  String.eqb name "init" = false ->
  lookupMember TC (baseObjectType baseTy) name = [] ->
  simplifyMemberConstraint TC rec ConstraintKind.ValueMember first memberTy name locator cs
  = match getAsInteger name with
    | Some 0%N =>
        bind (addBindOverloadConstraint rec memberTy (identityChoice baseTy) locator)
          (fun _ => ret Solved) cs
    | _ => doesNotHaveMember locator (baseObjectType baseTy) name cs
    end.
Proof.
  intros H Hv Ht Hi Hl. rewrite (member_concrete_base _ _ _ _ _ _ _ _ _ H Hv Ht).
  unfold simplifyLookedUpMember. rewrite Hi, Hl.
  destruct (getAsInteger name) as [[|p]|]; reflexivity.
Qed.

Lemma retired_TypeVariables c s cs : TypeVariables (retired c s cs) = TypeVariables cs.
Proof. unfold retired. destruct (solverState cs); reflexivity. Qed.

Lemma retired_resolvedOverloadSets c s cs :
  resolvedOverloadSets (retired c s cs) = resolvedOverloadSets cs.
Proof. unfold retired. destruct (solverState cs); reflexivity. Qed.

(** Binding a fresh member type variable to the base type itself. *)
Lemma bind_identity_overload TC m tv impl baseTy locator cs :
  TypeVariables cs !! tv = Some impl -> ParentOrFixed impl = Parent tv ->
  isTypeVariable baseTy = false ->
  (canBindToLValue impl = true \/ forall o q, baseTy <> TLValue o q) ->
  exists cs',
    addBindOverloadConstraint (recursion TC (S (S (S m)))) (TTypeVariable tv)
      (identityChoice baseTy) locator cs = Done (tt, cs')
    /\ getFixedType tv cs' = Done (Some baseTy)
    /\ resolvedOverloadSets cs'
       = mkResolved (TTypeVariable tv) (identityChoice baseTy) locator None baseTy
         :: resolvedOverloadSets cs.
Proof.
  intros E P Hb Hlv.
  destruct (root_representative _ _ _ E P) as [Hr Hf].
  assert (Hm : matchTypes TC (S m) (TTypeVariable tv) baseTy TypeMatchKind.BindType TMF_None
                 (builderOf None) cs
               = Done (Solved, setParentOrFixed tv (Fixed baseTy) cs)).
  { rewrite matchTypes_S. unfold matchTypes_body.
    unfold bind at 1. rewrite (getFixedTypeRecursive_unbound _ _ _ Hf).
    unfold bind at 1.
    assert (G : getFixedTypeRecursive baseTy false cs = Done ((baseTy, None), cs))
      by (destruct baseTy; try reflexivity; discriminate Hb).
    cbn [TypeMatchKind.eqb TypeMatchKind.rank Nat.eqb]. rewrite G.
    assert (Hne : Ty_eqb (TTypeVariable tv) baseTy = false)
      by (destruct baseTy; try reflexivity; discriminate Hb).
    rewrite Hne. cbn [isSome orb]. unfold bind at 1.
    unfold unifyTypeVariables. cbn [TypeMatchKind.eqb TypeMatchKind.rank Nat.eqb].
    unfold bind at 1, liftRes at 1, tvCanBindToLValue. rewrite E.
    assert (Hg : negb (canBindToLValue impl)
                 && match baseTy with TLValue _ _ => true | _ => false end = false).
    { destruct Hlv as [-> | Hn]; [reflexivity|].
      destruct baseTy; try apply andb_false_r. exfalso. eapply Hn. reflexivity. }
    rewrite Hg. unfold bind at 1, assignFixedType, bind at 1, liftRes at 1. rewrite Hf.
    unfold bind at 1, liftRes at 1. rewrite Hr. reflexivity. }
  unfold addBindOverloadConstraint, bind at 1. cbn [recAddConstraint recursion].
  rewrite addConstraint_S. unfold addConstraint_body, bind at 1.
  cbn [simplifyConstraint]. unfold bind at 1, resolveOverload, bind at 1.
  cbn [choiceKind identityChoice choiceBase]. unfold ret at 1.
  unfold bind at 1, addRelationalConstraint, bind at 1. cbn [recAddConstraint recursion].
  rewrite addConstraint_S. unfold addConstraint_body, bind at 1.
  cbn [simplifyConstraint]. unfold simplifyRelationalConstraint.
  cbn [getTypeMatchKind recMatchTypes recursion]. rewrite Hm.
  cbv beta iota delta [bind ret modify retire].
  eexists. split; [reflexivity|].
  rewrite ?retired_resolvedOverloadSets. simpl. rewrite ?retired_resolvedOverloadSets.
  split; [|reflexivity].
  unfold getFixedType, getRepresentative. rewrite ?retired_TypeVariables. simpl.
  rewrite ?retired_TypeVariables.
  destruct (length (alter _ tv (TypeVariables cs))); simpl;
    rewrite !list_lookup_alter_eq, E; simpl; rewrite ?list_lookup_alter_eq, ?E; reflexivity.
Qed.

Lemma instance_concrete_base baseTy :
  isTypeVariable (baseInstanceType baseTy) = false -> isTypeVariable baseTy = false.
Proof. destruct baseTy; try reflexivity. intros H; exact H. Qed.

(** C10, the claim as stated fails on its second half: the name "00" is a
    decimal name other than "0", and a value-member constraint with that name
    on [Int], whose lookup finds nothing, is Solved. *)
Lemma C10_leading_zero_name_is_solved :
  getAsInteger "00" = Some 0%N /\ "00" <> "0"
  /\ exists cs',
       simplifyMemberConstraint Examples.bareTC (recursion Examples.bareTC 3)
         ConstraintKind.ValueMember Examples.Int (TTypeVariable 0) "00" None
         Examples.oneVariableCS
       = Done (Solved, cs').
Proof. split; [reflexivity|]. split; [discriminate|]. eexists. vm_compute. reflexivity. Qed.

(** C10, amended: a value-member constraint whose name is a decimal numeral,
    on a concrete base type that is not a tuple and for which the member
    lookup finds no declaration.  When the value of the numeral is zero ("0",
    "00", ...), the constraint does not fail: the identity choice (the base
    type itself) is bound to the member type and the result is Solved; for a
    fresh member type variable the variable ends up fixed to the base type.
    When the value is not zero the constraint fails with
    does-not-have-member. *)
Theorem C10_decimal_member_of_scalar TC first name locator cs baseTy value :
  simplifyType first cs = Done (baseTy, cs) ->
  isTypeVariable (baseInstanceType baseTy) = false ->
  isTupleType (baseObjectType baseTy) = false ->
  lookupMember TC (baseObjectType baseTy) name = [] ->
  getAsInteger name = Some value ->
  (value = 0%N ->
     (forall rec memberTy,
        simplifyMemberConstraint TC rec ConstraintKind.ValueMember first memberTy name
          locator cs
        = bind (addBindOverloadConstraint rec memberTy (identityChoice baseTy) locator)
            (fun _ => ret Solved) cs)
     /\ (forall m tv impl,
           TypeVariables cs !! tv = Some impl -> ParentOrFixed impl = Parent tv ->
           (canBindToLValue impl = true \/ forall o q, baseTy <> TLValue o q) ->
           exists cs',
             simplifyMemberConstraint TC (recursion TC (S (S (S m))))
               ConstraintKind.ValueMember first (TTypeVariable tv) name locator cs
             = Done (Solved, cs')
             /\ getFixedType tv cs' = Done (Some baseTy)
             /\ resolvedOverloadSets cs'
                = mkResolved (TTypeVariable tv) (identityChoice baseTy) locator None baseTy
                  :: resolvedOverloadSets cs))
  /\ (value <> 0%N ->
      forall rec memberTy,
        simplifyMemberConstraint TC rec ConstraintKind.ValueMember first memberTy name
          locator cs
        = Done (Error,
                withFailure
                  (mkFailure locator Failure.DoesNotHaveMember (baseObjectType baseTy)
                     None name) cs)).
Proof.
  intros H Hv Ht Hl Hn.
  pose proof (getAsInteger_not_init _ _ Hn) as Hi.
  pose proof (fun rec memberTy =>
                member_lookup_empty TC rec first memberTy name locator cs baseTy
                  H Hv Ht Hi Hl) as Hs.
  rewrite Hn in Hs. split.
  - intros ->. split; [exact Hs|].
    intros m tv impl E P Hlv. rewrite Hs.
    destruct (bind_identity_overload TC m tv impl baseTy locator cs E P
                (instance_concrete_base _ Hv) Hlv) as (cs' & Hb & Hfix & Hres).
    exists cs'. unfold bind. rewrite Hb. auto.
  - intros Hne rec memberTy. rewrite Hs.
    destruct value as [|p]; [congruence|]. reflexivity.
Qed.

(** The theorem at the name "0" on [Int] with a fresh member variable. *)
Lemma C10_decimal_member_of_scalar_witness :
  exists cs',
    simplifyMemberConstraint Examples.bareTC (recursion Examples.bareTC 3)
      ConstraintKind.ValueMember Examples.Int (TTypeVariable 0) "0" None
      Examples.oneVariableCS
    = Done (Solved, cs')
    /\ getFixedType 0 cs' = Done (Some Examples.Int)
    /\ resolvedOverloadSets cs'
       = [mkResolved (TTypeVariable 0) (identityChoice Examples.Int) None None Examples.Int].
Proof.
  refine (proj2 (proj1 (C10_decimal_member_of_scalar Examples.bareTC Examples.Int "0" None
            Examples.oneVariableCS Examples.Int 0%N _ _ _ _ _) _) 0 0
            (mkTypeVar None true false (Parent 0)) _ _ _).
  - reflexivity.
  - reflexivity.
  - reflexivity.
  - reflexivity.
  - reflexivity.
  - reflexivity.
  - reflexivity.
  - reflexivity.
  - left; reflexivity.
Defined.

Lemma member_unbound_base TC rec kind first memberTy name locator cs baseTy :
  simplifyType first cs = Done (baseTy, cs) ->
  isTypeVariable (baseInstanceType baseTy) = true ->
  simplifyMemberConstraint TC rec kind first memberTy name locator cs = Done (Unsolved, cs).
Proof.
  intros H Hv. unfold simplifyMemberConstraint, bind at 1. rewrite H.
  unfold baseInstanceType in Hv.
  destruct (getRValueType baseTy) as [| | | | | | | | | |i| | | | | | | |];
    try discriminate; try reflexivity.
  destruct i; try discriminate; reflexivity.
Qed.

Lemma member_tuple_no_field TC rec kind first memberTy name locator cs baseTy fields :
  simplifyType first cs = Done (baseTy, cs) ->
  baseObjectType baseTy = TTuple fields ->
  tupleFieldIndex fields name = (-1)%Z ->
  simplifyMemberConstraint TC rec kind first memberTy name locator cs
  = Done (Error,
          withFailure (mkFailure locator Failure.DoesNotHaveMember (TTuple fields) None name) cs).
Proof.
  intros H Ht Hf. unfold simplifyMemberConstraint, bind at 1. rewrite H.
  unfold baseObjectType in Ht. rewrite Ht. rewrite Hf. reflexivity.
Qed.

(** The lookups never leave a constraint unsolved, and an empty set of
    surviving choices is a does-not-have-member failure, except for the
    decimal zero on an empty member lookup. *)
Lemma lookedUp_never_unsolved TC rec kind baseTy baseObjTy instanceTy isMetatype memberTy
    name locator cs r cs' :
  simplifyLookedUpMember TC rec kind baseTy baseObjTy instanceTy isMetatype memberTy name
    locator cs = Done (r, cs') ->
  r <> Unsolved.
Proof.
  unfold simplifyLookedUpMember, doesNotHaveMember, bind, ret. intros H.
  repeat (break_match; try discriminate); simplify_eq; discriminate.
Qed.

Lemma member_never_unsolved TC rec kind first memberTy name locator cs baseTy r cs' :
  simplifyType first cs = Done (baseTy, cs) ->
  isTypeVariable (baseInstanceType baseTy) = false ->
  simplifyMemberConstraint TC rec kind first memberTy name locator cs = Done (r, cs') ->
  r <> Unsolved.
Proof.
  intros H Hv. destruct (isTupleType (baseObjectType baseTy)) eqn:Ht.
  - unfold simplifyMemberConstraint, bind at 1. rewrite H.
    unfold baseObjectType in Ht. destruct (getRValueType baseTy); try discriminate.
    unfold doesNotHaveMember, bind, ret. intros Hr.
    repeat (break_match; try discriminate); simplify_eq; discriminate.
  - rewrite (member_concrete_base _ _ _ _ _ _ _ _ _ H Hv Ht).
    apply lookedUp_never_unsolved.
Qed.

(** C7, the claim as stated fails: the value-member lookup of "0" on [Int]
    finds no declaration, so no candidate survives, and the constraint is
    Solved, not Error. *)
Lemma C7_empty_lookup_can_be_solved :
  lookupMember Examples.bareTC Examples.Int "0" = []
  /\ exists cs',
       simplifyMemberConstraint Examples.bareTC (recursion Examples.bareTC 3)
         ConstraintKind.ValueMember Examples.Int (TTypeVariable 0) "0" None
         Examples.oneVariableCS
       = Done (Solved, cs').
Proof. split; [reflexivity|]. eexists. vm_compute. reflexivity. Qed.

(** The member-type path installs its overload set without checking that a
    candidate survived: when every declaration found is invalid, the
    assertion of [addOverloadSet] fails. *)
Lemma type_member_all_invalid_aborts :
  typeMemberChoices Examples.invalidMemberTC Examples.Int
    (lookupMemberType Examples.invalidMemberTC Examples.Int "Element") = []
  /\ simplifyMemberConstraint Examples.invalidMemberTC (recursion Examples.invalidMemberTC 3)
       ConstraintKind.TypeMember Examples.Int (TTypeVariable 0) "Element" None
       Examples.oneVariableCS
     = Abort.
Proof. split; reflexivity. Qed.

(** C7, amended: for a ValueMember or TypeMember constraint whose base
    simplifies to [baseTy].  While the instance type of the base is an
    unbound type variable the constraint is Unsolved.  Once it is concrete
    the constraint is never Unsolved, and it fails with does-not-have-member
    when the tuple base has no such field, when no initializer survives, when
    the member-type lookup finds nothing, and when no member survives the
    value-member lookup, unless that lookup found nothing at all for a name
    that is a decimal zero (which is solved by the base type itself). *)
Theorem C7_member_constraint TC rec kind first memberTy name locator cs baseTy :
  kind = ConstraintKind.ValueMember \/ kind = ConstraintKind.TypeMember ->
  simplifyType first cs = Done (baseTy, cs) ->
  let result := simplifyMemberConstraint TC rec kind first memberTy name locator cs in
  let failed cs1 :=
    Done (Error,
          withFailure
            (mkFailure locator Failure.DoesNotHaveMember (baseObjectType baseTy) None name)
            cs1) in
  (isTypeVariable (baseInstanceType baseTy) = true -> result = Done (Unsolved, cs))
  /\ (isTypeVariable (baseInstanceType baseTy) = false ->
      (forall r cs', result = Done (r, cs') -> r <> Unsolved)
      /\ (forall fields,
            baseObjectType baseTy = TTuple fields ->
            tupleFieldIndex fields name = (-1)%Z -> result = failed cs)
      /\ (isTupleType (baseObjectType baseTy) = false ->
          (name = "init" ->
           forall cs1,
             constructorChoices TC baseTy (isExistentialType (baseInstanceType baseTy))
               (lookupConstructors TC (baseObjectType baseTy)) cs = Done ([], cs1) ->
             result = failed cs1)
          /\ (name <> "init" -> kind = ConstraintKind.TypeMember ->
              lookupMemberType TC (baseObjectType baseTy) name = [] ->
              result = failed cs)
          /\ (name <> "init" -> kind = ConstraintKind.ValueMember ->
              forall cs1,
                valueMemberChoices TC baseTy (baseObjectType baseTy)
                  (isExistentialType (baseInstanceType baseTy)) (baseIsMetatype baseTy)
                  (baseIsDynamicLookup TC baseTy)
                  (lookupMember TC (baseObjectType baseTy) name) cs = Done ([], cs1) ->
                (lookupMember TC (baseObjectType baseTy) name = [] ->
                 getAsInteger name <> Some 0%N) ->
                result = failed cs1))).
Proof.
  intros Hkind H result failed. split.
  - intros Hv. eapply member_unbound_base; eauto.
  - intros Hv. split; [|split].
    + intros r cs'. eapply member_never_unsolved; eauto.
    + intros fields Ht Hf. subst result failed. rewrite Ht.
      eapply member_tuple_no_field; eauto.
    + intros Ht. subst result failed.
      rewrite (member_concrete_base _ _ _ _ _ _ _ _ _ H Hv Ht).
      unfold simplifyLookedUpMember. split; [|split].
      * intros -> cs1 Hc. cbn [String.eqb Ascii.eqb Bool.eqb andb].
        destruct (lookupConstructors TC (baseObjectType baseTy)) as [|c l].
        -- simpl in Hc. unfold ret in Hc. simplify_eq. reflexivity.
        -- unfold bind at 1. rewrite Hc. reflexivity.
      * intros Hn -> Hl. apply String.eqb_neq in Hn. rewrite Hn, Hl. reflexivity.
      * intros Hn -> cs1 Hc Hz. apply String.eqb_neq in Hn. rewrite Hn.
        destruct (lookupMember TC (baseObjectType baseTy) name) as [|d l] eqn:El.
        -- simpl in Hc. unfold ret in Hc. simplify_eq.
           specialize (Hz eq_refl).
           destruct (getAsInteger name) as [[|p]|]; try reflexivity. congruence.
        -- fold (baseIsDynamicLookup TC baseTy). unfold bind at 1. rewrite Hc. reflexivity.
Qed.

(** The theorem at the member "count" of [Int], which the lookup does not
    find: the constraint fails. *)
Lemma C7_member_constraint_witness :
  simplifyMemberConstraint Examples.bareTC (recursion Examples.bareTC 3)
    ConstraintKind.ValueMember Examples.Int (TTypeVariable 0) "count" None
    Examples.oneVariableCS
  = Done (Error,
          withFailure (mkFailure None Failure.DoesNotHaveMember Examples.Int None "count")
            Examples.oneVariableCS).
Proof.
  destruct (C7_member_constraint Examples.bareTC (recursion Examples.bareTC 3)
              ConstraintKind.ValueMember Examples.Int (TTypeVariable 0) "count" None
              Examples.oneVariableCS Examples.Int (or_introl eq_refl) eq_refl) as [_ H].
  destruct (H eq_refl) as (_ & _ & H3).
  destruct (H3 eq_refl) as (_ & _ & H6).
  apply (H6 ltac:(discriminate) eq_refl Examples.oneVariableCS eq_refl).
  discriminate.
Defined.

(* ===================================================================== *)
(** ** Structural induction on types *)
(* ===================================================================== *)

Lemma Ty_induction (P : Ty -> Prop)
  (HBuiltin : forall k i, P (TBuiltin k i))
  (HModule : forall i, P (TModule i))
  (HError : P TError)
  (HParam : forall d i, P (TGenericTypeParam d i))
  (HDependent : forall base assoc, P base -> P (TDependentMember base assoc))
  (HVariable : forall i, P (TTypeVariable i))
  (HArchetype : forall i, P (TArchetype i))
  (HTuple : forall fields, Forall (fun e => P (getType e)) fields -> P (TTuple fields))
  (HNominal : forall k d parent, (forall p, parent = Some p -> P p) -> P (TNominal k d parent))
  (HProtocol : forall d, P (TProtocol d))
  (HMeta : forall instance, P instance -> P (TMetaType instance))
  (HFunction : forall i r ac nr, P i -> P r -> P (TFunction i r ac nr))
  (HPoly : forall i r, P i -> P r -> P (TPolymorphicFunction i r))
  (HGeneric : forall i r, P i -> P r -> P (TGenericFunction i r))
  (HArray : forall base n, P base -> P (TArray base n))
  (HComposition : forall ps, Forall P ps -> P (TProtocolComposition ps))
  (HLValue : forall object q, P object -> P (TLValue object q))
  (HUnbound : forall d parent, (forall p, parent = Some p -> P p) -> P (TUnboundGeneric d parent))
  (HBound : forall k d parent args, (forall p, parent = Some p -> P p) -> Forall P args ->
                                    P (TBoundGeneric k d parent args)) :
  forall t, P t.
Proof.
  fix IH 1. intros t.
  destruct t as [| | | |base assoc| | |fields|k d parent| |instance|i r ac nr|i r|i r
                |base n|ps|object q|d parent|k d parent args].
  - apply HBuiltin.
  - apply HModule.
  - apply HError.
  - apply HParam.
  - apply HDependent, IH.
  - apply HVariable.
  - apply HArchetype.
  - apply HTuple. revert fields. fix IHf 1. intros [|[n ty v i] l]; constructor.
    + simpl. apply IH.
    + apply IHf.
  - apply HNominal. destruct parent as [x|]; intros p H;
      [injection H as <-; apply IH | discriminate].
  - apply HProtocol.
  - apply HMeta, IH.
  - apply HFunction; apply IH.
  - apply HPoly; apply IH.
  - apply HGeneric; apply IH.
  - apply HArray, IH.
  - apply HComposition. revert ps. fix IHl 1. intros [|x l]; constructor;
      [apply IH | apply IHl].
  - apply HLValue, IH.
  - apply HUnbound. destruct parent as [x|]; intros p H;
      [injection H as <-; apply IH | discriminate].
  - apply HBound.
    + destruct parent as [x|]; intros p H; [injection H as <-; apply IH | discriminate].
    + revert args. fix IHl 1. intros [|x l]; constructor; [apply IH | apply IHl].
Qed.

(** ** Equality of canonical types *)

Lemma list_eqb_eq {A} (f : A -> A -> bool) : forall l r,
  Forall (fun x => forall y, f x y = true -> x = y) l ->
  list_eqb f l r = true -> l = r.
Proof.
  induction l as [|x l IH]; intros [|y r] Hall H; simpl in H; try discriminate; auto.
  apply Forall_cons in Hall as [Hx Hall]. apply andb_true_iff in H as [H1 H2].
  f_equal; auto.
Qed.

Lemma list_eqb_refl {A} (f : A -> A -> bool) : forall l,
  Forall (fun x => f x x = true) l -> list_eqb f l l = true.
Proof.
  induction l as [|x l IH]; intros Hall; simpl; [reflexivity|].
  apply Forall_cons in Hall as [Hx Hall]. rewrite Hx. auto.
Qed.

Lemma NominalKind_eqb_eq a b : NominalKind_eqb a b = true <-> a = b.
Proof. destruct a, b; simpl; split; congruence. Qed.

Lemma Qual_eqb_eq a b : Qual_eqb a b = true <-> a = b.
Proof.
  destruct a as [[|] [|]], b as [[|] [|]]; unfold Qual_eqb; simpl; split; congruence.
Qed.

Lemma DefaultArgumentKind_eqb_eq a b : DefaultArgumentKind_eqb a b = true <-> a = b.
Proof. destruct a, b; simpl; split; congruence. Qed.

Lemma Ty_eqb_unfold_tuple fs gs : Ty_eqb (TTuple fs) (TTuple gs) = list_eqb Elt_eqb fs gs.
Proof. reflexivity. Qed.

Lemma Ty_eqb_eq : forall a b, Ty_eqb a b = true -> a = b.
Proof.
  induction a using Ty_induction; intros b Hb; destruct b; simpl in Hb; try discriminate;
    repeat match goal with
           | H : _ && _ = true |- _ => apply andb_true_iff in H as [? ?]
           | H : Nat.eqb _ _ = true |- _ => apply Nat.eqb_eq in H; subst
           | H : Bool.eqb _ _ = true |- _ => apply Bool.eqb_prop in H; subst
           | H : NominalKind_eqb _ _ = true |- _ => apply NominalKind_eqb_eq in H; subst
           | H : Qual_eqb _ _ = true |- _ => apply Qual_eqb_eq in H; subst
           end;
    try reflexivity;
    try (f_equal; eauto; fail).
  - (* tuples *)
    f_equal. change (list_eqb Elt_eqb fields fields0 = true) in Hb.
    apply list_eqb_eq in Hb; [exact Hb|].
    eapply Forall_impl; [exact H|]. intros [n ty v i] Hty [n' ty' v' i'] He. simpl in *.
    repeat match goal with
           | H : _ && _ = true |- _ => apply andb_true_iff in H as [? ?]
           end.
    apply String.eqb_eq in H0. apply Bool.eqb_prop in H2.
    apply DefaultArgumentKind_eqb_eq in H1. apply Hty in H3. congruence.
  - destruct parent as [p|], parent0 as [p0|]; try discriminate; [|reflexivity].
    f_equal. f_equal. eauto.
  - f_equal. change (list_eqb Ty_eqb ps protocols = true) in Hb.
    apply list_eqb_eq in Hb; auto.
  - destruct parent as [p|], parent0 as [p0|]; try discriminate; [|reflexivity].
    f_equal. f_equal. eauto.
  - change (list_eqb Ty_eqb args args0 = true) in H2.
    apply list_eqb_eq in H2; auto. subst.
    destruct parent as [p|], parent0 as [p0|]; try discriminate; [|reflexivity].
    f_equal. f_equal. eauto.
Qed.

Lemma Ty_eqb_refl : forall a, Ty_eqb a a = true.
Proof.
  assert (Hopt : forall parent : option Ty,
            (forall p, parent = Some p -> Ty_eqb p p = true) ->
            match parent with
            | Some x => match parent with Some y => Ty_eqb x y | None => false end
            | None => match parent with Some _ => false | None => true end
            end = true).
  { intros [p|] H; auto. }
  induction a using Ty_induction; simpl;
    rewrite ?Nat.eqb_refl, ?Bool.eqb_reflx, ?IHa, ?IHa1, ?IHa2; simpl; try reflexivity.
  - change (list_eqb Elt_eqb fields fields = true). apply list_eqb_refl.
    eapply Forall_impl; [exact H|]. intros [n ty v i] Hty. simpl in *.
    rewrite String.eqb_refl, Hty, Bool.eqb_reflx. destruct i; reflexivity.
  - rewrite Hopt by exact H. destruct k; reflexivity.
  - change (list_eqb Ty_eqb ps ps = true). apply list_eqb_refl. exact H.
  - destruct q as [[|] [|]]; reflexivity.
  - apply Hopt. exact H.
  - rewrite Hopt by exact H. destruct k; simpl; apply (list_eqb_refl Ty_eqb); exact H0.
Qed.

Lemma Ty_eqb_true_iff a b : Ty_eqb a b = true <-> a = b.
Proof. split; [apply Ty_eqb_eq | intros ->; apply Ty_eqb_refl]. Qed.

Lemma Ty_eqb_sym a b : Ty_eqb a b = Ty_eqb b a.
Proof.
  destruct (Ty_eqb a b) eqn:E1, (Ty_eqb b a) eqn:E2; try reflexivity.
  - apply Ty_eqb_eq in E1. subst. rewrite Ty_eqb_refl in E2. discriminate.
  - apply Ty_eqb_eq in E2. subst. rewrite Ty_eqb_refl in E1. discriminate.
Qed.

(* ===================================================================== *)
(** ** The ranker: [findBestSolution] *)
(* ===================================================================== *)

Section FindBestProperties.

Variable compare : nat -> nat -> SolutionCompareResult.

Lemma isLoser_insert_mono l i x :
  isLoser l x = true -> isLoser (<[i := true]> l) x = true.
Proof.
  unfold isLoser. intros H. destruct (decide (i = x)) as [->|Hne].
  - destruct (l !! x) eqn:E; [|discriminate].
    rewrite list_lookup_insert_eq by (eapply lookup_lt_Some; eauto). reflexivity.
  - rewrite list_lookup_insert_ne by done. exact H.
Qed.

Lemma isLoser_insert_inv l i x :
  isLoser (<[i := true]> l) x = true -> x = i \/ isLoser l x = true.
Proof.
  unfold isLoser. intros H. destruct (decide (i = x)) as [->|Hne]; [left; done|].
  rewrite list_lookup_insert_ne in H by done. right; exact H.
Qed.

Lemma isLoser_insert_eq l i : i < length l -> isLoser (<[i := true]> l) i = true.
Proof. intros H. unfold isLoser. rewrite list_lookup_insert_eq by done. reflexivity. Qed.

Lemma isLoser_replicate n i : isLoser (replicate n false) i = false.
Proof.
  unfold isLoser. destruct (replicate n false !! i) eqn:E; [|reflexivity].
  apply lookup_replicate in E as [-> _]. reflexivity.
Qed.

Lemma justified_insert n l i j :
  justified compare n l -> i < n -> i <> j -> beats compare i j ->
  justified compare n (<[j := true]> l).
Proof.
  intros Hj Hi Hne Hb x Hx. apply isLoser_insert_inv in Hx as [->|Hx]; eauto.
Qed.

(** *** The first loop *)

Lemma potentialBest_invariant n len : forall start losers best,
  best < start -> start + len <= n -> justified compare n losers ->
  justified compare n
    (fold_left (potentialBestStep compare) (seq start len) (losers, best)).1
  /\ (fold_left (potentialBestStep compare) (seq start len) (losers, best)).2 < n
  /\ length (fold_left (potentialBestStep compare) (seq start len) (losers, best)).1
     = length losers.
Proof.
  induction len as [|len IH]; intros start losers best Hb Hn Hj; simpl.
  - repeat split; [exact Hj | lia].
  - destruct (compare start best) eqn:E.
    + apply IH; [lia | lia | exact Hj].
    + apply IH; [lia | lia | exact Hj].
    + destruct (IH (S start) (<[best := true]> losers) start) as (H1 & H2 & H3);
        [lia | lia | | ].
      * apply justified_insert with (i := start); [exact Hj | lia | lia | left; exact E].
      * rewrite length_insert in H3. auto.
    + destruct (IH (S start) (<[start := true]> losers) best) as (H1 & H2 & H3);
        [lia | lia | | ].
      * apply justified_insert with (i := best); [exact Hj | lia | lia | right; exact E].
      * rewrite length_insert in H3. auto.
Qed.

(** *** The second loop *)

Lemma confirmBest_minimize_off best : forall indices losers l,
  confirmBest compare false best indices losers <> Some (l, true).
Proof.
  induction indices as [|i rest IH]; intros losers l; simpl; [discriminate|].
  destruct (Nat.eqb i best); [apply IH|].
  destruct (compare best i); try apply IH; discriminate.
Qed.

Lemma confirmBest_minimize_on best : forall indices losers,
  confirmBest compare true best indices losers <> None.
Proof.
  induction indices as [|i rest IH]; intros losers; simpl; [discriminate|].
  destruct (Nat.eqb i best); [apply IH|].
  destruct (compare best i); try apply IH; discriminate.
Qed.

Lemma confirmBest_invariant n minimize best : forall indices losers l amb,
  best < n -> Forall (fun i => i < n) indices -> justified compare n losers ->
  confirmBest compare minimize best indices losers = Some (l, amb) ->
  justified compare n l /\ length l = length losers.
Proof.
  induction indices as [|i rest IH]; intros losers l amb Hb Hall Hj H; simpl in H.
  - injection H as <- <-. auto.
  - apply Forall_cons in Hall as [Hi Hall].
    destruct (Nat.eqb i best) eqn:Eb; [eapply IH; eauto|].
    apply Nat.eqb_neq in Eb.
    destruct (compare best i) eqn:E.
    + destruct minimize; simpl in H; [|discriminate]. injection H as <- <-. auto.
    + eapply IH; eauto.
    + destruct (IH _ _ _ Hb Hall
                  (justified_insert n losers best i Hj Hb ltac:(lia) (or_introl E)) H)
        as [H1 H2].
      rewrite length_insert in H2. auto.
    + destruct minimize; simpl in H; [|discriminate]. injection H as <- <-.
      split; [|apply length_insert].
      apply justified_insert with (i := i); [exact Hj | exact Hi | lia | right; exact E].
Qed.

Lemma confirmBest_unambiguous minimize best : forall indices losers l,
  confirmBest compare minimize best indices losers = Some (l, false) ->
  Forall (fun i => i <> best ->
                   compare best i = Better \/ compare best i = Identical) indices.
Proof.
  induction indices as [|i rest IH]; intros losers l H; simpl in H; [constructor|].
  destruct (Nat.eqb i best) eqn:Eb.
  - apply Nat.eqb_eq in Eb. constructor; [intros; congruence | eapply IH; eauto].
  - destruct (compare best i) eqn:E.
    + destruct minimize; discriminate.
    + constructor; [auto | eapply IH; eauto].
    + constructor; [auto | eapply IH; eauto].
    + destruct minimize; discriminate.
Qed.

(** *** The sweep *)

Lemma sweepInner_length i : forall js losers,
  length (sweepInner compare i js losers) = length losers.
Proof.
  induction js as [|j rest IH]; intros losers; simpl; [reflexivity|].
  destruct (isLoser losers j); [apply IH|].
  destruct (compare i j); rewrite IH; rewrite ?length_insert; reflexivity.
Qed.

Lemma sweepInner_mono i x : forall js losers,
  isLoser losers x = true -> isLoser (sweepInner compare i js losers) x = true.
Proof.
  induction js as [|j rest IH]; intros losers H; simpl; [exact H|].
  destruct (isLoser losers j); [apply IH; exact H|].
  destruct (compare i j); apply IH; auto using isLoser_insert_mono.
Qed.

Lemma sweepInner_justified n i : forall js losers,
  i < n -> Forall (fun j => j < n /\ i <> j) js -> justified compare n losers ->
  justified compare n (sweepInner compare i js losers).
Proof.
  induction js as [|j rest IH]; intros losers Hi Hall Hj; simpl; [exact Hj|].
  apply Forall_cons in Hall as [[Hjn Hne] Hall].
  destruct (isLoser losers j); [apply IH; auto|].
  destruct (compare i j) eqn:E; apply IH; auto.
  - apply justified_insert with (i := i); auto. left; exact E.
  - apply justified_insert with (i := j); auto. right; exact E.
Qed.

Lemma sweepInner_settles i : forall js losers,
  i < length losers -> Forall (fun j => j < length losers) js ->
  Forall (fun j =>
            isLoser (sweepInner compare i js losers) i = false ->
            isLoser (sweepInner compare i js losers) j = false ->
            tied compare i j) js.
Proof.
  induction js as [|j rest IH]; intros losers Hi Hall; simpl; [constructor|].
  apply Forall_cons in Hall as [Hj Hall].
  destruct (isLoser losers j) eqn:Ej.
  - constructor; [|apply IH; auto].
    intros _ H. rewrite (sweepInner_mono i j rest losers Ej) in H. discriminate.
  - destruct (compare i j) eqn:E.
    + constructor; [intros; right; exact E | apply IH; auto].
    + constructor; [intros; left; exact E | apply IH; auto].
    + constructor.
      * intros _ H.
        rewrite (sweepInner_mono i j rest _ (isLoser_insert_eq losers j Hj)) in H.
        discriminate.
      * apply IH; rewrite length_insert; auto.
    + constructor.
      * intros H _.
        rewrite (sweepInner_mono i i rest _ (isLoser_insert_eq losers i Hi)) in H.
        discriminate.
      * apply IH; rewrite length_insert; auto.
Qed.

Lemma sweep_length n : forall indices losers,
  length (sweep compare n indices losers) = length losers.
Proof.
  induction indices as [|i rest IH]; intros losers; simpl; [reflexivity|].
  destruct (isLoser losers i); rewrite IH; rewrite ?sweepInner_length; reflexivity.
Qed.

Lemma sweep_mono n x : forall indices losers,
  isLoser losers x = true -> isLoser (sweep compare n indices losers) x = true.
Proof.
  induction indices as [|i rest IH]; intros losers H; simpl; [exact H|].
  destruct (isLoser losers i); apply IH; auto using sweepInner_mono.
Qed.

Lemma sweep_justified n : forall indices losers,
  Forall (fun i => i < n) indices -> justified compare n losers ->
  justified compare n (sweep compare n indices losers).
Proof.
  induction indices as [|i rest IH]; intros losers Hall Hj; simpl; [exact Hj|].
  apply Forall_cons in Hall as [Hi Hall].
  destruct (isLoser losers i); apply IH; auto.
  apply sweepInner_justified; auto.
  apply Forall_forall. intros j Hin. apply elem_of_seq in Hin. lia.
Qed.

Lemma sweep_settles n : forall indices losers,
  length losers = n -> Forall (fun i => i < n) indices ->
  Forall (fun i => forall j, i < j < n ->
            isLoser (sweep compare n indices losers) i = false ->
            isLoser (sweep compare n indices losers) j = false ->
            tied compare i j) indices.
Proof.
  induction indices as [|i rest IH]; intros losers Hlen Hall; simpl; [constructor|].
  apply Forall_cons in Hall as [Hi Hall].
  destruct (isLoser losers i) eqn:Ei.
  - constructor; [|apply IH; auto].
    intros j _ H. rewrite (sweep_mono n i rest losers Ei) in H. discriminate.
  - constructor; [|apply IH; rewrite ?sweepInner_length; auto].
    intros j Hj H1 H2.
    assert (Hs : Forall (fun j => j < length losers) (seq (S i) (n - S i))).
    { apply Forall_forall. intros k Hk. apply elem_of_seq in Hk. lia. }
    apply (sweepInner_settles i _ losers ltac:(lia)) in Hs.
    rewrite Forall_forall in Hs. apply (Hs j).
    + apply elem_of_seq. lia.
    + destruct (isLoser (sweepInner compare i (seq (S i) (n - S i)) losers) i) eqn:E;
        [|reflexivity].
      rewrite (sweep_mono n i rest _ E) in H1. discriminate.
    + destruct (isLoser (sweepInner compare i (seq (S i) (n - S i)) losers) j) eqn:E;
        [|reflexivity].
      rewrite (sweep_mono n j rest _ E) in H2. discriminate.
Qed.

(** *** Removing the losers *)

Lemma removeLosers_lookup {A} (losers : list bool) : forall (viable : list A) start s,
  s ∈ removeLosers viable start losers <->
  exists i, viable !! i = Some s /\ isLoser losers (start + i) = false.
Proof.
  induction viable as [|v rest IH]; intros start s; simpl.
  - split.
    + intros H. inversion H.
    + intros (i & H & _). rewrite lookup_nil in H. discriminate.
  - destruct (isLoser losers start) eqn:E.
    + rewrite IH. split.
      * intros (i & H1 & H2). exists (S i). split; [exact H1|].
        replace (start + S i) with (S start + i) by lia. exact H2.
      * intros ([|i] & H1 & H2).
        -- rewrite Nat.add_0_r in H2. congruence.
        -- exists i. split; [exact H1|].
           replace (S start + i) with (start + S i) by lia. exact H2.
    + rewrite elem_of_cons, IH. split.
      * intros [->|(i & H1 & H2)].
        -- exists 0. split; [reflexivity|]. rewrite Nat.add_0_r. exact E.
        -- exists (S i). split; [exact H1|].
           replace (start + S i) with (S start + i) by lia. exact H2.
      * intros ([|i] & H1 & H2).
        -- left. simpl in H1. congruence.
        -- right. exists i. split; [exact H1|].
           replace (S start + i) with (start + S i) by lia. exact H2.
Qed.

Lemma removeLosers_sublist {A} (losers : list bool) : forall (viable : list A) start,
  sublist (removeLosers viable start losers) viable.
Proof.
  induction viable as [|v rest IH]; intros start; simpl; [constructor|].
  destruct (isLoser losers start); [apply sublist_cons | apply sublist_skip]; apply IH.
Qed.

(** *** The whole function, over any comparator *)

Lemma findBestSolutionWith_best {A} (viable : list A) minimize b viable' :
  findBestSolutionWith compare viable minimize = (Some b, viable') ->
  viable' = viable /\ b < length viable /\
  forall i, i < length viable -> i <> b ->
            compare b i = Better \/ compare b i = Identical.
Proof.
  unfold findBestSolutionWith.
  destruct viable as [|v0 [|v1 rest]]; [discriminate| |].
  - intros H. injection H as <- <-. repeat split; simpl; [lia|]. intros i Hi Hne. lia.
  - set (n := length (v0 :: v1 :: rest)).
    destruct (fold_left (potentialBestStep compare) (seq 1 (n - 1)) (replicate n false, 0))
      as [losers best] eqn:E1.
    destruct (potentialBest_invariant n (n - 1) 1 (replicate n false) 0) as (_ & Hb & _).
    { lia. } { subst n. simpl. lia. }
    { intros j Hj. rewrite isLoser_replicate in Hj. discriminate. }
    rewrite E1 in Hb. simpl in Hb.
    destruct (confirmBest compare minimize best (seq 0 n) losers) as [[l [|]]|] eqn:E2;
      try discriminate.
    intros H. injection H as <- <-. repeat split; [exact Hb|].
    intros i Hi Hne. apply confirmBest_unambiguous in E2.
    rewrite Forall_forall in E2. apply E2; [|exact Hne].
    apply elem_of_seq. fold n in Hi. lia.
Qed.

Lemma findBestSolutionWith_plain {A} (viable : list A) :
  (findBestSolutionWith compare viable false).2 = viable.
Proof.
  unfold findBestSolutionWith.
  destruct viable as [|v0 [|v1 rest]]; [reflexivity..|].
  set (n := length (v0 :: v1 :: rest)).
  destruct (fold_left (potentialBestStep compare) (seq 1 (n - 1)) (replicate n false, 0))
    as [losers best].
  destruct (confirmBest compare false best (seq 0 n) losers) as [[l [|]]|] eqn:E2;
    try reflexivity.
  exfalso. exact (confirmBest_minimize_off best _ _ _ E2).
Qed.

Lemma findBestSolutionWith_minimized {A} (viable : list A) viable' :
  findBestSolutionWith compare viable true = (None, viable') ->
  exists losers,
    viable' = removeLosers viable 0 losers /\
    justified compare (length viable) losers /\
    forall i j, i < j < length viable ->
                isLoser losers i = false -> isLoser losers j = false ->
                tied compare i j.
Proof.
  unfold findBestSolutionWith.
  destruct viable as [|v0 [|v1 rest]]; [|discriminate|].
  - intros H. injection H as <-. exists []. repeat split.
    + intros j Hj. discriminate.
    + simpl. intros; lia.
  - set (viable := v0 :: v1 :: rest). set (n := length viable).
    destruct (fold_left (potentialBestStep compare) (seq 1 (n - 1)) (replicate n false, 0))
      as [losers best] eqn:E1.
    destruct (potentialBest_invariant n (n - 1) 1 (replicate n false) 0) as (Hj & Hb & Hl).
    { lia. } { subst n viable. simpl. lia. }
    { intros j Hj. rewrite isLoser_replicate in Hj. discriminate. }
    rewrite E1 in Hj, Hb, Hl. simpl in Hj, Hb, Hl. rewrite length_replicate in Hl.
    assert (Hseq : Forall (fun i => i < n) (seq 0 n)).
    { apply Forall_forall. intros k Hk. apply elem_of_seq in Hk. lia. }
    destruct (confirmBest compare true best (seq 0 n) losers) as [[l [|]]|] eqn:E2;
      try discriminate.
    + intros H. injection H as <-.
      destruct (confirmBest_invariant n true best _ _ _ _ Hb Hseq Hj E2) as [Hj' Hl'].
      exists (sweep compare n (seq 0 n) l). repeat split.
      * apply sweep_justified; auto.
      * intros i j Hij Hi Hj0.
        assert (Hln : length l = n) by (rewrite Hl', Hl; reflexivity).
        pose proof (sweep_settles n (seq 0 n) l Hln Hseq) as Hs.
        rewrite Forall_forall in Hs. apply (Hs i); auto.
        apply elem_of_seq. lia.
    + exfalso. exact (confirmBest_minimize_on best _ _ E2).
Qed.

End FindBestProperties.

(** [findBestSolution] returns an index only when that solution compares
    Better than or Identical to every other viable solution; the vector of
    viable solutions is then left as it was. *)
Theorem findBestSolution_index_dominates TC cs viable minimize b viable' :
  findBestSolution TC cs viable minimize = (Some b, viable') ->
  viable' = viable /\ b < length viable /\
  forall i, i < length viable -> i <> b ->
            comparator TC cs viable b i = Better \/ comparator TC cs viable b i = Identical.
Proof. apply findBestSolutionWith_best. Qed.

Lemma findBestSolution_index_dominates_witness :
  findBestSolution Examples.bareTC rankedCS scoredSolutions true = (Some 0, scoredSolutions)
  /\ forall i, i < length scoredSolutions -> i <> 0 ->
       comparator Examples.bareTC rankedCS scoredSolutions 0 i = Better
       \/ comparator Examples.bareTC rankedCS scoredSolutions 0 i = Identical.
Proof.
  split; [reflexivity|].
  apply (findBestSolution_index_dominates Examples.bareTC rankedCS scoredSolutions true 0
           scoredSolutions).
  reflexivity.
Defined.

(** Without minimization [findBestSolution] never modifies the vector of
    viable solutions, whatever it returns. *)
Theorem findBestSolution_plain_keeps_viable TC cs viable :
  (findBestSolution TC cs viable false).2 = viable.
Proof. apply findBestSolutionWith_plain. Qed.

(** With minimization, when [findBestSolution] returns no index, the
    solutions it leaves are the ones not marked as losers, in their original
    order; every solution it removes compared strictly worse than some other
    solution, and no two that remain compared strictly against each other in
    index order. *)
Theorem findBestSolution_minimized TC cs viable viable' :
  findBestSolution TC cs viable true = (None, viable') ->
  exists losers,
    viable' = removeLosers viable 0 losers /\
    sublist viable' viable /\
    (forall j, isLoser losers j = true ->
               exists i, i < length viable /\ i <> j /\ beats (comparator TC cs viable) i j) /\
    (forall i j, i < j < length viable ->
                 isLoser losers i = false -> isLoser losers j = false ->
                 tied (comparator TC cs viable) i j).
Proof.
  intros H. apply findBestSolutionWith_minimized in H as (losers & -> & Hj & Ht).
  exists losers. repeat split; auto using removeLosers_sublist.
Qed.

Lemma findBestSolution_minimized_witness :
  findBestSolution Examples.bareTC rankedCS unrelatedSolutions true
  = (None, unrelatedSolutions)
  /\ exists losers,
       unrelatedSolutions = removeLosers unrelatedSolutions 0 losers /\
       sublist unrelatedSolutions unrelatedSolutions /\
       (forall j, isLoser losers j = true ->
                  exists i, i < length unrelatedSolutions /\ i <> j /\
                            beats (comparator Examples.bareTC rankedCS unrelatedSolutions) i j) /\
       (forall i j, i < j < length unrelatedSolutions ->
                    isLoser losers i = false -> isLoser losers j = false ->
                    tied (comparator Examples.bareTC rankedCS unrelatedSolutions) i j).
Proof.
  split; [reflexivity|].
  apply (findBestSolution_minimized Examples.bareTC rankedCS unrelatedSolutions
           unrelatedSolutions).
  reflexivity.
Defined.

(* ===================================================================== *)
(** ** The ranker: [compareSolutions] *)
(* ===================================================================== *)

Section CompareProperties.

Variable TC : TypeChecker.

Lemma OverloadChoiceKind_eqb_sym a b :
  OverloadChoiceKind.eqb a b = OverloadChoiceKind.eqb b a.
Proof. destruct a, b; reflexivity. Qed.

Lemma OverloadChoiceKind_eqb_eq a b : OverloadChoiceKind.eqb a b = true -> a = b.
Proof. destruct a, b; simpl; congruence. Qed.

Lemma sameDecl_sym d1 d2 : sameDecl TC d1 d2 = sameDecl TC d2 d1.
Proof.
  unfold sameDecl. rewrite (Nat.eqb_sym d2 d1).
  destruct (Nat.eqb d1 d2); [reflexivity|].
  destruct (declIsTypeDecl TC d1), (declIsTypeDecl TC d2); reflexivity.
Qed.

Lemma sameOverloadChoice_sym x y :
  sameOverloadChoice TC x y = sameOverloadChoice TC y x.
Proof.
  unfold sameOverloadChoice. rewrite (OverloadChoiceKind_eqb_sym (choiceKind y)).
  destruct (OverloadChoiceKind.eqb (choiceKind x) (choiceKind y)) eqn:E; [|reflexivity].
  apply OverloadChoiceKind_eqb_eq in E. rewrite <- E. simpl.
  destruct (choiceKind x); try reflexivity;
    try (destruct (choiceDecl x), (choiceDecl y); try reflexivity; apply sameDecl_sym).
  apply Nat.eqb_sym.
Qed.

Lemma compareOverload_flip i j s o :
  compareOverload TC j i (flipScores s) o = flipScores (compareOverload TC i j s o).
Proof.
  unfold compareOverload.
  destruct (SolutionDiff.choices o !! i) as [c1|], (SolutionDiff.choices o !! j) as [c2|];
    try reflexivity.
  rewrite (sameOverloadChoice_sym c2 c1).
  destruct (sameOverloadChoice TC c1 c2) eqn:Esame; [reflexivity|].
  rewrite (OverloadChoiceKind_eqb_sym (choiceKind c2)).
  destruct (OverloadChoiceKind.eqb (choiceKind c1) (choiceKind c2)) eqn:Ek; simpl.
  - apply OverloadChoiceKind_eqb_eq in Ek.
    unfold sameOverloadChoice in Esame. rewrite <- Ek in *.
    destruct (choiceKind c1) eqn:K; simpl in *; try reflexivity;
      destruct (choiceDecl c1) as [d1|], (choiceDecl c2) as [d2|]; try reflexivity;
      unfold sameDecl in Esame;
      destruct (Nat.eqb d1 d2); try discriminate;
      destruct (declIsTypeDecl TC d1) eqn:T1, (declIsTypeDecl TC d2) eqn:T2;
        try discriminate; simpl in *;
      destruct (isDeclAsSpecializedAs TC d1 d2), (isDeclAsSpecializedAs TC d2 d1),
        (declHasClangNode TC d1), (declHasClangNode TC d2),
        (declIsAbstractFunction TC d1), (declIsAbstractFunction TC d2);
      reflexivity.
  - destruct (choiceKind c1), (choiceKind c2); try discriminate; reflexivity.
Qed.

Lemma compareBinding_flip cs i j s b :
  compareBinding TC cs j i (flipScores s) b = flipScores (compareBinding TC cs i j s b).
Proof.
  unfold compareBinding.
  destruct (negb _); [reflexivity|].
  destruct (SolutionDiff.bindings b !! i) as [t1|], (SolutionDiff.bindings b !! j) as [t2|];
    try reflexivity.
  set (a := stripInitializers t1). set (c := stripInitializers t2).
  rewrite (Ty_eqb_sym c a).
  destruct (Ty_eqb a c) eqn:Eac; [reflexivity|].
  rewrite (orb_comm (hasTypeVariable c)).
  destruct (hasTypeVariable a || hasTypeVariable c); [reflexivity|].
  rewrite (orb_comm (isSubtypeOf TC c a)).
  destruct (isSubtypeOf TC a c) eqn:S1, (isSubtypeOf TC c a) eqn:S2; simpl.
  all: rewrite ?(Ty_eqb_sym (getUnlabeledType TC c) (getUnlabeledType TC a)).
  1-3: destruct (Ty_eqb (getUnlabeledType TC a) (getUnlabeledType TC c)) eqn:Eu;
       simpl; [|reflexivity];
       destruct (Ty_eqb a (getUnlabeledType TC a)) eqn:E1,
                (Ty_eqb c (getUnlabeledType TC c)) eqn:E2; try reflexivity;
       apply Ty_eqb_eq in Eu, E1, E2;
       assert (a = c) as Heq by congruence;
       rewrite Heq, Ty_eqb_refl in Eac; discriminate.
  rewrite (orb_comm (isConvertibleTo TC c a)).
  destruct (isConvertibleTo TC a c), (isConvertibleTo TC c a); simpl; try reflexivity.
  destruct (isArchetypeType a), (isArchetypeType c); reflexivity.
Qed.

Lemma fold_flip {X} (f g : Scores -> X -> Scores) :
  (forall s x, g (flipScores s) x = flipScores (f s x)) ->
  forall l s, fold_left g l (flipScores s) = flipScores (fold_left f l s).
Proof.
  intros H. induction l as [|x l IH]; intros s; simpl; [reflexivity|].
  rewrite H. apply IH.
Qed.

(** Comparing two solutions the other way round gives the mirrored result:
    one is Better exactly when the other is Worse, and Identical and
    Incomparable are symmetric. *)
Theorem compareSolutions_antisymmetric cs solutions diff i j :
  compareSolutions TC cs solutions diff j i
  = flipResult (compareSolutions TC cs solutions diff i j).
Proof.
  unfold compareSolutions.
  set (s0 := mkScores (default 0%Z (fixedScore <$> solutions !! i))
                      (default 0%Z (fixedScore <$> solutions !! j)) true).
  change (mkScores (default 0%Z (fixedScore <$> solutions !! j))
                   (default 0%Z (fixedScore <$> solutions !! i)) true)
    with (flipScores s0).
  rewrite (fold_flip (compareOverload TC i j) (compareOverload TC j i))
    by (intros; apply compareOverload_flip).
  rewrite (fold_flip (compareBinding TC cs i j) (compareBinding TC cs j i))
    by (intros; apply compareBinding_flip).
  set (s := fold_left _ _ (fold_left _ _ s0)). simpl.
  rewrite (Z.eqb_sym (score2 s)).
  destruct (Z.eqb_spec (score1 s) (score2 s)) as [Heq|Hne]; simpl.
  - destruct (identical s); reflexivity.
  - destruct (Z.ltb_spec (score1 s) (score2 s)), (Z.ltb_spec (score2 s) (score1 s));
      try reflexivity; lia.
Qed.

End CompareProperties.

(* ===================================================================== *)
(** ** Tuple shuffles *)
(* ===================================================================== *)

Lemma computeTupleShuffle_run fromTuple toTuple mandatory :
  computeTupleShuffle fromTuple toTuple mandatory =
  match shuffleRun fromTuple toTuple mandatory with
  | inl s => (true, sources s, variadicArgs s)
  | inr s =>
      if negb (Nat.eqb (fromNext s) (length fromTuple))
      then (true, sources s, variadicArgs s)
      else (false, sources s, variadicArgs s)
  end.
Proof.
  unfold computeTupleShuffle, shuffleRun.
  destruct (matchNamed _ _ _ _ _) as [srcs used]. reflexivity.
Qed.

Lemma sourceIndices_replicate n : sourceIndices (replicate n unassigned) = [].
Proof. induction n as [|n IH]; [reflexivity|]. simpl. exact IH. Qed.

Lemma sourceIndices_insert_index : forall srcs i j z,
  srcs !! i = Some z -> (z < 0)%Z ->
  sourceIndices (<[i := Z.of_nat j]> srcs) ≡ₚ j :: sourceIndices srcs.
Proof.
  induction srcs as [|x srcs IH]; intros i j z Hl Hz; [discriminate|].
  destruct i as [|i]; simpl in *.
  - injection Hl as ->. unfold sourceIndices. simpl.
    destruct (Z.leb_spec 0 (Z.of_nat j)); [|lia].
    destruct (Z.leb_spec 0 z); [lia|]. rewrite Nat2Z.id. reflexivity.
  - unfold sourceIndices in *. simpl.
    destruct (0 <=? x)%Z; simpl.
    + rewrite (IH i j z Hl Hz). apply Permutation_swap.
    + apply (IH i j z Hl Hz).
Qed.

Lemma sourceIndices_insert_marker : forall srcs i z z',
  srcs !! i = Some z -> (z < 0)%Z -> (z' < 0)%Z ->
  sourceIndices (<[i := z']> srcs) = sourceIndices srcs.
Proof.
  induction srcs as [|x srcs IH]; intros i z z' Hl Hz Hz'; [discriminate|].
  destruct i as [|i]; simpl in *.
  - injection Hl as ->. unfold sourceIndices. simpl.
    destruct (Z.leb_spec 0 z'); [lia|]. destruct (Z.leb_spec 0 z); [lia|]. reflexivity.
  - unfold sourceIndices in *. simpl. rewrite (IH i z z' Hl Hz Hz'). reflexivity.
Qed.

Lemma elem_of_sourceIndices srcs j :
  j ∈ sourceIndices srcs <-> exists i, srcs !! i = Some (Z.of_nat j).
Proof.
  unfold sourceIndices. rewrite list_elem_of_omap. split.
  - intros (z & Hin & Hz). apply list_elem_of_lookup in Hin as [i Hi]. exists i.
    destruct (Z.leb_spec 0 z); [|discriminate]. injection Hz as <-.
    rewrite Z2Nat.id by lia. exact Hi.
  - intros [i Hi]. exists (Z.of_nat j). split; [eapply list_elem_of_lookup_2; eauto|].
    destruct (Z.leb_spec 0 (Z.of_nat j)); [|lia]. rewrite Nat2Z.id. reflexivity.
Qed.

(** *** The search for a named element *)

Lemma findNamed_spec name : forall fields used idx k,
  findNamed name fields used idx = Some k ->
  idx <= k /\ exists e, fields !! (k - idx) = Some e /\ getName e = name
                        /\ default false (used !! k) = false.
Proof.
  induction fields as [|f rest IH]; intros used idx k H; simpl in H; [discriminate|].
  destruct (String.eqb (getName f) name && negb (default false (used !! idx))) eqn:E.
  - injection H as <-. apply andb_true_iff in E as [E1 E2].
    apply String.eqb_eq in E1. apply negb_true_iff in E2.
    split; [lia|]. exists f. rewrite Nat.sub_diag. auto.
  - apply IH in H as (Hle & e & He & Hn & Hu). split; [lia|]. exists e.
    replace (k - idx) with (S (k - S idx)) by lia. auto.
Qed.

(** *** Recording an assignment *)

Lemma coreInv_assign fromTuple toTuple mandatory srcs vargs used i j e1 e2 :
  coreInv fromTuple toTuple mandatory srcs vargs used ->
  srcs !! i = Some unassigned ->
  fromTuple !! j = Some e1 -> toTuple !! i = Some e2 ->
  default false (used !! j) = false ->
  labelOk mandatory e1 e2 ->
  coreInv fromTuple toTuple mandatory (<[i := Z.of_nat j]> srcs) vargs (<[j := true]> used).
Proof.
  intros (Hls & Hlu & Hnd & Hused & Hent & Hva) Hi Hj Hti Hfree Hlab.
  assert (Hperm : sourceIndices (<[i := Z.of_nat j]> srcs) ++ vargs
                  ≡ₚ j :: (sourceIndices srcs ++ vargs)).
  { rewrite (sourceIndices_insert_index srcs i j unassigned Hi) by (unfold unassigned; lia).
    reflexivity. }
  assert (Hjm : j < length used).
  { rewrite Hlu. eapply lookup_lt_Some; eauto. }
  assert (Hnotin : j ∉ sourceIndices srcs ++ vargs).
  { intros Hin. apply Hused in Hin. rewrite Hin in Hfree. discriminate. }
  unfold coreInv. rewrite !length_insert. repeat split; auto.
  - rewrite Hperm. constructor; auto.
  - intros H. rewrite Hperm. destruct (decide (j0 = j)) as [->|Hne]; [left|].
    rewrite list_lookup_insert_ne in H by lia. right. apply Hused. exact H.
  - rewrite Hperm. intros H. destruct (decide (j0 = j)) as [->|Hne].
    + apply list_lookup_insert_eq. exact Hjm.
    + rewrite list_lookup_insert_ne by lia. apply Hused.
      apply elem_of_cons in H as [?|?]; [contradiction|auto].
  - intros i' z Hz. destruct (decide (i' = i)) as [->|Hne].
    + rewrite list_lookup_insert_eq in Hz by (eapply lookup_lt_Some; eauto).
      injection Hz as <-. right; right; right. eauto 10.
    + rewrite list_lookup_insert_ne in Hz by lia. eauto.
Qed.

Lemma coreInv_marker fromTuple toTuple mandatory srcs vargs used i z :
  coreInv fromTuple toTuple mandatory srcs vargs used ->
  srcs !! i = Some unassigned -> (z < 0)%Z ->
  entryOk fromTuple toTuple mandatory i z ->
  coreInv fromTuple toTuple mandatory (<[i := z]> srcs) vargs used.
Proof.
  intros (Hls & Hlu & Hnd & Hused & Hent & Hva) Hi Hz Hok.
  unfold coreInv. rewrite length_insert.
  rewrite (sourceIndices_insert_marker srcs i unassigned z Hi) by (unfold unassigned; lia).
  repeat split; auto; try apply Hused.
  intros i' z' Hz'. destruct (decide (i' = i)) as [->|Hne].
  - rewrite list_lookup_insert_eq in Hz' by (eapply lookup_lt_Some; eauto).
    injection Hz' as <-. exact Hok.
  - rewrite list_lookup_insert_ne in Hz' by lia. eauto.
Qed.

Lemma coreInv_variadic fromTuple toTuple mandatory srcs vargs used j e :
  coreInv fromTuple toTuple mandatory srcs vargs used ->
  fromTuple !! j = Some e -> hasName e = false ->
  used !! j = Some false ->
  coreInv fromTuple toTuple mandatory srcs (vargs ++ [j]) (<[j := true]> used).
Proof.
  intros (Hls & Hlu & Hnd & Hused & Hent & Hva) Hj Hn Hfree.
  assert (Hperm : sourceIndices srcs ++ vargs ++ [j] ≡ₚ j :: (sourceIndices srcs ++ vargs)).
  { rewrite app_assoc. rewrite <- Permutation_cons_append. reflexivity. }
  assert (Hjm : j < length used) by (eapply lookup_lt_Some; eauto).
  assert (Hnotin : j ∉ sourceIndices srcs ++ vargs).
  { intros Hin. apply Hused in Hin. congruence. }
  unfold coreInv. rewrite length_insert. repeat split; auto.
  - rewrite Hperm. constructor; auto.
  - intros H. rewrite Hperm. destruct (decide (j0 = j)) as [->|Hne]; [left|].
    rewrite list_lookup_insert_ne in H by lia. right. apply Hused. exact H.
  - rewrite Hperm. intros H. destruct (decide (j0 = j)) as [->|Hne].
    + apply list_lookup_insert_eq. exact Hjm.
    + rewrite list_lookup_insert_ne by lia. apply Hused.
      apply elem_of_cons in H as [?|?]; [contradiction|auto].
  - intros j' Hin. apply elem_of_app in Hin as [Hin|Hin]; [auto|].
    apply list_elem_of_singleton in Hin as ->. eauto.
Qed.

(** *** The cursor *)

Lemma skipLoop_cursor m used : forall k next,
  length used = m -> k = m - next -> next <= m ->
  (forall j, j < next -> used !! j = Some true) ->
  cursorInv m used (skipLoop used k next).
Proof.
  induction k as [|k IH]; intros next Hlen Hk Hle Hbefore; simpl.
  - repeat split; auto. left. lia.
  - destruct (used !! next) as [[|]|] eqn:E; simpl.
    + apply IH; auto; [lia | apply lookup_lt_Some in E; lia |].
      intros j Hj. destruct (decide (j = next)) as [->|Hne]; [exact E|].
      apply Hbefore. lia.
    + repeat split; auto.
    + apply lookup_ge_None in E. lia.
Qed.

Lemma skip_cursor m used next :
  length used = m -> next <= m ->
  (forall j, j < next -> used !! j = Some true) ->
  cursorInv m used (skipToNextAvailableInput m used next).
Proof. intros. apply skipLoop_cursor; auto. Qed.

Lemma skip_after_consuming m used next :
  length used = m -> cursorInv m used next -> next <> m ->
  cursorInv m (<[next := true]> used) (skipToNextAvailableInput m (<[next := true]> used) next).
Proof.
  intros Hlen (Hle & Hbefore & _) Hne. apply skip_cursor; auto.
  - rewrite length_insert. exact Hlen.
  - intros j Hj. rewrite list_lookup_insert_ne by lia. auto.
Qed.

(** *** The first loop *)

Lemma matchNamed_inv fromTuple toTuple mandatory : forall toFields pre srcs used,
  toTuple = pre ++ toFields ->
  coreInv fromTuple toTuple mandatory srcs [] used ->
  (forall i, length pre <= i -> i < length toTuple -> srcs !! i = Some unassigned) ->
  coreInv fromTuple toTuple mandatory
    (matchNamed fromTuple toFields (length pre) srcs used).1 []
    (matchNamed fromTuple toFields (length pre) srcs used).2.
Proof.
  induction toFields as [|e rest IH]; intros pre srcs used Hto Hinv Htail; simpl; [exact Hinv|].
  assert (Hto' : toTuple = (pre ++ [e]) ++ rest) by (rewrite <- app_assoc; exact Hto).
  assert (Hlen' : S (length pre) = length (pre ++ [e])) by (rewrite length_app; simpl; lia).
  assert (Hi : toTuple !! length pre = Some e).
  { rewrite Hto, lookup_app_r, Nat.sub_diag by lia. reflexivity. }
  assert (Hlt : length pre < length toTuple) by (eapply lookup_lt_Some; eauto).
  rewrite Hlen'.
  destruct (String.eqb (getName e) EmptyString) eqn:En.
  { apply IH; auto. intros i Hge. apply Htail. lia. }
  destruct (findNamed (getName e) fromTuple used 0) as [matched|] eqn:Ef.
  2: { apply IH; auto. intros i Hge. apply Htail. lia. }
  apply findNamed_spec in Ef as (_ & e1 & He1 & Hname & Hfree).
  rewrite Nat.sub_0_r in He1.
  apply IH; auto.
  - eapply coreInv_assign; eauto.
    left. split; [|exact Hname]. unfold hasName. rewrite En. reflexivity.
  - intros i Hge Hlti. rewrite list_lookup_insert_ne by lia. apply Htail; lia.
Qed.

(** *** The variadic loop *)

Lemma collectVariadic_inv fromTuple toTuple mandatory srcs : forall k vargs used next r,
  coreInv fromTuple toTuple mandatory srcs vargs used ->
  cursorInv (length fromTuple) used next ->
  collectVariadic fromTuple (length fromTuple) k vargs used next = inr r ->
  coreInv fromTuple toTuple mandatory srcs r.1.1 r.1.2
  /\ cursorInv (length fromTuple) r.1.2 r.2.
Proof.
  induction k as [|k IH]; intros vargs used next r Hinv Hcur H; simpl in H.
  - destruct (Nat.eqb next (length fromTuple)); injection H as <-; auto.
  - destruct (Nat.eqb next (length fromTuple)) eqn:En; [injection H as <-; auto|].
    apply Nat.eqb_neq in En.
    destruct Hcur as (Hle & Hbefore & Hrest).
    destruct Hrest as [?|Hfree]; [contradiction|].
    destruct (fromTuple !! next) as [e|] eqn:Ee.
    2: { apply lookup_ge_None in Ee. lia. }
    simpl in H. destruct (hasName e) eqn:Eh; [discriminate|].
    assert (Hlu : length used = length fromTuple) by (destruct Hinv as (_ & ? & _); auto).
    apply IH in H; auto.
    + eapply coreInv_variadic; eauto.
    + apply skip_after_consuming; auto. repeat split; auto.
Qed.

(** *** The second loop *)

Lemma resolveUnmatched_inv fromTuple toTuple mandatory : forall toFields pre s s',
  toTuple = pre ++ toFields ->
  coreInv fromTuple toTuple mandatory (sources s) (variadicArgs s) (consumed s) ->
  cursorInv (length fromTuple) (consumed s) (fromNext s) ->
  resolveUnmatched fromTuple (length fromTuple) mandatory toFields (length pre) s = inr s' ->
  coreInv fromTuple toTuple mandatory (sources s') (variadicArgs s') (consumed s')
  /\ cursorInv (length fromTuple) (consumed s') (fromNext s').
Proof.
  induction toFields as [|e rest IH]; intros pre s s' Hto Hinv Hcur H; simpl in H.
  { injection H as <-. auto. }
  assert (Hto' : toTuple = (pre ++ [e]) ++ rest) by (rewrite <- app_assoc; exact Hto).
  assert (Hlen' : S (length pre) = length (pre ++ [e])) by (rewrite length_app; simpl; lia).
  assert (Hi : toTuple !! length pre = Some e).
  { rewrite Hto, lookup_app_r, Nat.sub_diag by lia. reflexivity. }
  assert (Hlt : length pre < length toTuple) by (eapply lookup_lt_Some; eauto).
  assert (Hlu : length (consumed s) = length fromTuple) by (destruct Hinv as (_ & ? & _); auto).
  rewrite Hlen' in H.
  destruct (Z.eqb_spec (default unassigned (sources s !! length pre)) unassigned) as [Hun|Hun];
    simpl in H.
  2: { eapply IH; eauto. }
  assert (Hsrc : sources s !! length pre = Some unassigned).
  { destruct (sources s !! length pre) as [z|] eqn:Ez; [simpl in Hun; congruence|].
    apply lookup_ge_None in Ez. destruct Hinv as (Hls & _). lia. }
  destruct (isVararg e) eqn:Ev.
  { destruct (collectVariadic _ _ _ _ _ _) as [[[va used] next]|[[va used] next]] eqn:Ec;
      [discriminate|].
    injection H as <-. simpl.
    apply collectVariadic_inv with (toTuple := toTuple) (mandatory := mandatory)
                                   (srcs := sources s) in Ec; auto.
    destruct Ec as [Hc1 Hc2]. simpl in *. split; [|exact Hc2].
    apply coreInv_marker; auto; [unfold TupleShuffleExpr.FirstVariadic; lia|].
    right; right; left. eauto. }
  destruct (Nat.eqb (fromNext s) (length fromTuple)) eqn:En.
  { destruct (hasInit e) eqn:Einit; [|discriminate].
    eapply IH in H; eauto; simpl.
    apply coreInv_marker; auto; [unfold TupleShuffleExpr.DefaultInitialize; lia|].
    right; left. eauto. }
  apply Nat.eqb_neq in En.
  destruct Hcur as (Hle & Hbefore & Hrest).
  destruct Hrest as [?|Hfree]; [contradiction|].
  destruct (fromTuple !! fromNext s) as [e1|] eqn:Ee.
  2: { apply lookup_ge_None in Ee. lia. }
  simpl in H.
  destruct (hasName e1 && (mandatory || hasName e)) eqn:Elab; [discriminate|].
  eapply IH in H; eauto; simpl.
  - eapply coreInv_assign; eauto.
    + rewrite Hfree. reflexivity.
    + apply andb_false_iff in Elab as [Hn|Hn]; [right; left; exact Hn|].
      apply orb_false_iff in Hn as [? ?]. right; right. auto.
  - apply skip_after_consuming; auto. repeat split; auto.
Qed.

Lemma matchNamed_start fromTuple toTuple mandatory :
  coreInv fromTuple toTuple mandatory
    (matchNamed fromTuple toTuple 0 (replicate (length toTuple) unassigned)
       (replicate (length fromTuple) false)).1 []
    (matchNamed fromTuple toTuple 0 (replicate (length toTuple) unassigned)
       (replicate (length fromTuple) false)).2.
Proof.
  apply (matchNamed_inv fromTuple toTuple mandatory toTuple [] _ _ eq_refl).
  - unfold coreInv. rewrite !length_replicate, sourceIndices_replicate.
    repeat split; auto.
    + constructor.
    + intros Hj. apply lookup_replicate in Hj as [? _]. discriminate.
    + intros Hj. inversion Hj.
    + intros i z Hz. apply lookup_replicate in Hz as [-> _]. left. reflexivity.
    + intros j Hj. inversion Hj.
  - intros i _ Hi. apply lookup_replicate. auto.
Qed.

Lemma shuffleRun_inv fromTuple toTuple mandatory s :
  shuffleRun fromTuple toTuple mandatory = inr s ->
  coreInv fromTuple toTuple mandatory (sources s) (variadicArgs s) (consumed s)
  /\ cursorInv (length fromTuple) (consumed s) (fromNext s).
Proof.
  unfold shuffleRun.
  pose proof (matchNamed_start fromTuple toTuple mandatory) as Hcore.
  destruct (matchNamed _ _ _ _ _) as [srcs used]. simpl in Hcore.
  intros H.
  apply (resolveUnmatched_inv fromTuple toTuple mandatory toTuple []) in H; auto.
  simpl. apply skip_cursor; [destruct Hcore as (_ & ? & _); auto | lia |].
  intros j Hj. lia.
Qed.

Lemma shuffle_success fromTuple toTuple mandatory srcs vargs :
  computeTupleShuffle fromTuple toTuple mandatory = (false, srcs, vargs) ->
  exists s, shuffleRun fromTuple toTuple mandatory = inr s
            /\ sources s = srcs /\ variadicArgs s = vargs
            /\ fromNext s = length fromTuple.
Proof.
  rewrite computeTupleShuffle_run.
  destruct (shuffleRun fromTuple toTuple mandatory) as [s|s]; [discriminate|].
  destruct (Nat.eqb (fromNext s) (length fromTuple)) eqn:E; simpl; [|discriminate].
  intros H. injection H as <- <-. apply Nat.eqb_eq in E. eauto.
Qed.

Lemma resolveUnmatched_resolved fromTuple toTuple mandatory : forall toFields pre s s',
  toTuple = pre ++ toFields ->
  length (sources s) = length toTuple ->
  varargIsLast toTuple ->
  (forall i, i < length pre -> sources s !! i <> Some unassigned) ->
  resolveUnmatched fromTuple (length fromTuple) mandatory toFields (length pre) s = inr s' ->
  forall i, i < length toTuple -> sources s' !! i <> Some unassigned.
Proof.
  induction toFields as [|e rest IH]; intros pre s s' Hto Hls Hlast Hdone H; simpl in H.
  { injection H as <-. intros i Hi. apply Hdone. rewrite Hto, length_app in Hi. simpl in Hi. lia. }
  assert (Hto' : toTuple = (pre ++ [e]) ++ rest) by (rewrite <- app_assoc; exact Hto).
  assert (Hlen' : S (length pre) = length (pre ++ [e])) by (rewrite length_app; simpl; lia).
  assert (Hi : toTuple !! length pre = Some e).
  { rewrite Hto, lookup_app_r, Nat.sub_diag by lia. reflexivity. }
  assert (Hlt : length pre < length toTuple) by (eapply lookup_lt_Some; eauto).
  assert (Hstep : forall z, z <> unassigned ->
            forall i, i < length (pre ++ [e]) ->
                      <[length pre := z]> (sources s) !! i <> Some unassigned).
  { intros z Hz i Hilt. rewrite <- Hlen' in Hilt.
    destruct (decide (i = length pre)) as [->|Hne].
    - rewrite list_lookup_insert_eq by lia. congruence.
    - rewrite list_lookup_insert_ne by lia. apply Hdone. lia. }
  rewrite Hlen' in H.
  destruct (Z.eqb_spec (default unassigned (sources s !! length pre)) unassigned) as [Hun|Hun];
    simpl in H.
  2: { eapply IH; eauto. intros i Hilt. rewrite <- Hlen' in Hilt.
       destruct (decide (i = length pre)) as [->|Hne]; [|apply Hdone; lia].
       intros Heq. rewrite Heq in Hun. simpl in Hun. congruence. }
  destruct (isVararg e) eqn:Ev.
  { destruct (collectVariadic _ _ _ _ _ _) as [[[va used] next]|[[va used] next]] eqn:Ec;
      [discriminate|].
    injection H as <-. simpl. intros i Hilt.
    apply Hstep; [unfold TupleShuffleExpr.FirstVariadic, unassigned; lia|].
    rewrite <- Hlen', (Hlast _ _ Hi Ev). exact Hilt. }
  destruct (Nat.eqb (fromNext s) (length fromTuple)) eqn:En.
  { destruct (hasInit e) eqn:Einit; [|discriminate].
    eapply IH; [exact Hto' | | exact Hlast | | exact H]; simpl;
      [rewrite length_insert; exact Hls|].
    apply Hstep. unfold TupleShuffleExpr.DefaultInitialize, unassigned. lia. }
  destruct (default false (hasName <$> fromTuple !! fromNext s) && (mandatory || hasName e));
    [discriminate|].
  eapply IH; [exact Hto' | | exact Hlast | | exact H]; simpl;
    [rewrite length_insert; exact Hls|].
  apply Hstep. unfold unassigned. lia.
Qed.

(** A successful shuffle consumes every source element exactly once:
    the indices in the mapping and in the variadic list are pairwise distinct
    and are exactly the indices of the source tuple. *)
Theorem shuffle_consumes_every_input fromTuple toTuple mandatory srcs vargs :
  computeTupleShuffle fromTuple toTuple mandatory = (false, srcs, vargs) ->
  NoDup (sourceIndices srcs ++ vargs)
  /\ forall j, j ∈ sourceIndices srcs ++ vargs <-> j < length fromTuple.
Proof.
  intros H. apply shuffle_success in H as (s & Hrun & <- & <- & Hnext).
  apply shuffleRun_inv in Hrun as [(Hls & Hlu & Hnd & Hused & _) (_ & Hbefore & _)].
  split; [exact Hnd|]. intros j. rewrite <- Hused. split.
  - intros Hj. apply lookup_lt_Some in Hj. lia.
  - intros Hj. apply Hbefore. lia.
Qed.

Lemma shuffle_consumes_every_input_witness :
  computeTupleShuffle Examples.tuple_x_Int_Int Examples.tuple_Int_x_Int false
  = (false, [1%Z; 0%Z], [])
  /\ NoDup (sourceIndices [1%Z; 0%Z] ++ [])
  /\ forall j, j ∈ sourceIndices [1%Z; 0%Z] ++ [] <-> j < length Examples.tuple_x_Int_Int.
Proof.
  split; [reflexivity|].
  apply (shuffle_consumes_every_input Examples.tuple_x_Int_Int Examples.tuple_Int_x_Int false).
  reflexivity.
Defined.

(** In a successful shuffle a labelled source element is only ever mapped
    to a target element with the same label or, when source labels are not
    mandatory, to an unlabelled target element; the elements collected for a
    variadic target are all unlabelled. *)
Theorem shuffle_respects_labels fromTuple toTuple mandatory srcs vargs :
  computeTupleShuffle fromTuple toTuple mandatory = (false, srcs, vargs) ->
  (forall i j, srcs !! i = Some (Z.of_nat j) ->
               exists e1 e2, fromTuple !! j = Some e1 /\ toTuple !! i = Some e2
                             /\ labelOk mandatory e1 e2)
  /\ (forall j, j ∈ vargs -> exists e, fromTuple !! j = Some e /\ hasName e = false).
Proof.
  intros H. apply shuffle_success in H as (s & Hrun & <- & <- & Hnext).
  apply shuffleRun_inv in Hrun as [(_ & _ & _ & _ & Hent & Hva) _].
  split; [|exact Hva]. intros i j Hij.
  destruct (Hent _ _ Hij) as [Hz|[[Hz _]|[[Hz _]|(j' & e1 & e2 & Hz & H1 & H2 & H3)]]].
  - unfold unassigned in Hz. lia.
  - unfold TupleShuffleExpr.DefaultInitialize in Hz. lia.
  - unfold TupleShuffleExpr.FirstVariadic in Hz. lia.
  - apply Nat2Z.inj in Hz as ->. eauto.
Qed.

Lemma shuffle_respects_labels_witness :
  computeTupleShuffle Examples.tuple_x_Int_Int Examples.tuple_Int_x_Int false
  = (false, [1%Z; 0%Z], [])
  /\ (forall i j, [1%Z; 0%Z] !! i = Some (Z.of_nat j) ->
                  exists e1 e2, Examples.tuple_x_Int_Int !! j = Some e1
                                /\ Examples.tuple_Int_x_Int !! i = Some e2
                                /\ labelOk false e1 e2)
  /\ (forall j, j ∈ @nil nat ->
                exists e, Examples.tuple_x_Int_Int !! j = Some e /\ hasName e = false).
Proof.
  split; [reflexivity|].
  apply (shuffle_respects_labels Examples.tuple_x_Int_Int Examples.tuple_Int_x_Int false).
  reflexivity.
Defined.

(** A successful shuffle into a tuple type whose variadic element, if
    any, comes last fills every target element: with a source element, with
    the default value of a target element that has one, or with the variadic
    collection for the variadic element. *)
Theorem shuffle_fills_every_target fromTuple toTuple mandatory srcs vargs :
  computeTupleShuffle fromTuple toTuple mandatory = (false, srcs, vargs) ->
  varargIsLast toTuple ->
  length srcs = length toTuple
  /\ forall i e, toTuple !! i = Some e ->
       (srcs !! i = Some TupleShuffleExpr.DefaultInitialize /\ hasInit e = true)
       \/ (srcs !! i = Some TupleShuffleExpr.FirstVariadic /\ isVararg e = true)
       \/ (exists j, srcs !! i = Some (Z.of_nat j) /\ j < length fromTuple).
Proof.
  intros H Hlast. apply shuffle_success in H as (s & Hrun & <- & <- & Hnext).
  pose proof (shuffleRun_inv _ _ _ _ Hrun) as [(Hls & _ & _ & _ & Hent & _) _].
  split; [exact Hls|]. intros i e Hi.
  assert (Hres : sources s !! i <> Some unassigned).
  { unfold shuffleRun in Hrun.
    pose proof (matchNamed_start fromTuple toTuple mandatory) as Hc.
    destruct (matchNamed _ _ _ _ _) as [srcs0 used0]. simpl in Hc.
    destruct Hc as (Hls0 & _).
    refine (resolveUnmatched_resolved fromTuple toTuple mandatory toTuple []
              (mkShuffle srcs0 [] used0
                 (skipToNextAvailableInput (length fromTuple) used0 0)) s
              eq_refl Hls0 Hlast _ Hrun i _).
    - simpl. intros i0 Hi0. lia.
    - eapply lookup_lt_Some; eauto. }
  destruct (sources s !! i) as [z|] eqn:Ez.
  2: { apply lookup_ge_None in Ez. apply lookup_lt_Some in Hi. lia. }
  destruct (Hent _ _ Ez) as [Hz|[[Hz (e' & He' & Hinit)]|[[Hz (e' & He' & Hv)]
                               |(j & e1 & e2 & Hz & H1 & H2 & H3)]]].
  - congruence.
  - left. split; congruence.
  - right; left. split; congruence.
  - right; right. exists j. split; [congruence|]. eapply lookup_lt_Some; eauto.
Qed.

Lemma shuffle_fills_every_target_witness :
  computeTupleShuffle Examples.tuple_x_Int_Int Examples.tuple_Int_x_Int false
  = (false, [1%Z; 0%Z], [])
  /\ varargIsLast Examples.tuple_Int_x_Int
  /\ length [1%Z; 0%Z] = length Examples.tuple_Int_x_Int.
Proof.
  assert (Hlast : varargIsLast Examples.tuple_Int_x_Int).
  { intros [|[|i]] e He Hv; simpl in He; try discriminate;
      injection He as <-; discriminate. }
  split; [reflexivity|]. split; [exact Hlast|].
  apply (shuffle_fills_every_target Examples.tuple_x_Int_Int Examples.tuple_Int_x_Int false
           [1%Z; 0%Z] []); [reflexivity | exact Hlast].
Defined.

(** *** Shuffling a tuple type into itself *)

Ltac split_conj := repeat match goal with |- _ /\ _ => split end.

Lemma findNamed_first name used target e : forall fields idx,
  idx <= target ->
  fields !! (target - idx) = Some e -> getName e = name ->
  default false (used !! target) = false ->
  (forall k e', fields !! k = Some e' -> idx + k < target -> getName e' = name ->
                default false (used !! (idx + k)) = true) ->
  findNamed name fields used idx = Some target.
Proof.
  induction fields as [|f rest IH]; intros idx Hle Ht Hn Hfree Hbefore; [discriminate|].
  simpl. destruct (decide (idx = target)) as [->|Hne].
  - rewrite Nat.sub_diag in Ht. injection Ht as ->.
    rewrite Hn, String.eqb_refl, Hfree. reflexivity.
  - assert (E : String.eqb (getName f) name && negb (default false (used !! idx)) = false).
    { destruct (String.eqb_spec (getName f) name) as [Hf|Hf]; [|reflexivity].
      pose proof (Hbefore 0 f eq_refl ltac:(lia) Hf) as Hu.
      rewrite Nat.add_0_r in Hu. rewrite Hu. reflexivity. }
    rewrite E. apply IH; [lia | | exact Hn | exact Hfree |].
    + replace (target - idx) with (S (target - S idx)) in Ht by lia. exact Ht.
    + intros k e' He' Hk Hname.
      replace (S idx + k) with (idx + S k) by lia.
      apply (Hbefore (S k) e'); [exact He' | lia | exact Hname].
Qed.

Section SelfShuffle.

Variable t : list TupleTypeElt.
Variable mandatory : bool.
Hypothesis noVararg : forall e, e ∈ t -> isVararg e = false.

Local Abbreviation named := (namedAt t).
Local Abbreviation afterNamed := (selfNamed t).
Local Abbreviation afterResolved := (selfResolved t).

Lemma matchNamed_self : forall toFields pre srcs used,
  t = pre ++ toFields ->
  afterNamed (length pre) srcs used ->
  afterNamed (length t) (matchNamed t toFields (length pre) srcs used).1
                        (matchNamed t toFields (length pre) srcs used).2.
Proof.
  induction toFields as [|e rest IH]; intros pre srcs used Hto Hinv; simpl.
  { assert (Hl : length t = length pre) by (rewrite Hto, length_app; simpl; lia).
    rewrite Hl. exact Hinv. }
  assert (Hto' : t = (pre ++ [e]) ++ rest) by (rewrite <- app_assoc; exact Hto).
  assert (Hlen' : S (length pre) = length (pre ++ [e])) by (rewrite length_app; simpl; lia).
  assert (Hi : t !! length pre = Some e).
  { rewrite Hto at 1. rewrite lookup_app_r, Nat.sub_diag by lia. reflexivity. }
  assert (Hlt : length pre < length t) by (eapply lookup_lt_Some; eauto).
  assert (Hnamed : named (length pre) = hasName e).
  { unfold namedAt. rewrite Hi. reflexivity. }
  destruct Hinv as (Hls & Hlu & Hsrcs & Hused).
  rewrite Hlen'.
  destruct (String.eqb (getName e) EmptyString) eqn:En.
  { apply IH; auto. rewrite <- Hlen'. repeat split; auto.
    - intros k Hk. rewrite Hsrcs by auto.
      destruct (decide (k = length pre)) as [->|Hne].
      + rewrite Hnamed. unfold hasName. rewrite En. simpl. rewrite !andb_false_r. reflexivity.
      + replace (k <? S (length pre)) with (k <? length pre); [reflexivity|].
        destruct (Nat.ltb_spec k (length pre)), (Nat.ltb_spec k (S (length pre)));
          try reflexivity; lia.
    - intros k Hk. rewrite Hused by auto.
      destruct (decide (k = length pre)) as [->|Hne].
      + rewrite Hnamed. unfold hasName. rewrite En. simpl. rewrite !andb_false_r. reflexivity.
      + replace (k <? S (length pre)) with (k <? length pre); [reflexivity|].
        destruct (Nat.ltb_spec k (length pre)), (Nat.ltb_spec k (S (length pre)));
          try reflexivity; lia. }
  assert (Hhas : hasName e = true) by (unfold hasName; rewrite En; reflexivity).
  rewrite (findNamed_first (getName e) used (length pre) e t 0); auto.
  - apply IH; auto. rewrite <- Hlen'. repeat split; rewrite ?length_insert; auto.
    + intros k Hk. destruct (decide (k = length pre)) as [->|Hne].
      * rewrite list_lookup_insert_eq by lia. rewrite Hnamed, Hhas.
        destruct (Nat.ltb_spec (length pre) (S (length pre))); [reflexivity|lia].
      * rewrite list_lookup_insert_ne by lia. rewrite Hsrcs by auto.
        replace (k <? S (length pre)) with (k <? length pre); [reflexivity|].
        destruct (Nat.ltb_spec k (length pre)), (Nat.ltb_spec k (S (length pre)));
          try reflexivity; lia.
    + intros k Hk. destruct (decide (k = length pre)) as [->|Hne].
      * rewrite list_lookup_insert_eq by lia. rewrite Hnamed, Hhas.
        destruct (Nat.ltb_spec (length pre) (S (length pre))); [reflexivity|lia].
      * rewrite list_lookup_insert_ne by lia. rewrite Hused by auto.
        replace (k <? S (length pre)) with (k <? length pre); [reflexivity|].
        destruct (Nat.ltb_spec k (length pre)), (Nat.ltb_spec k (S (length pre)));
          try reflexivity; lia.
  - lia.
  - rewrite Nat.sub_0_r. exact Hi.
  - rewrite Hused by auto. rewrite Nat.ltb_irrefl. reflexivity.
  - intros k e' He' Hk Hname. simpl in *.
    rewrite Hused by lia. simpl.
    destruct (Nat.ltb_spec k (length pre)); [|lia]. simpl.
    unfold namedAt. rewrite He'. simpl. unfold hasName in *. rewrite Hname. exact Hhas.
Qed.

Lemma resolveUnmatched_self : forall toFields pre s,
  t = pre ++ toFields ->
  afterResolved (length pre) s ->
  exists s', resolveUnmatched t (length t) mandatory toFields (length pre) s = inr s'
             /\ afterResolved (length t) s'.
Proof.
  induction toFields as [|e rest IH]; intros pre s Hto Hinv; simpl.
  { exists s. split; [reflexivity|].
    assert (Hl : length t = length pre) by (rewrite Hto, length_app; simpl; lia).
    rewrite Hl. exact Hinv. }
  assert (Hto' : t = (pre ++ [e]) ++ rest) by (rewrite <- app_assoc; exact Hto).
  assert (Hlen' : S (length pre) = length (pre ++ [e])) by (rewrite length_app; simpl; lia).
  assert (Hi : t !! length pre = Some e).
  { rewrite Hto at 1. rewrite lookup_app_r, Nat.sub_diag by lia. reflexivity. }
  assert (Hlt : length pre < length t) by (eapply lookup_lt_Some; eauto).
  assert (Hnamed : named (length pre) = hasName e).
  { unfold namedAt. rewrite Hi. reflexivity. }
  assert (Hshift : forall k, k <> length pre -> (k <? S (length pre)) = (k <? length pre)).
  { intros k Hk. destruct (Nat.ltb_spec k (length pre)), (Nat.ltb_spec k (S (length pre)));
      try reflexivity; lia. }
  destruct Hinv as (Hls & Hlu & Hva & Hsrcs & Hused & Hcur).
  rewrite Hlen'. rewrite (Hsrcs _ Hlt). rewrite Nat.ltb_irrefl. simpl.
  destruct (named (length pre)) eqn:En.
  { (* matched by name in the first loop *)
    destruct (Z.eqb_spec (Z.of_nat (length pre)) unassigned) as [Hz|_];
      [unfold unassigned in Hz; lia|]. simpl.
    apply IH; auto. rewrite <- Hlen'. unfold selfResolved. split_conj; auto.
    - intros k Hk. rewrite Hsrcs by auto.
      destruct (decide (k = length pre)) as [->|Hne]; [|rewrite Hshift by auto; reflexivity].
      rewrite En, !orb_true_r. reflexivity.
    - intros k Hk. rewrite Hused by auto.
      destruct (decide (k = length pre)) as [->|Hne]; [|rewrite Hshift by auto; reflexivity].
      rewrite En, !orb_true_r. reflexivity. }
  rewrite Z.eqb_refl. simpl.
  rewrite (noVararg e) by (eapply list_elem_of_lookup_2; eauto).
  (* the cursor rests on this very element *)
  assert (Hnext : fromNext s = length pre).
  { destruct Hcur as (Hle & Hbefore & Hrest).
    assert (~ length pre < fromNext s).
    { intros Hc. specialize (Hbefore _ Hc). rewrite Hused in Hbefore by auto.
      rewrite Nat.ltb_irrefl, En in Hbefore. discriminate. }
    destruct Hrest as [Heq|Hfree]; [lia|].
    destruct (Nat.lt_ge_cases (fromNext s) (length pre)) as [Hc|Hc]; [|lia].
    rewrite Hused in Hfree by lia.
    destruct (Nat.ltb_spec (fromNext s) (length pre)); [discriminate|lia]. }
  rewrite Hnext.
  destruct (Nat.eqb_spec (length pre) (length t)) as [Heq|_]; [lia|].
  rewrite Hi. simpl. rewrite <- Hnamed. simpl.
  apply IH; auto. rewrite <- Hlen'. unfold selfResolved. simpl. split_conj; rewrite ?length_insert; auto.
  - intros k Hk. destruct (decide (k = length pre)) as [->|Hne].
    + rewrite list_lookup_insert_eq by lia.
      destruct (Nat.ltb_spec (length pre) (S (length pre))); [reflexivity|lia].
    + rewrite list_lookup_insert_ne by lia. rewrite Hsrcs, Hshift by auto. reflexivity.
  - intros k Hk. destruct (decide (k = length pre)) as [->|Hne].
    + rewrite list_lookup_insert_eq by lia.
      destruct (Nat.ltb_spec (length pre) (S (length pre))); [reflexivity|lia].
    + rewrite list_lookup_insert_ne by lia. rewrite Hused, Hshift by auto. reflexivity.
  - rewrite <- Hlu. rewrite <- Hnext.
    apply skip_after_consuming; [reflexivity | rewrite Hlu; exact Hcur | lia].
Qed.

Lemma shuffleRun_self :
  exists s, shuffleRun t t mandatory = inr s
            /\ sources s = map Z.of_nat (seq 0 (length t))
            /\ variadicArgs s = [] /\ fromNext s = length t.
Proof.
  unfold shuffleRun.
  pose proof (matchNamed_self t [] (replicate (length t) unassigned)
                (replicate (length t) false) eq_refl) as Hn.
  simpl in Hn.
  destruct (matchNamed _ _ _ _ _) as [srcs used]. simpl in Hn.
  destruct Hn as (Hls & Hlu & Hsrcs & Hused).
  { repeat split; rewrite ?length_replicate; auto.
    - intros k Hk. apply lookup_replicate. auto.
    - intros k Hk. apply lookup_replicate. auto. }
  destruct (resolveUnmatched_self t []
              (mkShuffle srcs [] used (skipToNextAvailableInput (length t) used 0)) eq_refl)
    as (s' & Hrun & Hls' & Hlu' & Hva' & Hsrcs' & Hused' & Hcur').
  { unfold selfResolved. simpl. split_conj; auto.
    - intros k Hk. rewrite Hsrcs by auto.
      destruct (Nat.ltb_spec k (length t)); [|lia]. reflexivity.
    - intros k Hk. rewrite Hused by auto.
      destruct (Nat.ltb_spec k (length t)); [|lia]. reflexivity.
    - apply skip_cursor; auto; [lia|]. intros j Hj. lia. }
  simpl in Hrun. exists s'. split; [exact Hrun|]. repeat split; auto.
  - apply list_eq. intros k. destruct (Nat.lt_ge_cases k (length t)) as [Hk|Hk].
    + rewrite Hsrcs' by auto. destruct (Nat.ltb_spec k (length t)); [|lia]. simpl.
      rewrite list_lookup_fmap, lookup_seq_lt by auto. reflexivity.
    + rewrite (lookup_ge_None_2 (sources s')) by lia.
      rewrite lookup_ge_None_2; [reflexivity|]. rewrite length_map, length_seq. exact Hk.
  - destruct Hcur' as (Hle & _ & [Heq|Hfree]); [exact Heq|].
    destruct (Nat.lt_ge_cases (fromNext s') (length t)) as [Hc|Hc]; [|lia].
    rewrite Hused' in Hfree by auto.
    destruct (Nat.ltb_spec (fromNext s') (length t)); [discriminate|lia].
Qed.

End SelfShuffle.

(** Shuffling a tuple type without variadic element into itself always
    succeeds, whether or not labels are mandatory, and gives the identity
    mapping. *)
Theorem shuffle_into_itself_is_identity (t : list TupleTypeElt) (mandatory : bool) :
  (forall e, e ∈ t -> isVararg e = false) ->
  computeTupleShuffle t t mandatory = (false, map Z.of_nat (seq 0 (length t)), []).
Proof.
  intros Hv. rewrite computeTupleShuffle_run.
  destruct (shuffleRun_self t mandatory Hv) as (s & -> & -> & -> & ->).
  rewrite Nat.eqb_refl. reflexivity.
Qed.

Lemma shuffle_into_itself_is_identity_witness :
  computeTupleShuffle Examples.tuple_x_Int_Int Examples.tuple_x_Int_Int true
  = (false, [0%Z; 1%Z], []).
Proof.
  apply (shuffle_into_itself_is_identity Examples.tuple_x_Int_Int true).
  intros e He. apply elem_of_cons in He as [->|He]; [reflexivity|].
  apply elem_of_cons in He as [->|He]; [reflexivity|]. inversion He.
Defined.

(* ===================================================================== *)
(** ** The type matcher on identical and on builtin types *)
(* ===================================================================== *)

Lemma getFixedTypeRecursive_concrete t (w : bool) cs :
  isTypeVariable (if w then getRValueType t else t) = false ->
  getFixedTypeRecursive t w cs = Done ((if w then getRValueType t else t, None), cs).
Proof.
  unfold getFixedTypeRecursive. intros H.
  destruct (if w then getRValueType t else t); try reflexivity. discriminate.
Qed.

Lemma isTypeVariable_rvalue t (w : bool) :
  isTypeVariable (getRValueType t) = false ->
  isTypeVariable (if w then getRValueType t else t) = false.
Proof. destruct w; [auto|]. destruct t; simpl; auto. Qed.

(** Every type that is not a type variable matches itself, at every kind
    and with any flags: the matcher answers Solved and leaves the constraint
    system untouched. *)
Theorem matchTypes_reflexive TC n t kind flags locator cs :
  isTypeVariable (getRValueType t) = false ->
  matchTypes TC (S n) t t kind flags locator cs = Done (Solved, cs).
Proof.
  intros H. rewrite matchTypes_S. unfold matchTypes_body, bind.
  rewrite !getFixedTypeRecursive_concrete by (apply isTypeVariable_rvalue; exact H).
  rewrite Ty_eqb_refl. reflexivity.
Qed.

Lemma matchTypes_reflexive_witness :
  matchTypes Examples.bareTC 1 (TLValue Examples.Int (mkQual true false))
    (TLValue Examples.Int (mkQual true false)) TypeMatchKind.Conversion TMF_None
    Examples.noLocator Examples.emptyCS
  = Done (Solved, Examples.emptyCS).
Proof.
  apply (matchTypes_reflexive Examples.bareTC 0 (TLValue Examples.Int (mkQual true false))).
  reflexivity.
Defined.

(** Two different builtin types never match, at any kind and with any
    flags: the matcher fails with the relational failure of the kind, queues
    nothing and binds nothing. *)
Theorem matchTypes_distinct_builtins TC n t1 t2 kind flags locator cs :
  isBuiltin t1 = true -> isBuiltin t2 = true -> t1 <> t2 ->
  matchTypes TC (S n) t1 t2 kind flags locator cs
  = Done (Error,
          withFailure (mkFailure (getConstraintLocator locator)
                         (getRelationalFailureKind kind) t1 (Some t2) "") cs).
Proof.
  intros H1 H2 Hne.
  destruct t1 as [k1 i1| | | | | | | | | | | | | | | | | |]; try discriminate.
  destruct t2 as [k2 i2| | | | | | | | | | | | | | | | | |]; try discriminate.
  assert (Heq : Ty_eqb (TBuiltin k1 i1) (TBuiltin k2 i2) = false).
  { destruct (Ty_eqb _ _) eqn:E; [|reflexivity]. apply Ty_eqb_eq in E. contradiction. }
  rewrite matchTypes_S. unfold matchTypes_body, bind.
  rewrite !getFixedTypeRecursive_concrete by (destruct (TypeMatchKind.eqb _ _); reflexivity).
  assert (Hr : forall b : bool, (if b then getRValueType (TBuiltin k1 i1) else TBuiltin k1 i1)
                                = TBuiltin k1 i1) by (intros []; reflexivity).
  assert (Hr' : forall b : bool, (if b then getRValueType (TBuiltin k2 i2) else TBuiltin k2 i2)
                                = TBuiltin k2 i2) by (intros []; reflexivity).
  rewrite Hr, Hr', Heq. simpl.
  unfold potentialConversionsOf, decomposeParallelStructure, bind. simpl.
  destruct (Nat.eqb k1 k2) eqn:Ek; simpl.
  - simpl in Heq. rewrite Ek in Heq. simpl in Heq. rewrite Heq.
    unfold bind. rewrite recordIfEnabled_eq. reflexivity.
  - unfold collectPotentialConversions, collectTupleAndClassConversions,
      collectOptionalConversions, tuplesWithMismatchedNames, bind, ret. simpl.
    destruct kind; simpl; unfold commitToConversions, bind; simpl;
      rewrite recordIfEnabled_eq; reflexivity.
Qed.

Lemma matchTypes_distinct_builtins_witness :
  matchTypes Examples.bareTC 1 (TBuiltin 0 32) (TBuiltin 0 64) TypeMatchKind.Conversion
    TMF_None Examples.noLocator Examples.emptyCS
  = Done (Error,
          withFailure (mkFailure (getConstraintLocator Examples.noLocator)
                         (getRelationalFailureKind TypeMatchKind.Conversion)
                         (TBuiltin 0 32) (Some (TBuiltin 0 64)) "") Examples.emptyCS).
Proof.
  apply (matchTypes_distinct_builtins Examples.bareTC 0 (TBuiltin 0 32) (TBuiltin 0 64));
    [reflexivity | reflexivity | discriminate].
Defined.

(* ===================================================================== *)
(** ** The matcher never defers while it may generate constraints *)
(* ===================================================================== *)

Lemma posts_ret {A} (a : A) (Q : A -> Prop) : Q a -> posts (ret a) Q.
Proof. intros H cs a' cs' E. injection E as <- <-. exact H. Qed.

Lemma posts_bind {A B} (m : M A) (f : A -> M B) (P : A -> Prop) (Q : B -> Prop) :
  posts m P -> (forall a, P a -> posts (f a) Q) -> posts (bind m f) Q.
Proof.
  intros Hm Hf cs b cs' E. unfold bind in E.
  destruct (m cs) as [[a cs1]| |] eqn:Em; try discriminate.
  eapply Hf; eauto.
Qed.

Lemma posts_bind_any {A B} (m : M A) (f : A -> M B) (Q : B -> Prop) :
  (forall a, posts (f a) Q) -> posts (bind m f) Q.
Proof. intros Hf. apply posts_bind with (P := fun _ => True); [intros ? ? ? ?; exact I | auto]. Qed.

Lemma posts_abort {A} (Q : A -> Prop) : posts abort Q.
Proof. intros cs a cs' E. discriminate. Qed.

Lemma posts_weaken {A} (m : M A) (P Q : A -> Prop) :
  posts m P -> (forall a, P a -> Q a) -> posts m Q.
Proof. intros Hm H cs a cs' E. eauto. Qed.

Lemma hasFlag_generate flags :
  hasFlag (N.lor flags TMF_GenerateConstraints) TMF_GenerateConstraints = true.
Proof.
  unfold hasFlag, TMF_GenerateConstraints. apply negb_true_iff, N.eqb_neq.
  rewrite N.land_lor_distr_l. intros H. apply N.lor_eq_0_iff in H as [_ H]. discriminate.
Qed.

Lemma hasFlag_generate_self : hasFlag TMF_GenerateConstraints TMF_GenerateConstraints = true.
Proof. reflexivity. Qed.

Ltac solve_flag :=
  first [ assumption | apply hasFlag_generate | apply hasFlag_generate_self ].

Ltac posts_step Hrec :=
  lazymatch goal with
  | |- posts (ret _) _ => apply posts_ret
  | |- posts abort _ => apply posts_abort
  | |- posts (bind (recMatchTypes _ _ _ _ _ _) _) _ =>
      first [ eapply posts_bind; [apply Hrec; solve_flag | intros ? ?]
            | apply posts_bind_any; intros ? ]
  | |- posts (bind _ _) _ => apply posts_bind_any; intros ?
  | |- posts (recMatchTypes _ _ _ _ _ _) _ => apply Hrec; solve_flag
  | |- posts (match ?x with _ => _ end) _ => destruct x eqn:?
  end.

Section NeverDefers.

Variable TC : TypeChecker.
Variable rec : Recursion.

(** The next level of the recursion never defers while it may generate
    constraints. *)
Hypothesis Hrec : forall t1 t2 kind flags locator,
  hasFlag flags TMF_GenerateConstraints = true ->
  posts (recMatchTypes rec t1 t2 kind flags locator) decided.

Ltac posts_done :=
  first [ assumption
        | cbv beta iota delta [decidedFlow decided];
          first [ discriminate | exact I | assumption | congruence ] ].

Ltac posts_auto := repeat posts_step Hrec; try posts_done.

Lemma matchTupleElements_decided tuple1 tuple2 kind subFlags locator : forall l1 l2 i,
  posts (matchTupleElements rec tuple1 tuple2 kind subFlags locator l1 l2 i) decided.
Proof.
  induction l1 as [|e1 r1 IH]; intros l2 i; simpl; [posts_auto|].
  destruct l2 as [|e2 r2]; [posts_auto|].
  apply posts_bind with (P := decidedFlow); [posts_auto|].
  intros [r|[]] Hn; [posts_auto|].
  repeat first [ apply IH | posts_step Hrec ]; posts_done.
Qed.

Lemma matchShuffledElements_decided tuple1 tuple2 subFlags locator : forall srcs idx2 hasVarArg,
  posts (matchShuffledElements rec tuple1 tuple2 subFlags locator srcs idx2 hasVarArg)
    decidedFlow.
Proof.
  induction srcs as [|src rest IH]; intros idx2 hasVarArg; simpl; [posts_auto|].
  repeat first [ apply IH | posts_step Hrec ]; posts_done.
Qed.

Lemma matchVariadicElements_decided tuple1 eltType2 subFlags locator : forall args,
  posts (matchVariadicElements rec tuple1 eltType2 subFlags locator args) decided.
Proof.
  induction args as [|idx1 rest IH]; simpl; [posts_auto|].
  repeat first [ apply IH | posts_step Hrec ]; posts_done.
Qed.

Lemma matchTupleTypes_decided tuple1 tuple2 kind flags locator :
  posts (matchTupleTypes TC rec tuple1 tuple2 kind flags locator) decided.
Proof.
  unfold matchTupleTypes.
  destruct (TypeMatchKind.ltb kind TypeMatchKind.Conversion).
  - destruct (negb _); [posts_auto | apply matchTupleElements_decided].
  - apply posts_bind_any. intros _.
    destruct (computeTupleShuffle _ _ _) as [[failed srcs] vargs].
    destruct failed; [posts_auto|].
    apply posts_bind with (P := decidedFlow); [apply matchShuffledElements_decided|].
    intros [r|hasVarArg] Hr; [posts_auto|].
    destruct hasVarArg; [|posts_auto].
    destruct (last tuple2); [apply matchVariadicElements_decided | posts_auto].
Qed.

Lemma matchScalarToTupleTypes_decided type1 tuple2 kind flags locator :
  hasFlag flags TMF_GenerateConstraints = true ->
  posts (matchScalarToTupleTypes TC rec type1 tuple2 kind flags locator) decided.
Proof. intros Hf. unfold matchScalarToTupleTypes. posts_auto. Qed.

Lemma matchTupleToScalarTypes_decided tuple1 type2 kind flags locator :
  hasFlag flags TMF_GenerateConstraints = true ->
  posts (matchTupleToScalarTypes rec tuple1 type2 kind flags locator) decided.
Proof. intros Hf. unfold matchTupleToScalarTypes. posts_auto. Qed.

Lemma matchFunctionTypes_decided i1 r1 ac1 nr1 i2 r2 ac2 nr2 kind flags locator :
  posts (matchFunctionTypes rec i1 r1 ac1 nr1 i2 r2 ac2 nr2 kind flags locator) decided.
Proof. unfold matchFunctionTypes. posts_auto. Qed.

Lemma matchSuperclassTypes_decided type1 type2 kind flags locator :
  posts (matchSuperclassTypes TC rec type1 type2 kind flags locator) decided.
Proof. unfold matchSuperclassTypes. posts_auto. Qed.

Lemma matchGenericArguments_decided locator : forall args1 args2 i,
  posts (matchGenericArguments rec locator args1 args2 i) decided.
Proof.
  induction args1 as [|a1 r1 IH]; intros args2 i; simpl; [posts_auto|].
  destruct args2 as [|a2 r2]; [posts_auto|].
  repeat first [ apply IH | posts_step Hrec ]; posts_done.
Qed.

Lemma matchDeepEqualityTypes_decided type1 type2 locator :
  posts (matchDeepEqualityTypes rec type1 type2 locator) decided.
Proof.
  unfold matchDeepEqualityTypes.
  repeat first [ apply matchGenericArguments_decided | posts_step Hrec ]; posts_done.
Qed.

Lemma matchExistentialProtocols_decided type1 locator : forall protocols,
  posts (matchExistentialProtocols TC rec type1 locator protocols) decided.
Proof.
  induction protocols as [|proto rest IH]; simpl; [posts_auto|].
  repeat first [ apply IH | posts_step Hrec ]; posts_done.
Qed.

Lemma matchExistentialTypes_decided type1 type2 kind flags locator :
  posts (matchExistentialTypes TC rec type1 type2 kind flags locator) decided.
Proof.
  unfold matchExistentialTypes.
  destruct (existentialProtocols type2);
    [apply matchExistentialProtocols_decided | posts_auto].
Qed.

Lemma tryUserConversion_decided type kind otherType locator :
  shouldTryUserConversion TC type = true ->
  posts (tryUserConversion TC rec type kind otherType locator) decided.
Proof.
  unfold shouldTryUserConversion, tryUserConversion. intros H.
  apply posts_bind_any. intros _.
  destruct (negb (isSome (getNominalOrBoundGenericNominal type)) && _); [discriminate|].
  destruct (lookupMember TC type "__conversion"); [discriminate|].
  posts_auto.
Qed.

Lemma unifyTypeVariables_decided type1 type2 typeVar1 typeVar2 kind flags locator :
  hasFlag flags TMF_GenerateConstraints = true ->
  posts (unifyTypeVariables rec type1 type2 typeVar1 typeVar2 kind flags locator)
    (fun u => match u with
              | Return r => decided r
              | Continue _ => typeVar1 = None /\ typeVar2 = None
              end).
Proof.
  intros Hf. unfold unifyTypeVariables. rewrite Hf.
  destruct kind, typeVar1, typeVar2; posts_auto; auto.
Qed.

Lemma decomposeParallelStructure_decided type1 type2 kind flags locator :
  posts (decomposeParallelStructure TC rec type1 type2 kind flags locator)
    (fun c => match c with
              | Return r => decided r
              | Continue l => ConversionRestrictionKind.User ∉ l
              end).
Proof.
  unfold decomposeParallelStructure.
  destruct (negb _); [apply posts_ret; apply not_elem_of_nil|].
  destruct type1, type2;
    repeat first [ eapply posts_bind; [apply matchFunctionTypes_decided | intros ? ?]
                 | posts_step Hrec ];
    try posts_done; try apply not_elem_of_nil;
    try (intros Hin; apply list_elem_of_singleton in Hin; discriminate).
Qed.

Lemma collectTupleAndClassConversions_user type1 type2 kind l :
  ConversionRestrictionKind.User ∉ l ->
  posts (collectTupleAndClassConversions TC type1 type2 kind l)
    (fun c => match c with
              | Return l' | Continue l' => ConversionRestrictionKind.User ∉ l'
              end).
Proof.
  intros Hl. unfold collectTupleAndClassConversions.
  apply posts_bind_any. intros mismatched.
  assert (Happ : forall l0 k, k <> ConversionRestrictionKind.User ->
            ConversionRestrictionKind.User ∉ l0 ->
            ConversionRestrictionKind.User ∉ l0 ++ [k]).
  { intros l0 k Hk Hl0 Hin. apply elem_of_app in Hin as [?|Hin]; [contradiction|].
    apply list_elem_of_singleton in Hin. congruence. }
  destruct (asTuple type2) as [t2|];
    [destruct (negb mismatched && _)|];
    try (apply posts_ret; apply Happ; [discriminate|exact Hl]);
    apply posts_ret;
    destruct (asTuple type1) as [t1|];
    repeat match goal with
           | |- context [if ?b then _ else _] => destruct b
           end;
    repeat (apply Happ; [discriminate|]); exact Hl.
Qed.

Lemma collectOptionalConversions_user type1 type2 concrete kind l :
  ConversionRestrictionKind.User ∉ l ->
  posts (collectOptionalConversions TC type1 type2 concrete kind l)
    (fun l' => ConversionRestrictionKind.User ∉ l').
Proof.
  intros Hl. unfold collectOptionalConversions.
  assert (Happ : forall l0 k, k <> ConversionRestrictionKind.User ->
            ConversionRestrictionKind.User ∉ l0 ->
            ConversionRestrictionKind.User ∉ l0 ++ [k]).
  { intros l0 k Hk Hl0 Hin. apply elem_of_app in Hin as [?|Hin]; [contradiction|].
    apply list_elem_of_singleton in Hin. congruence. }
  destruct (concrete && _); [|apply posts_ret; exact Hl].
  destruct type2; try (apply posts_ret; exact Hl).
  destruct (Nat.eqb _ _); [|apply posts_ret; exact Hl].
  apply posts_bind_any. intros _.
  apply posts_bind with (P := fun l' => ConversionRestrictionKind.User ∉ l').
  - destruct type1; try (apply posts_ret; exact Hl).
    destruct (Nat.eqb _ _); [|apply posts_ret; exact Hl].
    apply posts_bind_any. intros _. apply posts_ret. apply Happ; [discriminate|exact Hl].
  - intros l' Hl'. apply posts_ret. apply Happ; [discriminate|exact Hl'].
Qed.

Lemma collectPotentialConversions_decided type1 type2 concrete kind flags locator l :
  ConversionRestrictionKind.User ∉ l ->
  posts (collectPotentialConversions TC rec type1 type2 concrete kind flags locator l)
    (fun c => match c with
              | Return r => decided r
              | Continue l' => userOnlyIfConvertible TC type1 l'
              end).
Proof.
  intros Hl. unfold collectPotentialConversions.
  apply posts_bind with (P := fun c => match c with
                                       | Return l' | Continue l' =>
                                           ConversionRestrictionKind.User ∉ l'
                                       end).
  { destruct (concrete && _);
      [apply collectTupleAndClassConversions_user; exact Hl | apply posts_ret; exact Hl]. }
  intros [committed|l1] Hl1.
  { apply posts_ret. intros Hin. contradiction. }
  set (l2 := if concrete && TypeMatchKind.geb kind TypeMatchKind.Conversion
             then match type1 with
                  | TLValue _ quals1 =>
                      if isImplicit quals1
                      then l1 ++ [ConversionRestrictionKind.LValueToRValue] else l1
                  | _ => l1
                  end
             else l1).
  assert (Hl2 : ConversionRestrictionKind.User ∉ l2).
  { subst l2. destruct (concrete && _); [|exact Hl1].
    destruct type1; try exact Hl1. destruct (isImplicit _); [|exact Hl1].
    intros Hin. apply elem_of_app in Hin as [?|Hin]; [contradiction|].
    apply list_elem_of_singleton in Hin. discriminate. }
  destruct (if concrete && TypeMatchKind.geb kind TypeMatchKind.Conversion
            then match type2 with
                 | TFunction _ result2 true _ => Some result2
                 | _ => None
                 end
            else None) as [result2|].
  { posts_auto. }
  set (l3 := if isExistentialType type2 && _
             then l2 ++ [ConversionRestrictionKind.Existential] else l2).
  assert (Hl3 : ConversionRestrictionKind.User ∉ l3).
  { subst l3. destruct (isExistentialType type2 && _); [|exact Hl2].
    intros Hin. apply elem_of_app in Hin as [?|Hin]; [contradiction|].
    apply list_elem_of_singleton in Hin. discriminate. }
  apply posts_bind with (P := fun l' => ConversionRestrictionKind.User ∉ l').
  { apply collectOptionalConversions_user. exact Hl3. }
  intros l4 Hl4. apply posts_ret. unfold userOnlyIfConvertible.
  destruct (concrete && TypeMatchKind.geb kind TypeMatchKind.Conversion
            && shouldTryUserConversion TC type1) eqn:E.
  - intros _. apply andb_true_iff in E as [_ E]. exact E.
  - intros Hin. contradiction.
Qed.

Lemma matchSingleConversion_decided potential type1 type2 kind flags locator :
  (potential = ConversionRestrictionKind.User -> shouldTryUserConversion TC type1 = true) ->
  posts (matchSingleConversion TC rec potential type1 type2 kind flags locator) decided.
Proof.
  intros Huser. unfold matchSingleConversion.
  destruct potential.
  - destruct type1, type2; try apply posts_abort. apply matchTupleTypes_decided.
  - destruct type2; try apply posts_abort.
    apply matchScalarToTupleTypes_decided, hasFlag_generate.
  - destruct type1; try apply posts_abort.
    apply matchTupleToScalarTypes_decided, hasFlag_generate.
  - apply matchDeepEqualityTypes_decided.
  - apply matchSuperclassTypes_decided.
  - posts_auto.
  - apply matchExistentialTypes_decided.
  - posts_auto.
  - posts_auto.
  - apply tryUserConversion_decided. auto.
Qed.

Lemma commitToConversions_decided l type1 type2 kind flags locator :
  userOnlyIfConvertible TC type1 l ->
  posts (commitToConversions TC rec l type1 type2 None None kind flags locator) decided.
Proof.
  intros Hl. unfold commitToConversions.
  destruct l as [|p [|q l]]; [posts_auto | | posts_auto].
  apply matchSingleConversion_decided. intros ->. apply Hl. left.
Qed.

Lemma matchTypes_body_decided type1 type2 kind flags locator :
  hasFlag flags TMF_GenerateConstraints = true ->
  posts (matchTypes_body TC rec type1 type2 kind flags locator) decided.
Proof.
  intros Hf. unfold matchTypes_body.
  apply posts_bind_any. intros [t1 typeVar1].
  apply posts_bind_any. intros [t2 typeVar2].
  destruct (Ty_eqb t1 t2); [posts_auto|].
  apply posts_bind with (P := fun u => match u with
                                       | Return r => decided r
                                       | Continue _ => typeVar1 = None /\ typeVar2 = None
                                       end).
  { destruct (isSome typeVar1 || isSome typeVar2) eqn:E.
    - apply unifyTypeVariables_decided. exact Hf.
    - apply posts_ret. destruct typeVar1, typeVar2; try discriminate. auto. }
  intros [r|[]] Hu; [posts_auto|]. destruct Hu as [-> ->].
  unfold potentialConversionsOf.
  apply posts_bind with (P := fun c => match c with
                                       | Return r => decided r
                                       | Continue l => userOnlyIfConvertible TC t1 l
                                       end).
  { apply posts_bind with (P := fun c => match c with
                                         | Return r => decided r
                                         | Continue l => ConversionRestrictionKind.User ∉ l
                                         end).
    - apply decomposeParallelStructure_decided.
    - intros [r|l] Hc; [posts_auto|].
      apply collectPotentialConversions_decided. exact Hc. }
  intros [r|l] Hc; [posts_auto|].
  apply commitToConversions_decided. exact Hc.
Qed.

End NeverDefers.

Lemma matchTypes_decided TC : forall fuel type1 type2 kind flags locator,
  hasFlag flags TMF_GenerateConstraints = true ->
  posts (matchTypes TC fuel type1 type2 kind flags locator) decided.
Proof.
  induction fuel as [|n IH]; intros type1 type2 kind flags locator Hf.
  - intros cs r cs' H. discriminate.
  - rewrite matchTypes_S. apply matchTypes_body_decided; [|exact Hf].
    intros t1 t2 k fl loc Hfl. apply IH. exact Hfl.
Qed.

(** While it is allowed to generate constraints, the matcher never
    answers Unsolved: whatever it cannot decide on the spot it queues as a
    new constraint and reports as solved. *)
Theorem matchTypes_generating_never_defers TC fuel type1 type2 kind flags locator cs r cs' :
  hasFlag flags TMF_GenerateConstraints = true ->
  matchTypes TC fuel type1 type2 kind flags locator cs = Done (r, cs') ->
  r <> Unsolved.
Proof. intros Hf H. exact (matchTypes_decided TC _ _ _ _ _ _ Hf _ _ _ H). Qed.

Lemma matchTypes_generating_never_defers_witness :
  matchTypes Examples.bareTC 3 (TTypeVariable 0) Examples.Int TypeMatchKind.Subtype
    TMF_GenerateConstraints Examples.noLocator Examples.oneVariableCS
  = Done (Solved,
          enqueue (mkConstraint ConstraintKind.Subtype None (TTypeVariable 0)
                     (Some Examples.Int) "" None) Examples.oneVariableCS)
  /\ Solved <> Unsolved.
Proof.
  split; [reflexivity|].
  apply (matchTypes_generating_never_defers Examples.bareTC 3 (TTypeVariable 0) Examples.Int
           TypeMatchKind.Subtype TMF_GenerateConstraints Examples.noLocator
           Examples.oneVariableCS Solved
           (enqueue (mkConstraint ConstraintKind.Subtype None (TTypeVariable 0)
                       (Some Examples.Int) "" None) Examples.oneVariableCS));
    reflexivity.
Defined.

(* ===================================================================== *)
(** ** Checked casts *)
(* ===================================================================== *)





Section CheckedCastAgreement.

Variable TC : TypeChecker.
Variables protocolIsObjC classIsObjC : DeclId -> bool.
Variable isSubstitutableFor : Ty -> nat -> bool.
Variable convertToType : Ty -> bool.

Local Abbreviation checkCast :=
  (typeCheckCheckedCast TC protocolIsObjC classIsObjC isSubstitutableFor convertToType).

Lemma typeCheckCheckedCast_cases fromType toType :
  ((checkCast fromType toType).1 = CCK_Coercion
   \/ (checkCast fromType toType).1 = CCK_Unresolved
   \/ (checkCast fromType toType).1 = getCheckedCastKind TC fromType toType)
  /\ ((checkCast fromType toType).1 = CCK_Coercion <->
      Ty_eqb fromType toType || isConvertibleTo TC fromType toType = true)
  /\ ((checkCast fromType toType).2 <> None ->
      (checkCast fromType toType).1 = CCK_Unresolved).
Proof.
  unfold typeCheckCheckedCast, getCheckedCastKind, isExistentialType. simpl.
  destruct (Ty_eqb fromType toType || isConvertibleTo TC fromType toType) eqn:Ec; simpl.
  { repeat split; auto. intros H; contradiction. }
  destruct (existentialProtocols toType) as [toProtocols|] eqn:Eto; simpl.
  { destruct (_ && forallb protocolIsObjC toProtocols); simpl;
      repeat split; auto; try discriminate; intros H; try contradiction; discriminate. }
  destruct (existentialProtocols fromType) as [fromProtocols|] eqn:Efrom; simpl.
  - assert (Hfa : forall A (x y : A), match fromType with TArchetype _ => x | _ => y end = y).
    { intros A x y. destruct fromType; try reflexivity. discriminate. }
    rewrite !Hfa. simpl.
    destruct toType; simpl;
      repeat match goal with
             | |- context [if ?b then _ else _] => destruct b eqn:?; simpl
             end;
      repeat split; auto; try discriminate; try congruence; try (intros H; contradiction).
  - destruct fromType, toType; simpl in *; try discriminate;
      repeat match goal with
             | |- context [if ?b then _ else _] => destruct b eqn:?; simpl
             | |- context [match ?x with _ => _ end] => destruct x eqn:?; simpl
             end;
      repeat split; auto; try discriminate; try congruence;
      try (intros H; contradiction).
Qed.

End CheckedCastAgreement.

(** The type checker's classification of a checked cast agrees with the
    solver's: whenever [typeCheckCheckedCast] settles on a kind other than
    Coercion and Unresolved, it is the kind that [getCheckedCastKind] gives
    for the same two types; it answers Coercion exactly when the types are
    equal or implicitly convertible, and it emits a diagnostic only together
    with Unresolved. *)
Theorem typeCheckCheckedCast_agrees TC protocolIsObjC classIsObjC isSubstitutableFor
    convertToType fromType toType :
  ((typeCheckCheckedCast TC protocolIsObjC classIsObjC isSubstitutableFor convertToType
      fromType toType).1 = CCK_Coercion
   \/ (typeCheckCheckedCast TC protocolIsObjC classIsObjC isSubstitutableFor convertToType
         fromType toType).1 = CCK_Unresolved
   \/ (typeCheckCheckedCast TC protocolIsObjC classIsObjC isSubstitutableFor convertToType
         fromType toType).1 = getCheckedCastKind TC fromType toType)
  /\ ((typeCheckCheckedCast TC protocolIsObjC classIsObjC isSubstitutableFor convertToType
         fromType toType).1 = CCK_Coercion <->
      Ty_eqb fromType toType || isConvertibleTo TC fromType toType = true)
  /\ ((typeCheckCheckedCast TC protocolIsObjC classIsObjC isSubstitutableFor convertToType
         fromType toType).2 <> None ->
      (typeCheckCheckedCast TC protocolIsObjC classIsObjC isSubstitutableFor convertToType
         fromType toType).1 = CCK_Unresolved).
Proof. apply typeCheckCheckedCast_cases. Qed.

(* ===================================================================== *)
(** ** Kinds, tuple members, initializers, lvalue adjustment *)
(* ===================================================================== *)

(** The two translations between match kinds and relational constraint
    kinds are inverse to each other: a constraint kind translates to a match
    kind exactly when it is the translation of that match kind. *)
Theorem relational_kinds_round_trip kind ckind :
  getTypeMatchKind ckind = Some kind <-> getConstraintKind kind = ckind.
Proof.
  split.
  - destruct ckind; simpl; intros H; try discriminate; injection H as <-; reflexivity.
  - intros <-. destruct kind; reflexivity.
Qed.



(** *** [adjustLValueForReference] *)

(** Adjusting a reference type is idempotent; an lvalue type stays an
    lvalue of the same object type and gains the implicit qualifier, and a
    type that is neither an lvalue nor a function is returned unchanged. *)
Theorem adjustLValueForReference_idempotent type isAssignment :
  adjustLValueForReference (adjustLValueForReference type isAssignment) isAssignment
  = adjustLValueForReference type isAssignment
  /\ (forall object quals, type = TLValue object quals ->
        adjustLValueForReference type isAssignment
        = TLValue object (mkQual true (isNonSettable quals)))
  /\ (isAssignment = false ->
      (forall object quals, type <> TLValue object quals) ->
      adjustLValueForReference type isAssignment = type).
Proof.
  repeat split.
  - destruct type; try reflexivity.
    simpl. destruct isAssignment; [|reflexivity].
    destruct type1 as [| | | | | | |[|[n ty v i] rest]| | | | | | | | | | |]; try reflexivity.
    simpl. destruct ty; reflexivity.
  - intros object quals ->. reflexivity.
  - intros -> Hnot. destruct type; try reflexivity. exfalso. eapply Hnot. reflexivity.
Qed.

(* ===================================================================== *)
(** ** Dynamic lookup, type simplification, solution diffs *)
(* ===================================================================== *)

Lemma sameSignature_eq a b : sameSignature a b = true <-> a = b.
Proof.
  destruct a as [s1 t1], b as [s2 t2]. unfold sameSignature. simpl.
  rewrite andb_true_iff, String.eqb_eq, Ty_eqb_true_iff. split.
  - intros [-> ->]. reflexivity.
  - intros H. injection H as -> ->. auto.
Qed.

Lemma existsb_sameSignature sig known :
  existsb (sameSignature sig) known = true <-> sig ∈ known.
Proof.
  rewrite existsb_exists. split.
  - intros (x & Hin & Hx). apply sameSignature_eq in Hx as ->.
    apply list_elem_of_In. exact Hin.
  - intros Hin. exists sig. split; [apply list_elem_of_In; exact Hin|].
    apply sameSignature_eq. reflexivity.
Qed.

Lemma filterRedundant_spec TC : forall decls known,
  sublist (filterRedundant TC known decls) decls
  /\ NoDup (map (dynamicResultSignature TC) (filterRedundant TC known decls))
  /\ (forall d, d ∈ filterRedundant TC known decls -> dynamicResultSignature TC d ∉ known)
  /\ (forall d, d ∈ decls ->
        dynamicResultSignature TC d ∈ known
        \/ dynamicResultSignature TC d
           ∈ map (dynamicResultSignature TC) (filterRedundant TC known decls)).
Proof.
  induction decls as [|decl rest IH]; intros known; simpl.
  - repeat split; [constructor | constructor | intros d Hd; inversion Hd
                   | intros d Hd; inversion Hd].
  - destruct (existsb (sameSignature (dynamicResultSignature TC decl)) known) eqn:E.
    + apply existsb_sameSignature in E.
      destruct (IH known) as (H1 & H2 & H3 & H4). repeat split; auto.
      * apply sublist_cons. exact H1.
      * intros d Hd. apply elem_of_cons in Hd as [->|Hd]; auto.
    + assert (Hnot : dynamicResultSignature TC decl ∉ known).
      { intros Hin. apply existsb_sameSignature in Hin. congruence. }
      destruct (IH (dynamicResultSignature TC decl :: known)) as (H1 & H2 & H3 & H4).
      repeat split.
      * apply sublist_skip. exact H1.
      * simpl. constructor; [|exact H2].
        intros Hin. apply list_elem_of_fmap in Hin as (d & Hd1 & Hd2).
        apply H3 in Hd2. apply Hd2. rewrite Hd1. left.
      * intros d Hd. apply elem_of_cons in Hd as [->|Hd]; [exact Hnot|].
        intros Hin. apply (H3 d Hd). right. exact Hin.
      * intros d Hd. apply elem_of_cons in Hd as [->|Hd]; [right; left|].
        destruct (H4 d Hd) as [Hk|Hk].
        -- apply elem_of_cons in Hk as [Hk|Hk]; [right; rewrite Hk; left | left; exact Hk].
        -- right. right. exact Hk.
Qed.

(** Member lookup in the dynamic-lookup protocol returns each signature
    once: the results are a sub-sequence of what the type checker found, no
    two of them share selector and result type, and every declaration that
    was found has the signature of a result that is kept. *)
Theorem dynamic_lookup_is_deduplicated TC base name proto :
  baseInstanceType base = TProtocol proto ->
  isDynamicLookupProtocol TC proto = true ->
  sublist (lookupMember TC base name) (TC_lookupMember TC base name)
  /\ NoDup (map (dynamicResultSignature TC) (lookupMember TC base name))
  /\ forall d, d ∈ TC_lookupMember TC base name ->
       dynamicResultSignature TC d
       ∈ map (dynamicResultSignature TC) (lookupMember TC base name).
Proof.
  intros Hbase Hdyn. unfold lookupMember. unfold baseInstanceType in Hbase.
  destruct (TC_lookupMember TC base name) as [|d0 rest] eqn:El.
  { repeat split; [constructor | constructor | intros d Hd; inversion Hd]. }
  assert (Hi : match getRValueType base with
               | TMetaType i => i
               | _ => getRValueType base
               end = TProtocol proto).
  { destruct (getRValueType base); exact Hbase. }
  rewrite Hi, Hdyn.
  destruct (filterRedundant_spec TC (d0 :: rest) []) as (H1 & H2 & _ & H4).
  repeat split; auto.
  intros d Hd. destruct (H4 d Hd) as [Hk|Hk]; [inversion Hk | exact Hk].
Qed.

Lemma dynamic_lookup_is_deduplicated_witness :
  lookupMember dynamicTC (TProtocol DynamicLookupDecl) "f" = [30; 31]
  /\ sublist (lookupMember dynamicTC (TProtocol DynamicLookupDecl) "f")
       (TC_lookupMember dynamicTC (TProtocol DynamicLookupDecl) "f")
  /\ NoDup (map (dynamicResultSignature dynamicTC)
              (lookupMember dynamicTC (TProtocol DynamicLookupDecl) "f")).
Proof.
  split; [reflexivity|].
  destruct (dynamic_lookup_is_deduplicated dynamicTC (TProtocol DynamicLookupDecl) "f"
              DynamicLookupDecl eq_refl eq_refl) as (H1 & H2 & _).
  split; [exact H1 | exact H2].
Defined.

(** *** [simplifyType] *)

Lemma findIf_tuple p fields :
  findIf p (TTuple fields) = p (TTuple fields) || existsb (fun e => findIf p (getType e)) fields.
Proof.
  simpl. f_equal. induction fields as [|[n ty v i] rest IH]; [reflexivity|].
  simpl. rewrite IH. reflexivity.
Qed.

Lemma findIf_list p (l : list Ty) :
  (fix go (l : list Ty) : bool :=
     match l with
     | [] => false
     | ty :: l' => findIf p ty || go l'
     end) l = existsb (findIf p) l.
Proof. induction l as [|x l IH]; [reflexivity|]. simpl. rewrite IH. reflexivity. Qed.

Lemma existsb_false_Forall {A} (f : A -> bool) l :
  existsb f l = false -> Forall (fun x => f x = false) l.
Proof.
  induction l as [|x l IH]; simpl; intros H; constructor.
  - apply orb_false_iff in H as [? _]. assumption.
  - apply IH. apply orb_false_iff in H as [_ ?]. assumption.
Qed.

Ltac use_fuel_hyp fuel :=
  repeat match goal with
         | H : forall fuel0 : nat, simplifyTypeIn _ fuel0 _ ?t = Done ?t |- _ =>
             let E := fresh "E" in
             pose proof (H fuel) as E; simpl in E; rewrite ?E; clear H
         end.

Ltac solve_walk fuel :=
  destruct fuel as [|fuel]; simpl; [use_fuel_hyp 0 | use_fuel_hyp (S fuel)]; reflexivity.

Lemma simplifyTypeIn_concrete cs substituting : forall t,
  hasTypeVariable t = false ->
  forall fuel, simplifyTypeIn cs fuel substituting t = Done t.
Proof.
  unfold hasTypeVariable.
  induction t using Ty_induction; intros Hv fuel; try (destruct fuel; reflexivity).
  - simpl in Hv. specialize (IHt Hv). solve_walk fuel.
  - discriminate.
  - rewrite findIf_tuple in Hv. simpl in Hv. apply existsb_false_Forall in Hv.
    assert (Hall : Forall (fun e => forall fuel, simplifyTypeIn cs fuel substituting (getType e)
                                                  = Done (getType e)) fields).
    { rewrite Forall_forall in H, Hv. apply Forall_forall. intros e He. auto. }
    clear H Hv.
    assert (Hw : forall fuel0,
      (fix walkFields (l : list TupleTypeElt) : Res (list TupleTypeElt) :=
         match l with
         | [] => Done []
         | mkElt n ty v i :: l' =>
             match simplifyTypeIn cs fuel0 substituting ty, walkFields l' with
             | Done y, Done r => Done (mkElt n y v i :: r)
             | Abort, _ | _, Abort => Abort
             | _, _ => Timeout
             end
         end) fields = Done fields).
    { intros fuel0. induction Hall as [|[n ty v i] rest Hx Hrest IH]; [reflexivity|].
      simpl in Hx. rewrite Hx, IH. reflexivity. }
    destruct fuel; simpl.
    + specialize (Hw 0). simpl in Hw. rewrite Hw. reflexivity.
    + specialize (Hw (S fuel)). simpl in Hw. rewrite Hw. reflexivity.
  - simpl in Hv. destruct parent as [p|]; [|destruct fuel; reflexivity].
    specialize (H p eq_refl Hv). solve_walk fuel.
  - simpl in Hv. specialize (IHt Hv). solve_walk fuel.
  - simpl in Hv. apply orb_false_iff in Hv as [Hv1 Hv2].
    specialize (IHt1 Hv1). specialize (IHt2 Hv2). solve_walk fuel.
  - simpl in Hv. specialize (IHt Hv). solve_walk fuel.
  - simpl in Hv. rewrite findIf_list in Hv. apply existsb_false_Forall in Hv.
    assert (Hw : forall fuel0,
      (fix walkList (l : list Ty) : Res (list Ty) :=
         match l with
         | [] => Done []
         | x :: l' =>
             match simplifyTypeIn cs fuel0 substituting x, walkList l' with
             | Done y, Done r => Done (y :: r)
             | Abort, _ | _, Abort => Abort
             | _, _ => Timeout
             end
         end) ps = Done ps).
    { intros fuel0. induction H as [|x rest Hx Hrest IH]; [reflexivity|].
      apply Forall_cons in Hv as [Hv1 Hv2]. rewrite (Hx Hv1), (IH Hv2). reflexivity. }
    destruct fuel; simpl.
    + specialize (Hw 0). simpl in Hw. rewrite Hw. reflexivity.
    + specialize (Hw (S fuel)). simpl in Hw. rewrite Hw. reflexivity.
  - simpl in Hv. specialize (IHt Hv). solve_walk fuel.
  - simpl in Hv. rewrite findIf_list in Hv. apply orb_false_iff in Hv as [Hp Hv].
    apply existsb_false_Forall in Hv.
    assert (Hw : forall fuel0,
      (fix walkList (l : list Ty) : Res (list Ty) :=
         match l with
         | [] => Done []
         | x :: l' =>
             match simplifyTypeIn cs fuel0 substituting x, walkList l' with
             | Done y, Done r => Done (y :: r)
             | Abort, _ | _, Abort => Abort
             | _, _ => Timeout
             end
         end) args = Done args).
    { intros fuel0. induction H0 as [|x rest Hx Hrest IH]; [reflexivity|].
      apply Forall_cons in Hv as [Hv1 Hv2]. rewrite (Hx Hv1), (IH Hv2). reflexivity. }
    destruct parent as [p|].
    + specialize (H p eq_refl Hp).
      destruct fuel; simpl.
      * specialize (Hw 0). simpl in Hw. rewrite Hw. use_fuel_hyp 0. reflexivity.
      * specialize (Hw (S fuel)). simpl in Hw. rewrite Hw. use_fuel_hyp (S fuel). reflexivity.
    + destruct fuel; simpl.
      * specialize (Hw 0). simpl in Hw. rewrite Hw. reflexivity.
      * specialize (Hw (S fuel)). simpl in Hw. rewrite Hw. reflexivity.
Qed.

(** A type that contains no type variable is left unchanged by
    [simplifyType], whatever the bindings of the constraint system are, and
    the constraint system is not modified. *)
Theorem simplifyType_concrete_is_identity t cs :
  hasTypeVariable t = false ->
  simplifyType t cs = Done (t, cs).
Proof.
  intros H. unfold simplifyType, liftRes.
  rewrite (simplifyTypeIn_concrete cs [] t H). reflexivity.
Qed.

Lemma simplifyType_concrete_is_identity_witness :
  simplifyType (TTuple Examples.tuple_x_Int_Int) Examples.twoVariablesCS
  = Done (TTuple Examples.tuple_x_Int_Int, Examples.twoVariablesCS).
Proof.
  apply (simplifyType_concrete_is_identity (TTuple Examples.tuple_x_Int_Int)
           Examples.twoVariablesCS).
  reflexivity.
Defined.


(** *** [SolutionDiff] *)

Section Alignment.

Context {A B Sol : Type}.
Variable f : A -> Sol -> option B.
Variable first : list (A * B).

Lemma extendCommon_aligned processed solution acc :
  Forall (alignedEntry f first processed) acc ->
  Forall (alignedEntry f first (processed ++ [solution])) (extendCommon f acc solution).
Proof.
  intros Hacc. apply Forall_forall. intros entry' Hin.
  apply list_elem_of_omap in Hin as (entry & Hentry & Hstep).
  rewrite Forall_forall in Hacc. destruct (Hacc _ Hentry) as (Hlen & (a & Ha & Hfirst) & Hrest).
  destruct (f (fst entry) solution) as [known|] eqn:Ef; [|discriminate].
  injection Hstep as <-. unfold alignedEntry. simpl.
  rewrite !length_app. simpl. split; [lia|]. split.
  - exists a. split; [|exact Hfirst]. rewrite lookup_app_l by lia. exact Ha.
  - intros i s Hi. destruct (decide (i < length processed)) as [Hlt|Hge].
    + rewrite lookup_app_l in Hi by lia. rewrite lookup_app_l by lia. apply Hrest. exact Hi.
    + rewrite lookup_app_r in Hi by lia.
      destruct (i - length processed) as [|m] eqn:Em; [|destruct m; discriminate].
      injection Hi as <-. assert (i = length processed) as -> by lia.
      rewrite lookup_app_r by lia. rewrite Hlen, Nat.sub_diag. simpl.
      rewrite Ef. split; [reflexivity | eauto].
Qed.

Lemma fold_extendCommon_aligned : forall rest processed acc,
  Forall (alignedEntry f first processed) acc ->
  Forall (alignedEntry f first (processed ++ rest)) (fold_left (extendCommon f) rest acc).
Proof.
  induction rest as [|solution rest IH]; intros processed acc Hacc; simpl.
  - rewrite app_nil_r. exact Hacc.
  - replace (processed ++ solution :: rest) with ((processed ++ [solution]) ++ rest)
      by (rewrite <- app_assoc; reflexivity).
    apply IH. apply extendCommon_aligned. exact Hacc.
Qed.

Lemma initial_aligned :
  Forall (alignedEntry f first []) (map (fun b : A * B => (fst b, [snd b])) first).
Proof.
  apply Forall_forall. intros entry Hin. apply list_elem_of_fmap in Hin as ([k v] & -> & Hin).
  unfold alignedEntry. simpl. split; [reflexivity|]. split; [eauto|].
  intros i s Hi. discriminate.
Qed.

End Alignment.

Lemma lookupBinding_elem typeVar l ty :
  lookupBinding typeVar l = Some ty -> (typeVar, ty) ∈ l.
Proof.
  unfold lookupBinding. destruct (List.find _ l) as [[k v]|] eqn:E; [|discriminate].
  simpl. intros H. injection H as <-. apply find_some in E as [Hin Hk].
  simpl in Hk. apply Nat.eqb_eq in Hk as ->. apply list_elem_of_In. exact Hin.
Qed.

Lemma lookupChoice_elem locator l c :
  lookupChoice locator l = Some c -> (locator, c) ∈ l.
Proof.
  unfold lookupChoice. destruct (List.find _ l) as [[k v]|] eqn:E; [|discriminate].
  simpl. intros H. injection H as <-. apply find_some in E as [Hin Hk].
  simpl in Hk. apply bool_decide_eq_true in Hk as ->. apply list_elem_of_In. exact Hin.
Qed.

Lemma commonBindings_aligned first rest :
  Forall (alignedEntry (fun k s => lookupBinding k (typeBindings s)) (typeBindings first) rest)
    (commonBindings (first :: rest)).
Proof.
  unfold commonBindings.
  apply (fold_extendCommon_aligned (fun k s => lookupBinding k (typeBindings s))
           (typeBindings first) rest []).
  apply initial_aligned.
Qed.

Lemma commonChoices_aligned first rest :
  Forall (alignedEntry (fun k s => lookupChoice k (overloadChoices s)) (overloadChoices first)
            rest)
    (commonChoices (first :: rest)).
Proof.
  unfold commonChoices.
  apply (fold_extendCommon_aligned (fun k s => lookupChoice k (overloadChoices s))
           (overloadChoices first) rest []).
  apply initial_aligned.
Qed.

Lemma aligned_binding first rest entry :
  alignedEntry (fun k s => lookupBinding k (typeBindings s)) (typeBindings first) rest entry ->
  length (snd entry) = length (first :: rest)
  /\ forall i s, (first :: rest) !! i = Some s ->
       exists ty, snd entry !! i = Some ty /\ (fst entry, ty) ∈ typeBindings s.
Proof.
  intros (Hlen & (a & Ha & Hfirst) & Hrest). split; [exact Hlen|].
  intros [|i] s Hi; simpl in Hi.
  - injection Hi as <-. eauto.
  - destruct (Hrest i s Hi) as [Heq [ty Hty]]. exists ty. split; [congruence|].
    apply lookupBinding_elem. exact Hty.
Qed.

Lemma aligned_choice first rest entry :
  alignedEntry (fun k s => lookupChoice k (overloadChoices s)) (overloadChoices first) rest
    entry ->
  length (snd entry) = length (first :: rest)
  /\ forall i s, (first :: rest) !! i = Some s ->
       exists c, snd entry !! i = Some c /\ (fst entry, c) ∈ overloadChoices s.
Proof.
  intros (Hlen & (a & Ha & Hfirst) & Hrest). split; [exact Hlen|].
  intros [|i] s Hi; simpl in Hi.
  - injection Hi as <-. eauto.
  - destruct (Hrest i s Hi) as [Heq [c Hc]]. exists c. split; [congruence|].
    apply lookupChoice_elem. exact Hc.
Qed.

(** Every entry of a solution diff is aligned with the solutions: it
    holds exactly one binding (or overload choice) per solution, the one at
    index [i] being a binding of that type variable (a choice at that
    locator) in solution [i], and the first one differs from some other. *)
Theorem solution_diff_is_aligned TC solutions :
  Forall (fun d =>
            length (SolutionDiff.bindings d) = length solutions
            /\ (forall i s, solutions !! i = Some s ->
                  exists ty, SolutionDiff.bindings d !! i = Some ty
                             /\ (SolutionDiff.typeVar d, ty) ∈ typeBindings s)
            /\ (exists j a b, SolutionDiff.bindings d !! 0 = Some a
                              /\ SolutionDiff.bindings d !! j = Some b /\ a <> b))
    (SolutionDiff.typeBindings (mkSolutionDiff TC solutions))
  /\ Forall (fun o =>
               length (SolutionDiff.choices o) = length solutions
               /\ (forall i s, solutions !! i = Some s ->
                     exists c, SolutionDiff.choices o !! i = Some c
                               /\ (SolutionDiff.locator o, c) ∈ overloadChoices s)
               /\ (exists j a b, SolutionDiff.choices o !! 0 = Some a
                                 /\ SolutionDiff.choices o !! j = Some b
                                 /\ sameOverloadChoice TC a b = false))
       (SolutionDiff.overloads (mkSolutionDiff TC solutions)).
Proof.
  unfold mkSolutionDiff.
  destruct (Nat.leb (length solutions) 1) eqn:El; [split; constructor|].
  destruct solutions as [|first rest]; [discriminate|]. simpl SolutionDiff.typeBindings.
  simpl SolutionDiff.overloads. split.
  - apply Forall_forall. intros d Hd.
    apply list_elem_of_omap in Hd as (entry & Hentry & Hd).
    pose proof (commonBindings_aligned first rest) as Hal. rewrite Forall_forall in Hal.
    destruct (aligned_binding _ _ _ (Hal _ Hentry)) as [Hlen Hidx].
    destruct (snd entry) as [|single others] eqn:Es; [discriminate|].
    destruct (forallb (Ty_eqb single) others) eqn:Eall; [discriminate|].
    injection Hd as <-. simpl. rewrite ?Es. repeat split; auto.
    assert (Hex : exists j b, others !! j = Some b /\ Ty_eqb single b = false).
    { clear -Eall. induction others as [|x others IH]; [discriminate|].
      simpl in Eall. destruct (Ty_eqb single x) eqn:Ex.
      - destruct (IH Eall) as (j & b & Hj & Hb). exists (S j), b. auto.
      - exists 0, x. auto. }
    destruct Hex as (j & b & Hj & Hb). exists (S j), single, b. repeat split; auto.
    intros ->. rewrite Ty_eqb_refl in Hb. discriminate.
  - apply Forall_forall. intros o Ho.
    apply list_elem_of_In, in_concat in Ho as (group & Hgroup & Ho).
    apply in_map_iff in Hgroup as (entry & <- & Hentry).
    apply list_elem_of_In in Hentry.
    pose proof (commonChoices_aligned first rest) as Hal. rewrite Forall_forall in Hal.
    destruct (aligned_choice _ _ _ (Hal _ Hentry)) as [Hlen Hidx].
    destruct (snd entry) as [|single others] eqn:Es; [inversion Ho|].
    apply in_map_iff in Ho as (c & <- & Hc).
    apply filter_In in Hc as [Hc Hdiff].
    apply negb_true_iff in Hdiff. simpl. rewrite ?Es. repeat split; auto.
    apply list_elem_of_In, list_elem_of_lookup in Hc as [j Hj].
    exists j, single, c. auto.
Qed.

(* ===================================================================== *)
(** ** Arity of tuples; references to operators *)
(* ===================================================================== *)

Lemma Ty_eqb_tuple_length t1 t2 :
  length t1 <> length t2 -> Ty_eqb (TTuple t1) (TTuple t2) = false.
Proof.
  intros Hne. destruct (Ty_eqb _ _) eqn:E; [|reflexivity].
  apply Ty_eqb_eq in E. injection E as ->. contradiction.
Qed.

(** At the kinds Bind and Equal two tuple types of different arity never
    match: the matcher fails with a tuple-size mismatch, whatever the element
    types are, and queues nothing. *)
Theorem matchTypes_tuple_arity_mismatch TC n tuple1 tuple2 kind flags locator cs :
  length tuple1 <> length tuple2 ->
  TypeMatchKind.ltb kind TypeMatchKind.TrivialSubtype = true ->
  matchTypes TC (S n) (TTuple tuple1) (TTuple tuple2) kind flags locator cs
  = Done (Error,
          withFailure (mkFailure (getConstraintLocator locator) Failure.TupleSizeMismatch
                         (TTuple tuple1) (Some (TTuple tuple2)) "") cs).
Proof.
  intros Hne Hk. rewrite matchTypes_S. unfold matchTypes_body, bind.
  rewrite !getFixedTypeRecursive_concrete by (destruct (TypeMatchKind.eqb _ _); reflexivity).
  assert (Hr : forall (b : bool) t, (if b then getRValueType (TTuple t) else TTuple t)
                                    = TTuple t) by (intros [] ?; reflexivity).
  rewrite !Hr, (Ty_eqb_tuple_length _ _ Hne). simpl.
  apply Nat.eqb_neq in Hne.
  destruct kind; try discriminate;
    unfold potentialConversionsOf, decomposeParallelStructure, collectPotentialConversions,
      collectOptionalConversions, commitToConversions, matchSingleConversion,
      matchTupleTypes, bind, ret; simpl; rewrite Hne; simpl;
    unfold bind; rewrite recordIfEnabled_eq; reflexivity.
Qed.

Lemma matchTypes_tuple_arity_mismatch_witness :
  matchTypes Examples.bareTC 1 (TTuple Examples.tuple_Int_Int)
    (TTuple [mkElt "" Examples.Int false DAK_None]) TypeMatchKind.SameType TMF_None
    Examples.noLocator Examples.emptyCS
  = Done (Error,
          withFailure (mkFailure (getConstraintLocator Examples.noLocator)
                         Failure.TupleSizeMismatch (TTuple Examples.tuple_Int_Int)
                         (Some (TTuple [mkElt "" Examples.Int false DAK_None])) "")
            Examples.emptyCS).
Proof.
  apply (matchTypes_tuple_arity_mismatch Examples.bareTC 0 Examples.tuple_Int_Int
           [mkElt "" Examples.Int false DAK_None] TypeMatchKind.SameType);
    [simpl; lia | reflexivity].
Defined.

(** A declaration whose type is not the error type never matches both a
    prefix-operator and a postfix-operator reference, and a declaration that
    is not a function matches no operator reference at all; an ordinary
    reference matches every declaration. *)
Theorem operator_references_are_exclusive value :
  matchesDeclRefKind value Ordinary = Some true
  /\ (valueType value <> TError ->
      (matchesDeclRefKind value PrefixOperator = Some true ->
       matchesDeclRefKind value PostfixOperator = Some false)
      /\ (valueIsFunc value = false ->
          matchesDeclRefKind value BinaryOperator = Some false
          /\ matchesDeclRefKind value PrefixOperator = Some false
          /\ matchesDeclRefKind value PostfixOperator = Some false)).
Proof.
  unfold matchesDeclRefKind, getNumArgs. split.
  - destruct (valueType value); reflexivity.
  - intros Hne. destruct (valueType value) eqn:Et; try contradiction;
      (split; [destruct (valueIsPostfix value); simpl; [discriminate | reflexivity]|]);
      intros ->; simpl; destruct (valueIsPostfix value); auto.
Qed.

(* ===================================================================== *)
(** ** Which conversions are tried at which kind *)
(* ===================================================================== *)

Lemma gatedBy_snoc kind l p :
  gatedBy kind l -> TypeMatchKind.geb kind (minimalKind p) = true -> gatedBy kind (l ++ [p]).
Proof. intros Hl Hp. apply Forall_app. split; [exact Hl|]. constructor; [exact Hp|constructor]. Qed.

Lemma geb_trans_Conversion kind k' :
  TypeMatchKind.geb kind TypeMatchKind.Conversion = true -> TypeMatchKind.geb kind k' = true.
Proof. destruct kind, k'; simpl; auto. Qed.

Section Gating.

Variable TC : TypeChecker.
Variable rec : Recursion.

Lemma decomposeParallelStructure_gated type1 type2 kind flags locator :
  posts (decomposeParallelStructure TC rec type1 type2 kind flags locator)
    (fun c => match c with
              | Return _ => True
              | Continue l => gatedBy kind l
              end).
Proof.
  assert (Hone : forall p, minimalKind p = TypeMatchKind.BindType -> gatedBy kind [p]).
  { intros p Hp. constructor; [|constructor]. rewrite Hp. destruct kind; reflexivity. }
  unfold decomposeParallelStructure.
  destruct (negb _); [apply posts_ret; constructor|].
  destruct type1, type2;
    repeat first [ apply posts_ret | apply posts_abort | apply posts_bind_any; intros ?
                 | match goal with
                   | |- posts (match ?x with _ => _ end) _ => destruct x
                   end ];
    try exact I; try (apply Hone; reflexivity); try (constructor; fail).
Qed.

Lemma collectTupleAndClassConversions_gated type1 type2 kind l :
  TypeMatchKind.geb kind TypeMatchKind.TrivialSubtype = true ->
  gatedBy kind l ->
  posts (collectTupleAndClassConversions TC type1 type2 kind l)
    (fun c => match c with
              | Return l' | Continue l' => gatedBy kind l'
              end).
Proof.
  intros Hk Hl. unfold collectTupleAndClassConversions.
  apply posts_bind_any. intros mismatched.
  destruct (asTuple type2) as [t2|];
    [destruct (negb mismatched && _)|];
    try (apply posts_ret; apply gatedBy_snoc; [exact Hl|exact Hk]);
    apply posts_ret;
    destruct (asTuple type1) as [t1|];
    repeat match goal with
           | |- context [if ?b then _ else _] => destruct b
           end;
    repeat (apply gatedBy_snoc; [|exact Hk]); exact Hl.
Qed.

Lemma collectOptionalConversions_gated type1 type2 concrete kind l :
  gatedBy kind l ->
  posts (collectOptionalConversions TC type1 type2 concrete kind l) (gatedBy kind).
Proof.
  intros Hl. unfold collectOptionalConversions.
  destruct (concrete && TypeMatchKind.geb kind TypeMatchKind.Conversion) eqn:E;
    [|apply posts_ret; exact Hl].
  apply andb_true_iff in E as [_ Hk].
  destruct type2; try (apply posts_ret; exact Hl).
  destruct (Nat.eqb _ _); [|apply posts_ret; exact Hl].
  apply posts_bind_any. intros _.
  apply posts_bind with (P := gatedBy kind).
  - destruct type1; try (apply posts_ret; exact Hl).
    destruct (Nat.eqb _ _); [|apply posts_ret; exact Hl].
    apply posts_bind_any. intros _. apply posts_ret. apply gatedBy_snoc; auto.
  - intros l' Hl'. apply posts_ret. apply gatedBy_snoc; auto.
Qed.

Lemma collectPotentialConversions_gated type1 type2 concrete kind flags locator l :
  gatedBy kind l ->
  posts (collectPotentialConversions TC rec type1 type2 concrete kind flags locator l)
    (fun c => match c with
              | Return _ => True
              | Continue l' => gatedBy kind l'
              end).
Proof.
  intros Hl. unfold collectPotentialConversions.
  apply posts_bind with (P := fun c => match c with
                                       | Return l' | Continue l' => gatedBy kind l'
                                       end).
  { destruct (concrete && TypeMatchKind.geb kind TypeMatchKind.TrivialSubtype) eqn:E;
      [|apply posts_ret; exact Hl].
    apply andb_true_iff in E as [_ Hk].
    apply collectTupleAndClassConversions_gated; auto. }
  intros [committed|l1] Hl1; [apply posts_ret; exact Hl1|].
  destruct (concrete && TypeMatchKind.geb kind TypeMatchKind.Conversion) eqn:Ec.
  - apply andb_true_iff in Ec as [_ Hk].
    set (l2 := match type1 with
               | TLValue _ quals1 =>
                   if isImplicit quals1
                   then l1 ++ [ConversionRestrictionKind.LValueToRValue] else l1
               | _ => l1
               end).
    assert (Hl2 : gatedBy kind l2).
    { subst l2. destruct type1; try exact Hl1. destruct (isImplicit _); [|exact Hl1].
      apply gatedBy_snoc; auto. }
    destruct (match type2 with
              | TFunction _ result2 true _ => Some result2
              | _ => None
              end); [apply posts_bind_any; intros ?; apply posts_ret; exact I|].
    set (l3 := if isExistentialType type2 && _
               then l2 ++ [ConversionRestrictionKind.Existential] else l2).
    assert (Hl3 : gatedBy kind l3).
    { subst l3. destruct (isExistentialType type2 && _); [|exact Hl2].
      apply gatedBy_snoc; [exact Hl2|]. apply geb_trans_Conversion. exact Hk. }
    apply posts_bind with (P := gatedBy kind);
      [apply collectOptionalConversions_gated; exact Hl3|].
    intros l4 Hl4. apply posts_ret.
    destruct (true && shouldTryUserConversion TC type1); [|exact Hl4].
    apply gatedBy_snoc; auto.
  - set (l3 := if isExistentialType type2 && _
               then l1 ++ [ConversionRestrictionKind.Existential] else l1).
    assert (Hl3 : gatedBy kind l3).
    { subst l3.
      destruct (isExistentialType type2
                && (TypeMatchKind.geb kind TypeMatchKind.Conversion
                    || TypeMatchKind.eqb kind TypeMatchKind.Subtype
                       && (isExistentialType type1 || isClassExistentialType TC type2)))
        eqn:E; [|exact Hl1].
      apply gatedBy_snoc; [exact Hl1|].
      apply andb_true_iff in E as [_ E]. apply orb_true_iff in E as [E|E].
      - apply geb_trans_Conversion. exact E.
      - apply andb_true_iff in E as [E _]. destruct kind; try discriminate. reflexivity. }
    apply posts_bind with (P := gatedBy kind);
      [apply collectOptionalConversions_gated; exact Hl3|].
    intros l4 Hl4. apply posts_ret. rewrite andb_false_l || idtac.
    destruct (concrete && TypeMatchKind.geb kind TypeMatchKind.Conversion
              && shouldTryUserConversion TC type1) eqn:E; [|exact Hl4].
    apply andb_true_iff in E as [E _]. congruence.
Qed.

Lemma potentialConversionsOf_gated type1 type2 typeVar1 typeVar2 kind flags locator :
  posts (potentialConversionsOf TC rec type1 type2 typeVar1 typeVar2 kind flags locator)
    (fun c => match c with
              | Return _ => True
              | Continue l => gatedBy kind l
              end).
Proof.
  unfold potentialConversionsOf.
  apply posts_bind with (P := fun c => match c with
                                       | Return _ => True
                                       | Continue l => gatedBy kind l
                                       end);
    [apply decomposeParallelStructure_gated|].
  intros [r|l] Hl; [apply posts_ret; exact I|].
  apply collectPotentialConversions_gated. exact Hl.
Qed.

End Gating.

(** The conversions that [matchTypes] considers are gated by the kind of
    the match: tuple-to-tuple and deep equality at every kind;
    scalar-to-tuple, tuple-to-scalar and superclass only from TrivialSubtype
    on; existential only from Subtype on; lvalue-to-rvalue, the two optional
    conversions and user-defined conversions only at Conversion. *)
Theorem conversion_candidates_are_gated TC rec type1 type2 typeVar1 typeVar2 kind flags
    locator cs candidates cs' :
  potentialConversionsOf TC rec type1 type2 typeVar1 typeVar2 kind flags locator cs
  = Done (Continue candidates, cs') ->
  forall p, p ∈ candidates -> TypeMatchKind.geb kind (minimalKind p) = true.
Proof.
  intros H p Hp.
  pose proof (potentialConversionsOf_gated TC rec type1 type2 typeVar1 typeVar2 kind flags
                locator cs _ cs' H) as Hg.
  simpl in Hg. unfold gatedBy in Hg. rewrite Forall_forall in Hg. auto.
Qed.

Lemma conversion_candidates_are_gated_witness :
  potentialConversionsOf Examples.bareTC (recursion Examples.bareTC 0) Examples.Int
    (TBoundGeneric Enum Examples.OptionalDecl None [Examples.Int]) None None
    TypeMatchKind.Conversion TMF_None Examples.noLocator Examples.emptyCS
  = Done (Continue [ConversionRestrictionKind.ValueToOptional], Examples.emptyCS)
  /\ forall p, p ∈ [ConversionRestrictionKind.ValueToOptional] ->
       TypeMatchKind.geb TypeMatchKind.Conversion (minimalKind p) = true.
Proof.
  split; [reflexivity|].
  apply (conversion_candidates_are_gated Examples.bareTC (recursion Examples.bareTC 0)
           Examples.Int (TBoundGeneric Enum Examples.OptionalDecl None [Examples.Int])
           None None TypeMatchKind.Conversion TMF_None Examples.noLocator Examples.emptyCS
           [ConversionRestrictionKind.ValueToOptional] Examples.emptyCS).
  reflexivity.
Defined.

(* ===================================================================== *)
(** ** Lvalues at the kind Equal *)
(* ===================================================================== *)

Lemma Ty_eqb_lvalue_object t q : isLValue t = false -> Ty_eqb (TLValue t q) t = false.
Proof. destruct t; simpl; auto; discriminate. Qed.

(** The kind Equal looks through lvalues, the stricter kind Bind and the
    subtype kinds do not: an lvalue type matches its own object type at Equal,
    and fails to match it at Bind, TrivialSubtype and Subtype (the object type
    being neither a type variable, an lvalue, a tuple nor an existential). *)
Theorem lvalue_matches_object_only_at_equal TC n object quals kind flags locator cs :
  isTypeVariable object = false -> isLValue object = false ->
  isTupleType object = false -> isExistentialType object = false ->
  TypeMatchKind.ltb kind TypeMatchKind.Conversion = true ->
  matchTypes TC (S n) (TLValue object quals) object kind flags locator cs
  = if TypeMatchKind.eqb kind TypeMatchKind.SameType
    then Done (Solved, cs)
    else Done (Error,
               withFailure (mkFailure (getConstraintLocator locator)
                              (getRelationalFailureKind kind) (TLValue object quals)
                              (Some object) "") cs).
Proof.
  intros Hvar Hlv Htuple Hex Hk. rewrite matchTypes_S. unfold matchTypes_body, bind.
  destruct (TypeMatchKind.eqb kind TypeMatchKind.SameType) eqn:Esame.
  - assert (Hobj : getRValueType object = object) by (destruct object; auto; discriminate).
    rewrite !getFixedTypeRecursive_concrete by (simpl; rewrite ?Hobj; exact Hvar).
    simpl. rewrite Hobj, Ty_eqb_refl. reflexivity.
  - rewrite !getFixedTypeRecursive_concrete by (simpl; auto).
    rewrite (Ty_eqb_lvalue_object _ _ Hlv).
    assert (Hkind : TypeKind_eqb (getKind (TLValue object quals)) (getKind object) = false).
    { destruct object as [| | | | | | | |[] | | | | | | | | | |[]]; auto; discriminate. }
    assert (Htup : asTuple object = None) by (destruct object; auto; discriminate).
    unfold potentialConversionsOf, decomposeParallelStructure, bind.
    rewrite Hkind.
    unfold collectPotentialConversions, collectTupleAndClassConversions,
      collectOptionalConversions, tuplesWithMismatchedNames, mayHaveSuperclass, bind, ret.
    cbn [negb isSome orb andb asTuple getClassOrBoundGenericClass].
    rewrite Htup, Hex.
    destruct kind; try discriminate; simpl;
      unfold commitToConversions, bind; simpl; rewrite recordIfEnabled_eq; reflexivity.
Qed.

Lemma lvalue_matches_object_only_at_equal_witness :
  matchTypes Examples.bareTC 1 (TLValue Examples.Int (mkQual false false)) Examples.Int
    TypeMatchKind.Subtype TMF_None Examples.noLocator Examples.emptyCS
  = Done (Error,
          withFailure (mkFailure (getConstraintLocator Examples.noLocator)
                         (getRelationalFailureKind TypeMatchKind.Subtype)
                         (TLValue Examples.Int (mkQual false false))
                         (Some Examples.Int) "") Examples.emptyCS).
Proof.
  apply (lvalue_matches_object_only_at_equal Examples.bareTC 0 Examples.Int
           (mkQual false false) TypeMatchKind.Subtype TMF_None Examples.noLocator
           Examples.emptyCS); reflexivity.
Defined.

(* ===================================================================== *)
(** ** What the simplifier leaves in place *)
(* ===================================================================== *)

Lemma extends_refl cs : extends cs cs.
Proof. repeat split; auto. Qed.

Lemma extends_trans cs1 cs2 cs3 : extends cs1 cs2 -> extends cs2 cs3 -> extends cs1 cs3.
Proof.
  intros (A1 & B1 & C1 & D1) (A2 & B2 & C2 & D2). repeat split.
  - etrans; eauto.
  - auto.
  - lia.
  - etrans; eauto.
Qed.

Lemma preserving_ret {A} (a : A) : preserving (ret a).
Proof. intros cs b cs' H. injection H as _ <-. apply extends_refl. Qed.

Lemma preserving_bind {A B} (m : M A) (f : A -> M B) :
  preserving m -> (forall a, preserving (f a)) -> preserving (bind m f).
Proof.
  intros Hm Hf cs b cs' H. unfold bind in H.
  destruct (m cs) as [[a cs1]| |] eqn:E; try discriminate.
  eapply extends_trans; [eapply Hm; eauto | eapply Hf; eauto].
Qed.

Lemma preserving_abort {A} : preserving (@abort A).
Proof. intros cs a cs' H. discriminate. Qed.

Lemma preserving_timeout {A} : preserving (@timeout A).
Proof. intros cs a cs' H. discriminate. Qed.

Lemma preserving_liftRes {A} (r : ConstraintSystem -> Res A) : preserving (liftRes r).
Proof.
  intros cs a cs' H. unfold liftRes in H. destruct (r cs); try discriminate.
  injection H as _ <-. apply extends_refl.
Qed.

Lemma preserving_get : preserving get.
Proof. intros cs a cs' H. injection H as _ <-. apply extends_refl. Qed.

Lemma preserving_modify f : (forall cs, extends cs (f cs)) -> preserving (modify f).
Proof. intros Hf cs a cs' H. injection H as _ <-. apply Hf. Qed.

Lemma preserving_assert b : preserving (assert b).
Proof. destruct b; [apply preserving_ret | apply preserving_abort]. Qed.

Lemma preserving_shouldRecordFailures : preserving shouldRecordFailures.
Proof. intros cs a cs' H. injection H as _ <-. apply extends_refl. Qed.

Lemma preserving_recordFailure locator kind first second name :
  preserving (recordFailure locator kind first second name).
Proof.
  apply preserving_modify. intros cs. destruct (recordFailures cs); [|apply extends_refl].
  repeat split; simpl; auto. apply prefix_app_r. reflexivity.
Qed.

Lemma preserving_createTypeVariable locator b1 b2 :
  preserving (createTypeVariable locator b1 b2).
Proof.
  intros cs a cs' H. injection H as _ <-. repeat split; simpl; auto.
  rewrite length_app. lia.
Qed.

Lemma extends_setParentOrFixed typeVar v cs : extends cs (setParentOrFixed typeVar v cs).
Proof.
  repeat split; simpl; auto. rewrite length_alter. lia.
Qed.

Lemma preserving_mergeEquivalenceClasses rep1 rep2 :
  preserving (mergeEquivalenceClasses rep1 rep2).
Proof. apply preserving_modify. intros cs. apply extends_setParentOrFixed. Qed.

Lemma preserving_getFixedTypeRecursive t w : preserving (getFixedTypeRecursive t w).
Proof.
  unfold getFixedTypeRecursive.
  destruct (if w then getRValueType t else t); try apply preserving_ret.
  apply preserving_bind; [apply preserving_liftRes|].
  intros [f|]; apply preserving_ret.
Qed.

Lemma preserving_assignFixedType typeVar type : preserving (assignFixedType typeVar type).
Proof.
  unfold assignFixedType. apply preserving_bind; [apply preserving_liftRes|].
  intros [f|]; [apply preserving_abort|].
  apply preserving_bind; [apply preserving_liftRes|].
  intros rep. apply preserving_modify. intros cs. apply extends_setParentOrFixed.
Qed.

Lemma extends_retired c s cs : extends cs (retired c s cs).
Proof. unfold retired. destruct (solverState cs); repeat split; simpl; auto. Qed.

Create HintDb preserving.
#[local] Hint Resolve preserving_ret preserving_abort preserving_timeout preserving_liftRes
  preserving_get preserving_assert preserving_shouldRecordFailures preserving_recordFailure
  preserving_createTypeVariable preserving_mergeEquivalenceClasses
  preserving_getFixedTypeRecursive preserving_assignFixedType : preserving.

(** One step through a monadic body: binds, branches and the leaves known
    to keep the system in place. *)
Ltac pres_step :=
  match goal with
  | |- preserving (bind _ _) => apply preserving_bind; [|intros]
  | |- preserving (if ?b then _ else _) => destruct b
  | |- preserving (match ?x with _ => _ end) => destruct x
  | |- preserving (let '(_, _) := ?x in _) => destruct x
  | |- preserving (let _ := _ in _) => cbv zeta
  | |- preserving _ => solve [auto with preserving]
  end.
Ltac pres := repeat pres_step.

Section Preserving.
Variable TC : TypeChecker.
Variable rec : Recursion.
Hypothesis Horacles : preservingOracles TC.
Hypothesis HmatchTypes : forall type1 type2 kind flags locator,
  preserving (recMatchTypes rec type1 type2 kind flags locator).
Hypothesis HaddConstraint : forall constraint, preserving (recAddConstraint rec constraint).

Local Hint Resolve HmatchTypes HaddConstraint : preserving.

Lemma preserving_recordIfEnabled locator kind first second :
  preserving (recordIfEnabled locator kind first second).
Proof. unfold recordIfEnabled. pres. Qed.
Local Hint Resolve preserving_recordIfEnabled : preserving.

Lemma preserving_addRelationalConstraint kind first second locator :
  preserving (addRelationalConstraint rec kind first second locator).
Proof. unfold addRelationalConstraint. pres. Qed.

Lemma preserving_addValueMemberConstraint baseTy name memberTy locator :
  preserving (addValueMemberConstraint rec baseTy name memberTy locator).
Proof. unfold addValueMemberConstraint. pres. Qed.

Lemma preserving_addBindOverloadConstraint boundType choice locator :
  preserving (addBindOverloadConstraint rec boundType choice locator).
Proof. unfold addBindOverloadConstraint. pres. Qed.

Lemma preserving_addOverloadSet boundType choices locator :
  preserving (addOverloadSet rec boundType choices locator).
Proof. unfold addOverloadSet. pres. Qed.
Local Hint Resolve preserving_addRelationalConstraint preserving_addValueMemberConstraint
  preserving_addBindOverloadConstraint preserving_addOverloadSet : preserving.

Lemma preserving_simplifyConformsToConstraint type protocol locator allow :
  preserving (simplifyConformsToConstraint TC type protocol locator allow).
Proof. unfold simplifyConformsToConstraint. pres. Qed.
Local Hint Resolve preserving_simplifyConformsToConstraint : preserving.


Lemma preserving_matchTupleElements tuple1 tuple2 kind subFlags locator l1 l2 i :
  preserving (matchTupleElements rec tuple1 tuple2 kind subFlags locator l1 l2 i).
Proof.
  revert l2 i. induction l1 as [|elt1 r1 IH]; intros [|elt2 r2] i; simpl;
    auto with preserving.
  pres; apply IH.
Qed.

Lemma preserving_matchShuffledElements tuple1 tuple2 subFlags locator srcs idx2 hasVarArg :
  preserving (matchShuffledElements rec tuple1 tuple2 subFlags locator srcs idx2 hasVarArg).
Proof.
  revert idx2 hasVarArg. induction srcs as [|src rest IH]; intros idx2 hasVarArg; simpl;
    auto with preserving.
  pres; apply IH.
Qed.

Lemma preserving_matchVariadicElements tuple1 eltType2 subFlags locator variadicArguments :
  preserving (matchVariadicElements rec tuple1 eltType2 subFlags locator variadicArguments).
Proof.
  induction variadicArguments as [|idx1 rest IH]; simpl; auto with preserving.
  pres; apply IH.
Qed.
Local Hint Resolve preserving_matchTupleElements preserving_matchShuffledElements
  preserving_matchVariadicElements : preserving.

Lemma preserving_matchTupleTypes tuple1 tuple2 kind flags locator :
  preserving (matchTupleTypes TC rec tuple1 tuple2 kind flags locator).
Proof. unfold matchTupleTypes. pres. Qed.

Lemma preserving_matchScalarToTupleTypes type1 tuple2 kind flags locator :
  preserving (matchScalarToTupleTypes TC rec type1 tuple2 kind flags locator).
Proof. unfold matchScalarToTupleTypes. pres. Qed.

Lemma preserving_matchTupleToScalarTypes tuple1 type2 kind flags locator :
  preserving (matchTupleToScalarTypes rec tuple1 type2 kind flags locator).
Proof. unfold matchTupleToScalarTypes. pres. Qed.

Lemma preserving_matchFunctionTypes i1 r1 a1 n1 i2 r2 a2 n2 kind flags locator :
  preserving (matchFunctionTypes rec i1 r1 a1 n1 i2 r2 a2 n2 kind flags locator).
Proof. unfold matchFunctionTypes. pres. Qed.

Lemma preserving_matchSuperclassTypes type1 type2 kind flags locator :
  preserving (matchSuperclassTypes TC rec type1 type2 kind flags locator).
Proof. unfold matchSuperclassTypes. pres. Qed.

Lemma preserving_matchGenericArguments locator args1 args2 i :
  preserving (matchGenericArguments rec locator args1 args2 i).
Proof.
  revert args2 i. induction args1 as [|a1 r1 IH]; intros [|a2 r2] i; simpl;
    auto with preserving.
  pres; apply IH.
Qed.
Local Hint Resolve preserving_matchGenericArguments : preserving.

Lemma preserving_matchDeepEqualityTypes type1 type2 locator :
  preserving (matchDeepEqualityTypes rec type1 type2 locator).
Proof. unfold matchDeepEqualityTypes. pres. Qed.

Lemma preserving_matchExistentialProtocols type1 locator protocols :
  preserving (matchExistentialProtocols TC rec type1 locator protocols).
Proof.
  induction protocols as [|proto rest IH]; simpl; auto with preserving.
  pres; apply IH.
Qed.
Local Hint Resolve preserving_matchExistentialProtocols : preserving.

Lemma preserving_matchExistentialTypes type1 type2 kind flags locator :
  preserving (matchExistentialTypes TC rec type1 type2 kind flags locator).
Proof. unfold matchExistentialTypes. pres. Qed.

Lemma preserving_tryUserConversion type kind otherType locator :
  preserving (tryUserConversion TC rec type kind otherType locator).
Proof. unfold tryUserConversion. pres. Qed.

Lemma preserving_unifyTypeVariables type1 type2 typeVar1 typeVar2 kind flags locator :
  preserving (unifyTypeVariables rec type1 type2 typeVar1 typeVar2 kind flags locator).
Proof. unfold unifyTypeVariables. pres. Qed.
Local Hint Resolve preserving_matchTupleTypes preserving_matchScalarToTupleTypes
  preserving_matchTupleToScalarTypes preserving_matchFunctionTypes
  preserving_matchSuperclassTypes preserving_matchDeepEqualityTypes
  preserving_matchExistentialTypes preserving_tryUserConversion
  preserving_unifyTypeVariables : preserving.

Lemma preserving_decomposeParallelStructure type1 type2 kind flags locator :
  preserving (decomposeParallelStructure TC rec type1 type2 kind flags locator).
Proof. unfold decomposeParallelStructure. pres. Qed.

Lemma preserving_tuplesWithMismatchedNames tuple1 tuple2 :
  preserving (tuplesWithMismatchedNames TC tuple1 tuple2).
Proof. unfold tuplesWithMismatchedNames. pres. Qed.
Local Hint Resolve preserving_decomposeParallelStructure
  preserving_tuplesWithMismatchedNames : preserving.

Lemma preserving_collectTupleAndClassConversions type1 type2 kind potentialConversions :
  preserving (collectTupleAndClassConversions TC type1 type2 kind potentialConversions).
Proof. unfold collectTupleAndClassConversions. pres. Qed.

Lemma preserving_collectOptionalConversions type1 type2 concrete kind potentialConversions :
  preserving (collectOptionalConversions TC type1 type2 concrete kind potentialConversions).
Proof. unfold collectOptionalConversions. pres. Qed.
Local Hint Resolve preserving_collectTupleAndClassConversions
  preserving_collectOptionalConversions : preserving.

Lemma preserving_collectPotentialConversions type1 type2 concrete kind flags locator l :
  preserving (collectPotentialConversions TC rec type1 type2 concrete kind flags locator l).
Proof. unfold collectPotentialConversions. pres. Qed.

Lemma preserving_matchSingleConversion potential type1 type2 kind flags locator :
  preserving (matchSingleConversion TC rec potential type1 type2 kind flags locator).
Proof. unfold matchSingleConversion. pres. Qed.
Local Hint Resolve preserving_collectPotentialConversions
  preserving_matchSingleConversion : preserving.

Lemma preserving_commitToConversions l type1 type2 typeVar1 typeVar2 kind flags locator :
  preserving (commitToConversions TC rec l type1 type2 typeVar1 typeVar2 kind flags locator).
Proof. unfold commitToConversions. pres. Qed.

Lemma preserving_potentialConversionsOf type1 type2 typeVar1 typeVar2 kind flags locator :
  preserving (potentialConversionsOf TC rec type1 type2 typeVar1 typeVar2 kind flags locator).
Proof. unfold potentialConversionsOf. pres. Qed.
Local Hint Resolve preserving_commitToConversions preserving_potentialConversionsOf
  : preserving.

Lemma preserving_matchTypes_body type1 type2 kind flags locator :
  preserving (matchTypes_body TC rec type1 type2 kind flags locator).
Proof. unfold matchTypes_body. pres. Qed.


(** *** The simplifier *)

Lemma preserving_involvesAssociatedTypes decl : preserving (involvesAssociatedTypes TC decl).
Proof. unfold involvesAssociatedTypes. pres. Qed.
Local Hint Resolve preserving_involvesAssociatedTypes : preserving.

Lemma preserving_simplifyType t : preserving (simplifyType t).
Proof. unfold simplifyType. pres. Qed.
Local Hint Resolve preserving_simplifyType : preserving.

Lemma preserving_constructorChoices baseTy isExistential ctors :
  preserving (constructorChoices TC baseTy isExistential ctors).
Proof. induction ctors as [|c rest IH]; simpl; pres. Qed.

Lemma preserving_valueMemberChoices baseTy baseObjTy isExistential isMetatype isDynamic l :
  preserving (valueMemberChoices TC baseTy baseObjTy isExistential isMetatype isDynamic l).
Proof. induction l as [|c rest IH]; simpl; pres. Qed.

Lemma preserving_doesNotHaveMember locator baseObjTy name :
  preserving (doesNotHaveMember locator baseObjTy name).
Proof. unfold doesNotHaveMember. pres. Qed.
Local Hint Resolve preserving_constructorChoices preserving_valueMemberChoices
  preserving_doesNotHaveMember : preserving.

Lemma preserving_simplifyLookedUpMember kind baseTy baseObjTy instanceTy isMetatype memberTy
    name locator :
  preserving (simplifyLookedUpMember TC rec kind baseTy baseObjTy instanceTy isMetatype
                memberTy name locator).
Proof. unfold simplifyLookedUpMember. pres. Qed.
Local Hint Resolve preserving_simplifyLookedUpMember : preserving.

Lemma preserving_simplifyMemberConstraint kind first memberTy name locator :
  preserving (simplifyMemberConstraint TC rec kind first memberTy name locator).
Proof. unfold simplifyMemberConstraint. pres. Qed.

Lemma preserving_resolveOverload locator boundType choice :
  preserving (resolveOverload TC rec locator boundType choice).
Proof.
  destruct Horacles as [Hmember Hreference].
  unfold resolveOverload. pres; try apply Hmember; try apply Hreference.
  all: apply preserving_modify; intros cs; repeat split; simpl; auto.
Qed.

Lemma preserving_simplifyConstructionConstraint valueType argType flags locator :
  preserving (simplifyConstructionConstraint TC rec valueType argType flags locator).
Proof. unfold simplifyConstructionConstraint. pres. Qed.

Lemma preserving_simplifyCheckedCastConstraint fromType toType locator :
  preserving (simplifyCheckedCastConstraint TC rec fromType toType locator).
Proof. unfold simplifyCheckedCastConstraint. pres. Qed.

Lemma preserving_simplifyArchetypeConstraint first locator :
  preserving (simplifyArchetypeConstraint first locator).
Proof. unfold simplifyArchetypeConstraint. pres. Qed.

Lemma preserving_simplifyForTypePropertyConstraint type :
  preserving (simplifyForTypePropertyConstraint type).
Proof. unfold simplifyForTypePropertyConstraint. pres. Qed.
Local Hint Resolve preserving_simplifyForTypePropertyConstraint : preserving.

Lemma preserving_simplifyClassConstraint first locator :
  preserving (simplifyClassConstraint TC first locator).
Proof. unfold simplifyClassConstraint. pres. Qed.

Lemma preserving_simplifyDynamicLookupConstraint first locator :
  preserving (simplifyDynamicLookupConstraint TC first locator).
Proof. unfold simplifyDynamicLookupConstraint. pres. Qed.

Lemma preserving_simplifyApplicableFnConstraint type1 second locator :
  preserving (simplifyApplicableFnConstraint rec type1 second locator).
Proof. unfold simplifyApplicableFnConstraint. pres. Qed.

Lemma preserving_matchRestriction restriction ckind matchKind first second locator :
  preserving (matchRestriction TC rec restriction ckind matchKind first second locator).
Proof. unfold matchRestriction. pres. Qed.

Lemma preserving_recordRestriction ckind first second restriction :
  preserving (recordRestriction ckind first second restriction).
Proof.
  unfold recordRestriction. pres.
  all: apply preserving_modify; intros cs; repeat split; simpl; auto.
Qed.
Local Hint Resolve preserving_matchRestriction preserving_recordRestriction : preserving.

Lemma preserving_simplifyRelationalConstraint ckind restriction first second locator :
  preserving (simplifyRelationalConstraint TC rec ckind restriction first second locator).
Proof. unfold simplifyRelationalConstraint. pres. Qed.

Lemma preserving_addNestedConstraints nested : preserving (addNestedConstraints rec nested).
Proof. induction nested as [|con rest IH]; simpl; pres. Qed.
Local Hint Resolve preserving_simplifyMemberConstraint preserving_resolveOverload
  preserving_simplifyConstructionConstraint preserving_simplifyCheckedCastConstraint
  preserving_simplifyArchetypeConstraint preserving_simplifyClassConstraint
  preserving_simplifyDynamicLookupConstraint preserving_simplifyApplicableFnConstraint
  preserving_simplifyRelationalConstraint preserving_addNestedConstraints : preserving.

Lemma preserving_simplifyConstraint constraint :
  preserving (simplifyConstraint TC rec constraint).
Proof. unfold simplifyConstraint. pres. Qed.
Local Hint Resolve preserving_simplifyConstraint : preserving.

Lemma preserving_retire constraint simplifyExisting :
  preserving (retire constraint simplifyExisting).
Proof. apply preserving_modify. intros cs. apply extends_retired. Qed.
Local Hint Resolve preserving_retire : preserving.

Lemma preserving_addConstraint_body constraint isExternallySolved simplifyExisting :
  preserving (addConstraint_body TC rec constraint isExternallySolved simplifyExisting).
Proof.
  unfold addConstraint_body. pres.
  - apply preserving_modify. intros cs.
    destruct (failedConstraint cs) eqn:E; [apply extends_refl|].
    repeat split; simpl; auto. congruence.
  - apply preserving_modify. intros cs. repeat split; simpl; auto.
    destruct (negb isExternallySolved); [apply prefix_app_r|]; reflexivity.
Qed.

End Preserving.

Lemma preserving_solver TC fuel :
  preservingOracles TC ->
  (forall type1 type2 kind flags locator,
     preserving (matchTypes TC fuel type1 type2 kind flags locator))
  /\ (forall constraint isExternallySolved simplifyExisting,
        preserving (addConstraint TC fuel constraint isExternallySolved simplifyExisting)).
Proof.
  intros Horacles. induction fuel as [|n [IHm IHa]].
  - split; intros; apply preserving_timeout.
  - split; intros.
    + rewrite matchTypes_S. apply preserving_matchTypes_body; auto.
      intros c. apply IHa.
    + rewrite addConstraint_S. apply preserving_addConstraint_body; auto.
      intros c. apply IHa.
Qed.

Lemma bareTC_preservingOracles : preservingOracles Examples.bareTC.
Proof. split; intros; apply preserving_ret. Qed.

(** [matchTypes] only adds to the constraint system.  When the
    oracles that open the type of a declaration do so, a call of the matcher
    that returns leaves every pending constraint and every failure record
    where it was (new ones are appended), keeps the first failed constraint
    once there is one, and removes no type variable. *)
Theorem matchTypes_only_adds TC fuel type1 type2 kind flags locator cs r cs' :
  preservingOracles TC ->
  matchTypes TC fuel type1 type2 kind flags locator cs = Done (r, cs') ->
  Constraints cs `prefix_of` Constraints cs'
  /\ (forall c, failedConstraint cs = Some c -> failedConstraint cs' = Some c)
  /\ length (TypeVariables cs) <= length (TypeVariables cs')
  /\ failures cs `prefix_of` failures cs'.
Proof.
  intros Horacles H.
  exact (proj1 (preserving_solver TC fuel Horacles) _ _ _ _ _ _ _ _ H).
Qed.

Lemma matchTypes_only_adds_witness :
  let cs := Examples.oneVariableCS in
  let cs' := enqueue (mkConstraint ConstraintKind.Subtype None (TTypeVariable 0)
                        (Some Examples.Int) "" None) Examples.oneVariableCS in
  Constraints cs `prefix_of` Constraints cs'
  /\ (forall c, failedConstraint cs = Some c -> failedConstraint cs' = Some c)
  /\ length (TypeVariables cs) <= length (TypeVariables cs')
  /\ failures cs `prefix_of` failures cs'.
Proof.
  apply (matchTypes_only_adds Examples.bareTC 3 (TTypeVariable 0) Examples.Int
           TypeMatchKind.Subtype TMF_GenerateConstraints Examples.noLocator
           Examples.oneVariableCS Solved).
  - exact bareTC_preservingOracles.
  - reflexivity.
Defined.

(** [addConstraint] only adds to the constraint system: under the same
    assumption on the oracles, whatever the constraint and however deep its
    simplification goes, the pending constraints and the failure records
    present before the call are still there, in place, after it, a failed
    constraint recorded earlier is not replaced, and no type variable is
    removed. *)
Theorem addConstraint_only_adds TC fuel constraint isExternallySolved simplifyExisting
    cs ok cs' :
  preservingOracles TC ->
  addConstraint TC fuel constraint isExternallySolved simplifyExisting cs = Done (ok, cs') ->
  Constraints cs `prefix_of` Constraints cs'
  /\ (forall c, failedConstraint cs = Some c -> failedConstraint cs' = Some c)
  /\ length (TypeVariables cs) <= length (TypeVariables cs')
  /\ failures cs `prefix_of` failures cs'.
Proof.
  intros Horacles H.
  exact (proj2 (preserving_solver TC fuel Horacles) _ _ _ _ _ _ H).
Qed.

Lemma addConstraint_only_adds_witness :
  let cs := Examples.oneVariableCS in
  let cs' := enqueue (mkConstraint ConstraintKind.ValueMember None (TTypeVariable 0)
                        (Some Examples.Int) "count" None) Examples.oneVariableCS in
  Constraints cs `prefix_of` Constraints cs'
  /\ (forall c, failedConstraint cs = Some c -> failedConstraint cs' = Some c)
  /\ length (TypeVariables cs) <= length (TypeVariables cs')
  /\ failures cs `prefix_of` failures cs'.
Proof.
  apply (addConstraint_only_adds Examples.bareTC 1
           (mkConstraint ConstraintKind.ValueMember None (TTypeVariable 0)
              (Some Examples.Int) "count" None) false false Examples.oneVariableCS false).
  - exact bareTC_preservingOracles.
  - reflexivity.
Defined.

(* ===================================================================== *)
(** ** The comparison of overload choices *)
(* ===================================================================== *)

Lemma sameDecl_trans TC d1 d2 d3 :
  sameDecl TC d1 d2 = true -> sameDecl TC d2 d3 = true -> sameDecl TC d1 d3 = true.
Proof.
  unfold sameDecl.
  destruct (Nat.eqb_spec d1 d2) as [->|]; [auto|].
  destruct (Nat.eqb_spec d2 d3) as [<-|].
  { destruct (Nat.eqb d1 d2); auto. }
  destruct (declIsTypeDecl TC d1), (declIsTypeDecl TC d2), (declIsTypeDecl TC d3);
    simpl; try discriminate; destruct (Nat.eqb d1 d3); auto.
Qed.

(** [sameOverloadChoice] is symmetric and transitive, so that comparing
    every solution's choice with the first solution's, as the solution diff
    does, finds the same differences whatever the order of its arguments. *)
Theorem sameOverloadChoice_symmetric_transitive TC x y z :
  sameOverloadChoice TC x y = sameOverloadChoice TC y x
  /\ (sameOverloadChoice TC x y = true -> sameOverloadChoice TC y z = true ->
      sameOverloadChoice TC x z = true).
Proof.
  split; [apply sameOverloadChoice_sym|]. unfold sameOverloadChoice.
  destruct (choiceKind x), (choiceKind y), (choiceKind z); simpl; auto;
      try discriminate;
      try (destruct (choiceDecl x), (choiceDecl y), (choiceDecl z); auto;
           try discriminate; apply sameDecl_trans).
  intros H1 H2. apply Nat.eqb_eq in H1, H2. apply Nat.eqb_eq. congruence.
Qed.

Lemma sameOverloadChoice_symmetric_transitive_witness :
  let x := mkChoice None OverloadChoiceKind.TupleIndex None 1 false in
  let y := mkChoice (Some Examples.Int) OverloadChoiceKind.TupleIndex None 1 false in
  let z := mkChoice None OverloadChoiceKind.TupleIndex (Some 3) 1 true in
  sameOverloadChoice Examples.bareTC x y = sameOverloadChoice Examples.bareTC y x
  /\ sameOverloadChoice Examples.bareTC x z = true.
Proof.
  intros x y z.
  destruct (sameOverloadChoice_symmetric_transitive Examples.bareTC x y z) as [Hsym Htrans].
  split; [exact Hsym | apply Htrans; reflexivity].
Defined.

(* ===================================================================== *)
(** ** [stripInitializers] *)
(* ===================================================================== *)

Lemma stripInitializers_tuple fields :
  stripInitializers (TTuple fields)
  = if existsb hasInit fields then TTuple (map clearInit fields)
    else TTuple (map (fun e => mkElt (getName e) (stripInitializers (getType e))
                                 (isVararg e) DAK_None) fields).
Proof.
  simpl. destruct (existsb hasInit fields) eqn:E; [reflexivity|]. f_equal.
  induction fields as [|[n ty v i] rest IH]; [reflexivity|].
  simpl in E. apply orb_false_iff in E as [Ei E]. rewrite (IH E).
  destruct i; [reflexivity|discriminate].
Qed.

Lemma stripInitializers_list (l : list Ty) :
  (fix go (l : list Ty) : list Ty :=
     match l with
     | [] => []
     | ty :: l' => stripInitializers ty :: go l'
     end) l = map stripInitializers l.
Proof. induction l as [|x l IH]; [reflexivity|]. rewrite IH. reflexivity. Qed.

Lemma existsb_hasInit_clearInit fields : existsb hasInit (map clearInit fields) = false.
Proof. induction fields as [|e l IH]; [reflexivity|]. simpl. exact IH. Qed.

Lemma map_id_Forall {A} (f : A -> A) l : Forall (fun x => f x = x) l -> map f l = l.
Proof. induction 1 as [|x l Hx _ IH]; [reflexivity|]. simpl. rewrite Hx, IH. reflexivity. Qed.

(** A type without any initializer is left as it is. *)
Lemma stripInitializers_fixed : forall t,
  hasInitializer t = false -> stripInitializers t = t.
Proof.
  unfold hasInitializer.
  induction t using Ty_induction; try reflexivity; intros Hno.
  - simpl in Hno. simpl. rewrite IHt by exact Hno. reflexivity.
  - rewrite findIf_tuple in Hno. apply orb_false_iff in Hno as [Hinit Hrest].
    rewrite stripInitializers_tuple, Hinit. f_equal.
    apply existsb_false_Forall in Hrest. apply existsb_false_Forall in Hinit.
    apply map_id_Forall. rewrite Forall_forall in *.
    intros [n ty v i] He.
    pose proof (H _ He (Hrest _ He)) as Hty. specialize (Hinit _ He).
    simpl in *. rewrite Hty. destruct i; [reflexivity|discriminate].
  - destruct parent as [p|]; [|reflexivity]. simpl in Hno. simpl.
    rewrite (H p eq_refl Hno). reflexivity.
  - simpl in Hno. simpl. rewrite IHt by exact Hno. reflexivity.
  - simpl in Hno. apply orb_false_iff in Hno as [H1 H2]. simpl.
    rewrite IHt1, IHt2 by assumption. reflexivity.
  - simpl in Hno. simpl. rewrite IHt by exact Hno. reflexivity.
  - simpl in Hno. rewrite findIf_list in Hno. simpl. rewrite stripInitializers_list.
    f_equal. apply map_id_Forall. apply existsb_false_Forall in Hno.
    rewrite Forall_forall in *. intros x Hx. apply (H x Hx), (Hno x Hx).
  - simpl in Hno. simpl. rewrite IHt by exact Hno. reflexivity.
  - simpl in Hno. rewrite findIf_list in Hno. apply orb_false_iff in Hno as [Hp Ha].
    simpl. rewrite stripInitializers_list. f_equal.
    + destruct parent as [p|]; [|reflexivity]. rewrite (H p eq_refl Hp). reflexivity.
    + apply map_id_Forall. apply existsb_false_Forall in Ha.
      rewrite Forall_forall in *. intros x Hx. apply (H0 x Hx), (Ha x Hx).
Qed.

(** [stripInitializers] works one level at a time.  On a tuple type it
    returns a tuple of the same length, with the same names and variadic
    markers, in which no field has an initializer; when a field had one, the
    element types are returned as they are.  A type without any initializer
    is left as it is.  But the function is not idempotent: when a field with
    an initializer has a tuple type that has itself a field with an
    initializer, the inner initializer survives the pass, and a second pass
    changes the type again. *)
Theorem stripInitializers_strips_one_level t :
  (forall fields, t = TTuple fields ->
     exists fields', stripInitializers t = TTuple fields'
                     /\ length fields' = length fields
                     /\ Forall (fun e => hasInit e = false) fields'
                     /\ map getName fields' = map getName fields
                     /\ map isVararg fields' = map isVararg fields
                     /\ (existsb hasInit fields = true ->
                         map getType fields' = map getType fields))
  /\ (hasInitializer t = false -> stripInitializers t = t)
  /\ (forall fields name inner vararg,
        t = TTuple fields ->
        mkElt name (TTuple inner) vararg DAK_Normal ∈ fields ->
        existsb hasInit inner = true ->
        stripInitializers t = TTuple (map clearInit fields)
        /\ stripInitializers (stripInitializers t) <> stripInitializers t).
Proof.
  split; [|split; [apply stripInitializers_fixed|]].
  - intros fields ->. rewrite stripInitializers_tuple.
    destruct (existsb hasInit fields) eqn:E; eexists; (split; [reflexivity|]);
      rewrite length_map, !map_map; repeat split; try discriminate.
    + apply Forall_forall. intros e He. apply list_elem_of_fmap in He as (e0 & -> & _).
      reflexivity.
    + apply Forall_forall. intros e He. apply list_elem_of_fmap in He as (e0 & -> & _).
      reflexivity.
  - intros fields name inner vararg -> Hin Hinner.
    assert (Hinit : existsb hasInit fields = true).
    { apply existsb_exists. eexists. split; [apply list_elem_of_In; exact Hin|reflexivity]. }
    assert (Hstrip : stripInitializers (TTuple fields) = TTuple (map clearInit fields)).
    { rewrite stripInitializers_tuple, Hinit. reflexivity. }
    split; [exact Hstrip|]. rewrite Hstrip.
    rewrite stripInitializers_tuple, existsb_hasInit_clearInit. intros Heq.
    injection Heq as Heq.
    apply list_elem_of_lookup in Hin as [i Hi].
    assert (Hat : map clearInit fields !! i
                  = Some (mkElt name (TTuple inner) vararg DAK_None))
      by (rewrite list_lookup_fmap, Hi; reflexivity).
    pose proof (f_equal (fun l => l !! i) Heq) as Hi'. cbv beta in Hi'.
    rewrite list_lookup_fmap, Hat in Hi'.
    cbn [fmap option_fmap option_map getName getType isVararg] in Hi'.
    rewrite stripInitializers_tuple, Hinner in Hi'. injection Hi' as Hi'.
    pose proof (existsb_hasInit_clearInit inner) as Hclear.
    rewrite Hi' in Hclear. congruence.
Qed.

Lemma stripInitializers_strips_one_level_witness :
  let inner := [mkElt "x" Examples.Int false DAK_Normal] in
  let t := TTuple [mkElt "p" (TTuple inner) false DAK_Normal] in
  stripInitializers t = TTuple [mkElt "p" (TTuple inner) false DAK_None]
  /\ stripInitializers (stripInitializers t) <> stripInitializers t.
Proof.
  intros inner t.
  destruct (stripInitializers_strips_one_level t) as (_ & _ & Hdeep).
  apply (Hdeep [mkElt "p" (TTuple inner) false DAK_Normal] "p" inner false eq_refl).
  - apply list_elem_of_singleton. reflexivity.
  - reflexivity.
Defined.
